(** * VoxMesh: a shallow embedding of [voxmesh/main.cpp]

    The program voxelises a triangulated surface: it casts one vertical
    ray per grid column, toggles the occupancy of the voxels between
    successive crossings, and then writes the grid either as a raw
    volume or as the triangulated boundary of the occupied cells.

    Modelling conventions.
    - [int] is a 32-bit two's complement integer, carried as a [Z] with
      the wrap-around written out ([wrap_int]); [GEO::index_t] is an
      unsigned 32-bit integer ([wrap_index]).
    - [double] is IEEE 754 binary64, carried as a [spec_float] with the
      operations of the Standard Library's [SpecFloat] at precision 53
      and maximal exponent 1024.
    - [std::vector] is a list; an access outside the vector has no
      defined behaviour in C++ and is the outcome [Undefined], and so is
      a division by zero.
    - [geo_assert] is the outcome [AssertFailed].
    - [GEO::vec3], its operators and [GEO::get_bbox] are Geogram's; the
      operators work coordinate by coordinate, with one operation of
      [double] for each coordinate.
    - A loop is a recursion on a fuel; the results below show that the
      outcome [OutOfFuel] does not occur with the fuel given at each
      loop. *)

From Stdlib Require Import ZArith Lia Bool List.
From Stdlib Require Import Floats.SpecFloat.
From Stdlib Require Import Strings.String Strings.Ascii DecimalString.
From stdpp Require Import base tactics list.

Local Open Scope Z_scope.

(** ** Outcomes of a run *)

Inductive outcome (A : Type) : Type :=
| Ok (a : A)
| AssertFailed
| Undefined
| OutOfFuel.

Arguments Ok {A} a.
Arguments AssertFailed {A}.
Arguments Undefined {A}.
Arguments OutOfFuel {A}.

Definition obind {A B} (m : outcome A) (f : A -> outcome B) : outcome B :=
  match m with
  | Ok a => f a
  | AssertFailed => AssertFailed
  | Undefined => Undefined
  | OutOfFuel => OutOfFuel
  end.

#[global] Instance outcome_bind : MBind outcome := fun A B f m => obind m f.
#[global] Instance outcome_ret : MRet outcome := fun A a => Ok a.

(** [geo_assert(b)] *)
Definition geo_assert (b : bool) : outcome unit :=
  if b then Ok tt else AssertFailed.

(** No assertion fired (whatever else happened). *)
Definition assert_free {A} (o : outcome A) : bool :=
  match o with
  | AssertFailed => false
  | _ => true
  end.

(** No loop was cut short by its fuel. *)
Definition within_fuel {A} (o : outcome A) : bool :=
  match o with
  | OutOfFuel => false
  | _ => true
  end.

(** The run returned, or it stopped at an access outside a vector. *)
Definition ends_well {A} (o : outcome A) : bool :=
  assert_free o && within_fuel o.

(** [for (i = lo; i < hi; i = next i) body]: the loop runs at most [fuel]
    times around. *)
Fixpoint for_loop {S : Type} (fuel : nat) (next : Z -> Z) (i hi : Z)
    (body : Z -> S -> outcome S) (s : S) : outcome S :=
  if i <? hi then
    match fuel with
    | O => OutOfFuel
    | Datatypes.S fuel' =>
        s' ← body i s; for_loop fuel' next (next i) hi body s'
    end
  else Ok s.

(** ** Machine integers *)

Definition int_min : Z := - 2 ^ 31.
Definition int_max : Z := 2 ^ 31 - 1.

Definition wrap_int (z : Z) : Z := (z + 2 ^ 31) mod 2 ^ 32 - 2 ^ 31.
Definition wrap_index (z : Z) : Z := z mod 2 ^ 32.

Definition int_add (a b : Z) : Z := wrap_int (a + b).
Definition int_mul (a b : Z) : Z := wrap_int (a * b).

(** [a / b] and [a % b] on [int] truncate towards zero; a zero divisor,
    and the smallest [int] over [-1], have no defined behaviour. *)
Definition int_div (a b : Z) : outcome Z :=
  if (b =? 0) || ((a =? - 2 ^ 31) && (b =? -1)) then Undefined
  else Ok (Z.quot a b).

Definition int_rem (a b : Z) : outcome Z :=
  if (b =? 0) || ((a =? - 2 ^ 31) && (b =? -1)) then Undefined
  else Ok (Z.rem a b).

Definition in_int (z : Z) : Prop := int_min <= z <= int_max.

(** ** [GEO::vec3i] *)

Record vec3i : Type := Vec3i { c0 : Z; c1 : Z; c2 : Z }.

Definition vget (v : vec3i) (axis : Z) : Z :=
  if axis =? 0 then c0 v else if axis =? 1 then c1 v else c2 v.

Definition vset (v : vec3i) (axis : Z) (a : Z) : vec3i :=
  if axis =? 0 then Vec3i a (c1 v) (c2 v)
  else if axis =? 1 then Vec3i (c0 v) a (c2 v)
  else Vec3i (c0 v) (c1 v) a.

Definition vadd (a b : vec3i) : vec3i :=
  Vec3i (int_add (c0 a) (c0 b)) (int_add (c1 a) (c1 b)) (int_add (c2 a) (c2 b)).

(** ** namespace Layout *)

Module Layout.

Definition index3_from_index (idx : Z) (size : vec3i) : outcome vec3i :=
  x ← int_rem idx (c0 size);
  q ← int_div idx (c0 size);
  y ← int_rem q (c1 size);
  z ← int_div q (c1 size);
  Ok (Vec3i x y z).

Definition index_from_index3 (vx size : vec3i) : Z :=
  int_add (int_mul (int_add (int_mul (c2 vx) (c1 size)) (c1 vx)) (c0 size)) (c0 vx).

End Layout.

(** The linear index of an in-range cell, in unbounded arithmetic. *)
Definition linear (x y z nx ny : Z) : Z := (z * ny + y) * nx + x.

(** ** [double]: IEEE 754 binary64 *)

Definition prec : Z := 53.
Definition emax : Z := 1024.

Definition double : Type := spec_float.

Definition dadd (a b : double) : double := SFadd prec emax a b.
Definition dsub (a b : double) : double := SFsub prec emax a b.
Definition dmul (a b : double) : double := SFmul prec emax a b.
Definition ddiv (a b : double) : double := SFdiv prec emax a b.
(** [a < b], [a > b], [a == b], [a != b] *)
Definition dlt (a b : double) : bool := SFltb a b.
Definition dgt (a b : double) : bool := dlt b a.
Definition deq (a b : double) : bool := SFeqb a b.
Definition dne (a b : double) : bool := negb (deq a b).

Definition dzero : double := S754_zero false.
Definition is_nan (a : double) : bool :=
  match a with S754_nan => true | _ => false end.

(** The conversion of an [int] to [double] is exact. *)
Definition double_of_int (n : Z) : double := binary_normalize prec emax n 0 false.

(** ** [orientation] and [point_in_triangle_2d] *)

(** The result is the returned sign with the value left in
    [twice_signed_area]. *)
Definition orientation (x1 y1 x2 y2 : double) : Z * double :=
  let twice_signed_area := dsub (dmul y1 x2) (dmul x1 y2) in
  (if dgt twice_signed_area dzero then 1
   else if dlt twice_signed_area dzero then -1
   else if dgt y2 y1 then 1
   else if dlt y2 y1 then -1
   else if dgt x1 x2 then 1
   else if dlt x1 x2 then -1
   else 0,
   twice_signed_area).

(** The three reference parameters [a], [b], [c] come in as [abc] and go
    out next to the returned boolean. *)
Definition point_in_triangle_2d (x0 y0 x1 y1 x2 y2 x3 y3 : double)
    (abc : double * double * double) : outcome (bool * (double * double * double)) :=
  let '(a, b, c) := abc in
  let x1 := dsub x1 x0 in let x2 := dsub x2 x0 in let x3 := dsub x3 x0 in
  let y1 := dsub y1 y0 in let y2 := dsub y2 y0 in let y3 := dsub y3 y0 in
  let '(signa, a) := orientation x2 y2 x3 y3 in
  if signa =? 0 then Ok (false, (a, b, c)) else
  let '(signb, b) := orientation x3 y3 x1 y1 in
  if negb (signb =? signa) then Ok (false, (a, b, c)) else
  let '(signc, c) := orientation x1 y1 x2 y2 in
  if negb (signc =? signa) then Ok (false, (a, b, c)) else
  let sum := dadd (dadd a b) c in
  _ ← geo_assert (dne sum dzero);
  Ok (true, (ddiv a sum, ddiv b sum, ddiv c sum)).

(** ** [VoxelGrid<num_t>], with [num_t = unsigned char] *)

Record VoxelGrid : Type := {
  m_data : list Z;
  m_origin : double * double * double;
  m_spacing : double;
  m_grid_size : vec3i
}.

Definition grid_size (g : VoxelGrid) : vec3i := m_grid_size g.

Definition num_voxels (g : VoxelGrid) : Z :=
  int_mul (int_mul (c0 (m_grid_size g)) (c1 (m_grid_size g))) (c2 (m_grid_size g)).

(** [v[idx]] on a [std::vector]: reading and writing in place. *)
Definition vector_at {A} (v : list A) (idx : Z) : outcome A :=
  if idx <? 0 then Undefined
  else match v !! Z.to_nat idx with
       | Some a => Ok a
       | None => Undefined
       end.

Definition vector_set {A} (v : list A) (idx : Z) (a : A) : outcome (list A) :=
  if (0 <=? idx) && (idx <? Z.of_nat (length v))
  then Ok (<[Z.to_nat idx := a]> v)
  else Undefined.

(** ** [compute_sign]: the flips of one grid column *)

(** [std::round]: to the nearest integer, halfway cases away from zero. *)
Definition std_round (v : double) : double :=
  match v with
  | S754_finite s m e =>
      if 0 <=? e then v
      else
        let n := Z.shiftr (Z.pos m) (- e)
                 + (if Z.testbit (Z.pos m) (- e - 1) then 1 else 0) in
        binary_normalize prec emax (cond_Zopp s n) 0 s
  | _ => v
  end.

(** The conversion [int(v)] truncates towards zero. On NaN and on values
    outside the range of [int] C++ leaves the result open; the value
    written here is the one of x86-64 (the smallest [int]). The results
    on [compute_sign] below do not depend on that choice beyond its being
    an [int]. *)
Definition int_of_double (v : double) : Z :=
  match v with
  | S754_zero _ => 0
  | S754_finite s m e =>
      let n := cond_Zopp s (if 0 <=? e then Z.pos m * 2 ^ e
                            else Z.shiftr (Z.pos m) (- e)) in
      if (int_min <=? n) && (n <=? int_max) then n else int_min
  | _ => int_min
  end.

(** [std::max(0, std::min(int(std::round((h - origin[2])/spacing)), size[2]))] *)
Definition zindex (origin_z spacing : double) (nz : Z) (h : double) : Z :=
  Z.max 0 (Z.min (int_of_double (std_round (ddiv (dsub h origin_z) spacing))) nz).

(** [T(1) - voxels.at(idx)], stored back into an [unsigned char]. *)
Definition flip (v : Z) : Z := (1 - v) mod 256.

(** The body of the loop on [z]. *)
Definition flip_body (size : vec3i) (x y z : Z) (data : list Z) : outcome (list Z) :=
  _ ← geo_assert ((0 <=? z) && (z <? c2 size));
  let idx := Layout.index_from_index3 (Vec3i x y z) size in
  v ← vector_at data idx;
  vector_set data idx (flip v).

(** [for (int z = z1; z < z2; ++z)] *)
Definition flip_span (size : vec3i) (x y z1 z2 : Z) (data : list Z) : outcome (list Z) :=
  for_loop (Z.to_nat (z2 - z1)) (fun z => int_add z 1) z1 z2 (flip_body size x y) data.

(** The body of the loop on [k]. *)
Definition pair_body (size : vec3i) (origin_z spacing : double) (x y : Z)
    (inter : list double) (k : Z) (data : list Z) : outcome (list Z) :=
  lo ← vector_at inter (k - 1);
  hi ← vector_at inter k;
  let z1 := zindex origin_z spacing (c2 size) lo in
  let z2 := zindex origin_z spacing (c2 size) hi in
  flip_span size x y z1 z2 data.

(** [for (size_t k = 1; k < inter.size(); k += 2)], on the sorted
    crossing heights [inter] of the column [(x, y)]. *)
Definition column_flips (size : vec3i) (origin_z spacing : double) (x y : Z)
    (inter : list double) (data : list Z) : outcome (list Z) :=
  for_loop (length inter) (fun k => k + 2) 1 (Z.of_nat (length inter))
    (pair_body size origin_z spacing x y inter) data.

(** [compute_sign]: the rows [y], which [GEO::parallel_for] hands to the
    threads, one after the other (two columns never write the same
    voxel), and in each row the columns [x]. [crossings x y] stands for
    the sorted heights at which the facets found by the AABB tree cross
    the vertical line through the centre of the column. *)
Definition compute_sign (crossings : Z -> Z -> list double) (voxels : VoxelGrid)
    : outcome (list Z) :=
  let size := grid_size voxels in
  for_loop (Z.to_nat (c1 size)) (fun y => int_add y 1) 0 (c1 size)
    (fun y data =>
       for_loop (Z.to_nat (c0 size)) (fun x => int_add x 1) 0 (c0 size)
         (fun x data =>
            column_flips size (m_origin voxels).2 (m_spacing voxels) x y
                         (crossings x y) data)
         data)
    (m_data voxels).

(** *** What the column loop is meant to do *)

(** The crossings taken two by two; a last one left alone is dropped. *)
Fixpoint pairs {A} (l : list A) : list (A * A) :=
  match l with
  | a :: b :: l' => (a, b) :: pairs l'
  | _ => []
  end.

(** How many spans contain the index [z]. *)
Definition toggles (spans : list (Z * Z)) (z : Z) : nat :=
  length (filter (fun p => p.1 <= z < p.2) spans).

(** The spans of z-indices of a list of crossing heights. *)
Definition spans_of (origin_z spacing : double) (nz : Z) (inter : list double)
    : list (Z * Z) :=
  map (fun p => (zindex origin_z spacing nz p.1, zindex origin_z spacing nz p.2))
      (pairs inter).

(** Running a body over a list of indices, in order. *)
Fixpoint run_over {S : Type} (body : Z -> S -> outcome S) (l : list Z) (s : S)
    : outcome S :=
  match l with
  | [] => Ok s
  | i :: l' => s' ← body i s; run_over body l' s'
  end.

(** The indices [lo], [lo + step], ... visited by [n] turns of a loop. *)
Fixpoint steps (lo step : Z) (n : nat) : list Z :=
  match n with
  | O => []
  | Datatypes.S n' => lo :: steps (lo + step) step n'
  end.

(** Flipping the voxels [z1 <= z < z2] of the column [(x, y)], in unbounded
    arithmetic. *)
Definition toggle_span (nx ny x y z1 z2 : Z) (data : list Z) : list Z :=
  foldl (fun d z => alter flip (Z.to_nat (linear x y z nx ny)) d) data
        (steps z1 1 (Z.to_nat (z2 - z1))).

(** One span after the other. *)
Definition toggle_spans (nx ny x y : Z) (spans : list (Z * Z)) (data : list Z)
    : list Z :=
  foldl (fun d p => toggle_span nx ny x y p.1 p.2 d) data spans.

(** The column loop, written on the pairs of crossings. *)
Fixpoint run_pairs (size : vec3i) (origin_z spacing : double) (x y : Z)
    (ps : list (double * double)) (data : list Z) : outcome (list Z) :=
  match ps with
  | [] => Ok data
  | p :: ps' =>
      d ← flip_span size x y (zindex origin_z spacing (c2 size) p.1)
                             (zindex origin_z spacing (c2 size) p.2) data;
      run_pairs size origin_z spacing x y ps' d
  end.

(** ** [triangle_mesh_dump]: the triangle list *)

(** The offsets of the eight corners of a cell, in the order of
    [corners[0]] to [corners[7]]. *)
Definition corner_offsets : list vec3i :=
  [Vec3i 0 0 0; Vec3i 1 0 0; Vec3i 1 1 0; Vec3i 0 1 0;
   Vec3i 0 0 1; Vec3i 1 0 1; Vec3i 1 1 1; Vec3i 0 1 1].

(** The [int] computed by [Layout::index_from_index3] is stored in a
    [GEO::index_t]. *)
Definition corners (pos node_size : vec3i) : list Z :=
  map (fun o => wrap_index (Layout.index_from_index3 (vadd pos o) node_size))
      corner_offsets.

Definition corner (cs : list Z) (v : nat) : Z := nth v cs 0.

(** The two triangles of a quad. *)
Definition quad (cs : list Z) (v1 v2 v3 v4 : nat) : list Z :=
  [corner cs v1; corner cs v2; corner cs v3] ++
  [corner cs v3; corner cs v2; corner cs v4].

(** The lambda [check_facet]. *)
Definition check_facet (voxels : VoxelGrid) (cell_size pos : vec3i) (cs : list Z)
    (axis delta : Z) (v1 v2 v3 v4 : nat) (triangles : list Z) : outcome (list Z) :=
  let neigh := vset pos axis (int_add (vget pos axis) delta) in
  neigh_is_empty ←
    (if (vget neigh axis <? 0) || (vget cell_size axis <=? vget neigh axis)
     then Ok true
     else
       let neigh_idx := Layout.index_from_index3 neigh (m_grid_size voxels) in
       v ← vector_at (m_data voxels) neigh_idx;
       Ok (v =? 0));
  if neigh_is_empty : bool
  then Ok (triangles ++ quad cs v1 v2 v3 v4)
  else Ok triangles.

(** The body of the loop on [idx]. *)
Definition emit_voxel (voxels : VoxelGrid) (idx : Z) (triangles : list Z)
    : outcome (list Z) :=
  let cell_size := grid_size voxels in
  let node_size := vadd cell_size (Vec3i 1 1 1) in
  pos ← Layout.index3_from_index idx (m_grid_size voxels);
  v ← vector_at (m_data voxels) idx;
  if v =? 0 then Ok triangles
  else
    let cs := corners pos node_size in
    t ← check_facet voxels cell_size pos cs 0 (-1) 0 4 3 7 triangles;
    t ← check_facet voxels cell_size pos cs 0 1 2 6 1 5 t;
    t ← check_facet voxels cell_size pos cs 1 (-1) 1 5 0 4 t;
    t ← check_facet voxels cell_size pos cs 1 1 3 7 2 6 t;
    t ← check_facet voxels cell_size pos cs 2 (-1) 0 1 3 2 t;
    check_facet voxels cell_size pos cs 2 1 4 5 7 6 t.

(** [for (int idx = 0; idx < num_cells; ++idx)] *)
Definition emit_triangles (voxels : VoxelGrid) : outcome (list Z) :=
  let num_cells := num_voxels voxels in
  for_loop (Z.to_nat num_cells) (fun idx => int_add idx 1) 0 num_cells
    (emit_voxel voxels) [].

(** *** What the triangle list is meant to be *)

(** The six calls of [check_facet]: axis, delta, and the four corners of
    the quad. *)
Record facet : Type := Facet {
  f_axis : Z; f_delta : Z;
  f_v1 : nat; f_v2 : nat; f_v3 : nat; f_v4 : nat
}.

Definition facet_table : list facet :=
  [Facet 0 (-1) 0 4 3 7; Facet 0 1 2 6 1 5;
   Facet 1 (-1) 1 5 0 4; Facet 1 1 3 7 2 6;
   Facet 2 (-1) 0 1 3 2; Facet 2 1 4 5 7 6].

(** The occupancy of the cell [(x, y, z)], in unbounded arithmetic; a cell
    outside the grid has none. *)
Definition occupancy (voxels : VoxelGrid) (p : vec3i) : option Z :=
  let size := m_grid_size voxels in
  if (0 <=? c0 p) && (c0 p <? c0 size) && (0 <=? c1 p) && (c1 p <? c1 size)
     && (0 <=? c2 p) && (c2 p <? c2 size)
  then m_data voxels !! Z.to_nat (linear (c0 p) (c1 p) (c2 p) (c0 size) (c1 size))
  else None.

(** The neighbour of [p] along [axis] is outside the grid or has
    occupancy [0]. *)
Definition neighbor_empty (voxels : VoxelGrid) (p : vec3i) (axis delta : Z) : bool :=
  match occupancy voxels (vset p axis (vget p axis + delta)) with
  | Some v => v =? 0
  | None => true
  end.

(** The cell of a linear index, in unbounded arithmetic. *)
Definition cell_of (size : vec3i) (idx : Z) : vec3i :=
  Vec3i (idx mod c0 size) ((idx / c0 size) mod c1 size) (idx / c0 size / c1 size).

(** The facets of the cell [p]. *)
Definition voxel_facets (voxels : VoxelGrid) (p : vec3i) : list Z :=
  match occupancy voxels p with
  | Some v =>
      if v =? 0 then []
      else
        let cs := corners p (vadd (m_grid_size voxels) (Vec3i 1 1 1)) in
        flat_map (fun d : facet =>
                    if neighbor_empty voxels p (f_axis d) (f_delta d)
                    then quad cs (f_v1 d) (f_v2 d) (f_v3 d) (f_v4 d) else [])
                 facet_table
  | None => []
  end.

(** ** [triangle_mesh_dump]: the vertex ids *)

(** The body of [for (GEO::index_t &c : triangles)], on the rest of the
    list; the result is the remapped rest with the final [node_id] and
    [num_vertices]. *)
Fixpoint assign_ids (triangles : list Z) (node_id : list Z) (num_vertices : Z)
    : outcome (list Z * list Z * Z) :=
  match triangles with
  | [] => Ok ([], node_id, num_vertices)
  | c :: rest =>
      id ← vector_at node_id c;
      st ← (if id =? -1
            then nid ← vector_set node_id c num_vertices;
                 Ok (nid, int_add num_vertices 1)
            else Ok (node_id, num_vertices));
      c' ← vector_at st.1 c;
      r ← assign_ids rest st.1 st.2;
      Ok (wrap_index c' :: r.1.1, r.1.2, r.2)
  end.

(** [std::vector<int> node_id(num_nodes, -1)] and the loop. *)
Definition assign_vertex_ids (num_nodes : Z) (triangles : list Z)
    : outcome (list Z * list Z * Z) :=
  assign_ids triangles (replicate (Z.to_nat num_nodes) (-1)) 0.

(** The body of the loop that places the vertices:
    [M.vertices.point(node_id[v]) = GEO::vec3(pos)]. The lattice position
    is kept in integers; its conversion to [double] is exact. *)
Definition place_vertex (node_size : vec3i) (node_id : list Z) (v : Z)
    (points : list vec3i) : outcome (list vec3i) :=
  id ← vector_at node_id v;
  if negb (id =? -1)
  then pos ← Layout.index3_from_index v node_size;
       vector_set points id pos
  else Ok points.

(** [M.vertices.create_vertices(num_vertices)] and
    [for (int v = 0; v < num_nodes; ++v)]. *)
Definition create_points (num_nodes : Z) (node_size : vec3i) (node_id : list Z)
    (num_vertices : Z) : outcome (list vec3i) :=
  for_loop (Z.to_nat num_nodes) (fun v => int_add v 1) 0 num_nodes
    (place_vertex node_size node_id)
    (replicate (Z.to_nat num_vertices) (Vec3i 0 0 0)).

(** *** What the vertex ids are meant to be *)

(** The corners of a triangle list in the order in which they are first
    met. *)
Fixpoint first_seen_from (seen : list Z) (l : list Z) : list Z :=
  match l with
  | [] => seen
  | c :: l' =>
      if bool_decide (c ∈ seen) then first_seen_from seen l'
      else first_seen_from (seen ++ [c]) l'
  end.

Definition first_seen (l : list Z) : list Z := first_seen_from [] l.

(** ** Saving: [endswith], the choice of the writer, [paraview_dump] *)

Definition endswith (str ending : string) : bool :=
  if (String.length ending <=? String.length str)%nat
  then String.eqb (substring (String.length str - String.length ending)
                             (String.length ending) str) ending
  else false.

(** The list [extensions] is the one that
    [GEO::MeshIOHandlerFactory::list_creators] fills in. *)
Definition filename_has_supported_extension (extensions : list string)
    (filename : string) : bool :=
  existsb (endswith filename) extensions.

Inductive writer : Type := TriangleMeshDump | ParaviewDump.

(** The choice made in [main]. *)
Definition choose_writer (extensions : list string) (filename : string) : writer :=
  if filename_has_supported_extension extensions filename
  then TriangleMeshDump else ParaviewDump.

(** [out << n] for an [int]. *)
Definition print_int (n : Z) : string := NilZero.string_of_int (Z.to_int n).

Definition newline : string := String (ascii_of_nat 10) EmptyString.

(** The two files that [paraview_dump] writes. *)
Record volume_files : Type := {
  mhd_name : string;
  mhd_text : string;
  raw_name : string;
  raw_bytes : list Z
}.

(** [rawfile.write] reads [num_voxels() * sizeof(num_t)] bytes from the
    buffer; reading past the end of the buffer has no defined behaviour. *)
Definition paraview_dump (basename : string) (voxels : VoxelGrid)
    : outcome volume_files :=
  let size := grid_size voxels in
  let text :=
    ("ObjectType = Image" ++ newline ++ "NDims = 3" ++ newline
     ++ "DimSize = " ++ print_int (c0 size) ++ " " ++ print_int (c1 size)
     ++ " " ++ print_int (c2 size) ++ newline
     ++ ("ElementType = MET_CHAR" ++ newline ++ "ElementDataFile = "
         ++ basename ++ ".raw" ++ newline))%string in
  let count := num_voxels voxels * 1 in
  if (0 <=? count) && (count <=? Z.of_nat (length (m_data voxels)))
  then Ok {| mhd_name := (basename ++ ".mhd")%string;
             mhd_text := text;
             raw_name := (basename ++ ".raw")%string;
             raw_bytes := take (Z.to_nat count) (m_data voxels) |}
  else Undefined.

(** ** Reading aids for the floating-point proofs *)

(** The smallest exponent of binary64, [-1074]. *)
Definition emin_d : Z := emin prec emax.

(** Sign class of a value: what the comparisons with [0] observe. *)
Inductive fclass : Type := CNeg | CZero | CPos | CNan.

Definition cls (x : double) : fclass :=
  match x with
  | S754_zero _ => CZero
  | S754_nan => CNan
  | S754_infinity s | S754_finite s _ _ => if s then CNeg else CPos
  end.

(** Every finite value produced by the arithmetic has an exponent of at
    least [emin_d]. *)
Definition exp_ok (x : double) : Prop :=
  match x with
  | S754_finite _ _ e => emin_d <= e
  | _ => True
  end.

(** The result of a rounding carries the sign it was given, and a
    finite result has an exponent of at least [emin_d]. *)
Definition rounded (s : bool) (r : double) : Prop :=
  match r with
  | S754_zero s' | S754_infinity s' => s' = s
  | S754_finite s' _ e => s' = s /\ emin_d <= e
  | S754_nan => True
  end.

(** An order-preserving key of a value that is not NaN: class, then
    exponent, then mantissa. *)
Definition fkey (x : double) : Z * Z * Z :=
  match x with
  | S754_zero _ | S754_nan => (0, 0, 0)
  | S754_infinity s => (if s then -2 else 2, 0, 0)
  | S754_finite s m e => if s then (-1, - e, - Zpos m) else (1, e, Zpos m)
  end.

Definition klt (a b : Z * Z * Z) : Prop :=
  a.1.1 < b.1.1 \/
  (a.1.1 = b.1.1 /\ (a.1.2 < b.1.2 \/ (a.1.2 = b.1.2 /\ a.2 < b.2))).

Definition kcompare (a b : Z * Z * Z) : comparison :=
  match a.1.1 ?= b.1.1 with
  | Eq => match a.1.2 ?= b.1.2 with
          | Eq => a.2 ?= b.2
          | c => c
          end
  | c => c
  end.

(** The symbolic-perturbation fallback of [orientation], on its own. *)
Definition sos_sign (x1 y1 x2 y2 : double) : Z :=
  if dgt y2 y1 then 1
  else if dlt y2 y1 then -1
  else if dgt x1 x2 then 1
  else if dlt x1 x2 then -1
  else 0.

(** The order that the fallback of [orientation] decides by: first the
    second coordinate, then the first one, reversed. *)
Definition sos_lt (x1 y1 x2 y2 : double) : Prop :=
  klt (fkey y1) (fkey y2) \/ (fkey y1 = fkey y2 /\ klt (fkey x2) (fkey x1)).

Definition area (x1 y1 x2 y2 : double) : double :=
  dsub (dmul y1 x2) (dmul x1 y2).

(** The sign class of a sum of two values whose signs do not oppose. *)
Definition cls_add (a b : fclass) : fclass :=
  match a, b with
  | CNan, _ | _, CNan => CNan
  | CZero, c | c, CZero => c
  | CPos, CPos => CPos
  | CNeg, CNeg => CNeg
  | _, _ => CNan
  end.

Definition opposed (a b : fclass) : bool :=
  match a, b with
  | CPos, CNeg | CNeg, CPos => true
  | _, _ => false
  end.

(** A value that compares neither above nor below zero. *)
Definition null_sign (a : double) : bool :=
  match cls a with
  | CZero | CNan => true
  | _ => false
  end.

(** The state of the vertex ids after the corners [seen] have been met,
    in that order, on a lattice of [num_nodes] nodes. *)
Definition ids_of (num_nodes : Z) (seen node_id : list Z) : Prop :=
  Z.of_nat (length node_id) = num_nodes /\
  NoDup seen /\
  (forall c, c ∈ seen -> 0 <= c < num_nodes) /\
  (forall (i : nat) c, seen !! i = Some c ->
     node_id !! Z.to_nat c = Some (Z.of_nat i)) /\
  (forall c, 0 <= c < num_nodes -> c ∉ seen -> node_id !! Z.to_nat c = Some (-1)).

(** The reference [c'] stands for the corner [c]: it is the place of [c]
    in the order. *)
Definition remapped (order : list Z) (c c' : Z) : Prop :=
  exists i : nat, order !! i = Some c /\ c' = Z.of_nat i.

(** Every voxel holds [0] or [1]. *)
Definition binary (data : list Z) : Prop := Forall (fun v => v = 0 \/ v = 1) data.

(** ** [intersect_ray_z] *)

Definition vec3 : Type := double * double * double.

Definition vx (p : vec3) : double := p.1.1.
Definition vy (p : vec3) : double := p.1.2.
Definition vz (p : vec3) : double := p.2.

(** [p1], [p2], [p3] are the three vertices of the facet [f] of the mesh;
    [uvw] are the locals [u], [v], [w] as they are when the test is
    called (they are not initialised). The height [z] is written only
    when the test succeeds. *)
Definition intersect_ray_z (p1 p2 p3 q : vec3) (uvw : double * double * double)
    : outcome (option double) :=
  r ← point_in_triangle_2d (vx q) (vy q) (vx p1) (vy p1) (vx p2) (vy p2)
                            (vx p3) (vy p3) uvw;
  if r.1 : bool
  then let '(u, v, w) := r.2 in
       Ok (Some (dadd (dadd (dmul u (vz p1)) (dmul v (vz p2))) (dmul w (vz p3))))
  else Ok None.

(** A crossing was found. *)
Definition crossing_found (o : outcome (option double)) : bool :=
  match o with
  | Ok (Some _) => true
  | _ => false
  end.

Definition returned {A} (o : outcome A) : bool :=
  match o with
  | Ok _ => true
  | _ => false
  end.

(** *** Reading aids *)

(** The three signs are not zero and agree: the test that
    [point_in_triangle_2d] makes step by step, on the translated
    coordinates. *)
Definition hit_test (x1 y1 x2 y2 x3 y3 : double) : bool :=
  negb ((orientation x2 y2 x3 y3).1 =? 0)
  && ((orientation x3 y3 x1 y1).1 =? (orientation x2 y2 x3 y3).1)
  && ((orientation x1 y1 x2 y2).1 =? (orientation x2 y2 x3 y3).1).

Definition opp_cls (c : fclass) : fclass :=
  match c with
  | CNeg => CPos
  | CPos => CNeg
  | c => c
  end.

(** Two values that [==] holds of, or two NaN. *)
Definition alike (a b : double) : bool := (is_nan a && is_nan b) || deq a b.

(** ** [triangle_mesh_dump]: the mesh handed to [M.facets.connect] *)

(** The vertices and the triangle list as they are after
    [assign_triangle_mesh], before the mesh is connected and rescaled.
    The vertices are kept as lattice positions. *)
Definition triangle_mesh (voxels : VoxelGrid) : outcome (list vec3i * list Z) :=
  let cell_size := grid_size voxels in
  let node_size := vadd cell_size (Vec3i 1 1 1) in
  let num_nodes := int_mul (int_mul (c0 node_size) (c1 node_size)) (c2 node_size) in
  triangles ← emit_triangles voxels;
  r ← assign_vertex_ids num_nodes triangles;
  points ← create_points num_nodes node_size r.1.2 r.2;
  Ok (points, r.1.1).

(** *** Reading aids *)

(** The list is made of triangles, three references each, and no triangle
    names a vertex twice. *)
Fixpoint proper (l : list Z) : Prop :=
  match l with
  | [] => True
  | a :: b :: c :: l' => a <> b /\ b <> c /\ a <> c /\ proper l'
  | _ => False
  end.

(** ** The sweep, row by row *)

(** The body of [GEO::parallel_for] in [compute_sign]: the loop on [x] of
    the row [y]. *)
Definition sweep_row (crossings : Z -> Z -> list double) (voxels : VoxelGrid)
    (y : Z) (data : list Z) : outcome (list Z) :=
  let size := grid_size voxels in
  for_loop (Z.to_nat (c0 size)) (fun x => int_add x 1) 0 (c0 size)
    (fun x data =>
       column_flips size (m_origin voxels).2 (m_spacing voxels) x y
                    (crossings x y) data)
    data.

(** *** Reading aids *)

(** How many of the spans of the column [(x, y)] contain the index [z]. *)
Definition crossed (crossings : Z -> Z -> list double) (voxels : VoxelGrid)
    (x y z : Z) : nat :=
  toggles (spans_of (m_origin voxels).2 (m_spacing voxels)
                    (c2 (m_grid_size voxels)) (crossings x y)) z.

(** [data] is [data0] with the voxel [(x, y, z)] flipped [count x y z]
    times in the columns that [q] holds of, and left alone in the others. *)
Definition flipped_where (q : Z -> Z -> bool) (nx ny nz : Z)
    (count : Z -> Z -> Z -> nat) (data0 data : list Z) : Prop :=
  length data = length data0 /\
  forall x y z, 0 <= x < nx -> 0 <= y < ny -> 0 <= z < nz ->
    data !! Z.to_nat (linear x y z nx ny)
    = (if q x y then Nat.iter (count x y z) flip else id)
        <$> data0 !! Z.to_nat (linear x y z nx ny).

(** ** [triangle_mesh_dump]: the rescale *)

(** [std::min] and [std::max] on [double]: the first argument unless the
    comparison picks the second. *)
Definition dmin (a b : double) : double := if dlt b a then b else a.
Definition dmax (a b : double) : double := if dlt a b then b else a.

(** [GEO::vec3(pos)]: each [int] component converted to [double]. *)
Definition vec3_of (q : vec3i) : vec3 :=
  (double_of_int (c0 q), double_of_int (c1 q), double_of_int (c2 q)).

(** [GEO::Numeric::max_float64()], the largest finite [double]. *)
Definition max_float64 : double := S754_finite false 9007199254740991 971.

(** [GEO::get_bbox] is Geogram's. It starts from [max_float64] for the
    minimum corner and from its opposite for the maximum corner, and
    takes, for each vertex and each coordinate, [std::min] with the
    minimum so far and [std::max] with the maximum so far. *)
Definition bbox_step (b : vec3 * vec3) (p : vec3) : vec3 * vec3 :=
  ((dmin (vx b.1) (vx p), dmin (vy b.1) (vy p), dmin (vz b.1) (vz p)),
   (dmax (vx b.2) (vx p), dmax (vy b.2) (vy p), dmax (vz b.2) (vz p))).

Definition get_bbox (pts : list vec3) : vec3 * vec3 :=
  foldl bbox_step
        ((max_float64, max_float64, max_float64),
         (SFopp max_float64, SFopp max_float64, SFopp max_float64)) pts.

(** The last loop of [triangle_mesh_dump]. The operators of [GEO::vec3]
    work coordinate by coordinate, one operation of [double] each:
    [extent = max_corner - min_corner], and
    [point(v) = (point(v) - min_corner) / scaling]. *)
Definition rescale (pts : list vec3) : list vec3 :=
  let '(min_corner, max_corner) := get_bbox pts in
  let extent := (dsub (vx max_corner) (vx min_corner),
                 dsub (vy max_corner) (vy min_corner),
                 dsub (vz max_corner) (vz min_corner)) in
  let scaling := dmax (vx extent) (dmax (vy extent) (vz extent)) in
  map (fun p => (ddiv (dsub (vx p) (vx min_corner)) scaling,
                 ddiv (dsub (vy p) (vy min_corner)) scaling,
                 ddiv (dsub (vz p) (vz min_corner)) scaling)) pts.

(** The mesh that [triangle_mesh_dump] hands to [GEO::mesh_save]: the
    vertices of [triangle_mesh] as points of [double], rescaled, and the
    triangle list. *)
Definition triangle_mesh_dump (voxels : VoxelGrid) : outcome (list vec3 * list Z) :=
  m ← triangle_mesh voxels;
  Ok (rescale (map vec3_of m.1), m.2).

(** *** What the rescale is meant to do *)

(** [lo] is the least and [hi] the greatest member of a list. *)
Definition least (lo : Z) (l : list Z) : Prop :=
  lo ∈ l /\ Forall (fun c => lo <= c) l.
Definition greatest (hi : Z) (l : list Z) : Prop :=
  hi ∈ l /\ Forall (fun c => c <= hi) l.

(** [lo] and [hi] are the minimum and the maximum corner of the bounding
    box of the lattice points [pts]. *)
Definition bounding_box (lo hi : vec3i) (pts : list vec3i) : Prop :=
  least (c0 lo) (map c0 pts) /\ greatest (c0 hi) (map c0 pts) /\
  least (c1 lo) (map c1 pts) /\ greatest (c1 hi) (map c1 pts) /\
  least (c2 lo) (map c2 pts) /\ greatest (c2 hi) (map c2 pts).

(** [c] is a number of the interval from 0 to 1. *)
Definition in_unit (c : double) : Prop :=
  is_nan c = false /\ dlt c dzero = false /\ dlt (double_of_int 1) c = false.

(** Over the points [out], the coordinate [f] takes the value [lo], takes
    the value [hi], and takes no value below [lo] or above [hi]. *)
Definition ranges_over (f : vec3 -> double) (out : list vec3) (lo hi : double)
    : Prop :=
  (exists p, p ∈ out /\ f p = lo) /\ (exists p, p ∈ out /\ f p = hi) /\
  Forall (fun p => is_nan (f p) = false /\ dlt (f p) lo = false /\
                   dlt hi (f p) = false) out.

(** The value of a finite [double] as a fraction [n / d], with [d] a
    power of two. *)
Definition fraction_of (c : double) : option (Z * Z) :=
  match c with
  | S754_zero _ => Some (0, 1)
  | S754_finite s m e =>
      Some ((if s then - Z.pos m else Z.pos m) * 2 ^ Z.max e 0, 2 ^ Z.max (- e) 0)
  | _ => None
  end.

(** [c] is the quotient [a / s] up to one rounding of [double]: with
    [c = n / d], [|n / d - a / s| <= 2^-53 * (a / s)]. *)
Definition near_quotient (c : double) (a s : Z) : Prop :=
  exists n d, fraction_of c = Some (n, d) /\ 0 < d /\
    2 ^ 53 * Z.abs (n * s - a * d) <= a * d.

(** The ratio of [c] to [c'] is the ratio of [a] to [a'] up to the
    roundings: [|c * a' - c' * a| <= 2^-51 * (c' * a)], that is,
    [|c / c' - a / a'| <= 2^-51 * (a / a')] where [c'] and [a'] are not
    zero. *)
Definition ratio_kept (c c' : double) (a a' : Z) : Prop :=
  exists n d n' d', fraction_of c = Some (n, d) /\ fraction_of c' = Some (n', d') /\
    2 ^ 51 * Z.abs (n * d' * a' - n' * d * a) <= a * (n' * d).

(** The points [out] are the lattice points [pts], whose bounding box has
    the corners [lo] and [hi], moved by [- lo] and divided by the largest
    extent [s] of the box, each coordinate up to one rounding; they lie
    in the unit cube; on each axis the least coordinate is [0] and the
    greatest is [mx], [my], [mz], of which one at least is [1]; and these
    new extents are to each other as the extents of the box. *)
Definition unit_box (pts : list vec3i) (lo hi : vec3i) (out : list vec3) : Prop :=
  let ex := c0 hi - c0 lo in
  let ey := c1 hi - c1 lo in
  let ez := c2 hi - c2 lo in
  let s := Z.max ex (Z.max ey ez) in
  Forall2 (fun q p => near_quotient (vx p) (c0 q - c0 lo) s /\
                      near_quotient (vy p) (c1 q - c1 lo) s /\
                      near_quotient (vz p) (c2 q - c2 lo) s) pts out /\
  Forall (fun p => in_unit (vx p) /\ in_unit (vy p) /\ in_unit (vz p)) out /\
  exists mx my mz,
    ranges_over vx out dzero mx /\
    ranges_over vy out dzero my /\
    ranges_over vz out dzero mz /\
    (mx = double_of_int 1 \/ my = double_of_int 1 \/ mz = double_of_int 1) /\
    ratio_kept mx my ex ey /\ ratio_kept my mz ey ez /\ ratio_kept mx mz ex ez.

(** *** Reading aids *)

(** The lattice points whose coordinates are not negative and fit an
    [int]. *)
Definition lattice (q : vec3i) : Prop :=
  0 <= c0 q <= int_max /\ 0 <= c1 q <= int_max /\ 0 <= c2 q <= int_max.

Definition vmin (a b : vec3i) : vec3i :=
  Vec3i (Z.min (c0 a) (c0 b)) (Z.min (c1 a) (c1 b)) (Z.min (c2 a) (c2 b)).
Definition vmax (a b : vec3i) : vec3i :=
  Vec3i (Z.max (c0 a) (c0 b)) (Z.max (c1 a) (c1 b)) (Z.max (c2 a) (c2 b)).

(** The rescaled point of the lattice point [q]. *)
Definition image (lo : vec3i) (s : Z) (q : vec3i) : vec3 :=
  (ddiv (double_of_int (c0 q - c0 lo)) (double_of_int s),
   ddiv (double_of_int (c1 q - c1 lo)) (double_of_int s),
   ddiv (double_of_int (c2 q - c2 lo)) (double_of_int s)).

(** The [double] of mantissa [M] and exponent [E], where the mantissa may
    have been rounded up to [2^53]. *)
Definition pnorm (M E : Z) : double :=
  if M =? 2 ^ 53 then S754_finite false (Z.to_pos (2 ^ 52)) (E + 1)
  else S754_finite false (Z.to_pos M) E.

(** ** [round], as the spec words it *)


(** ** The facets of a voxel, as the spec words them *)

(** The six neighbour directions, axis and step, in the order of the
    calls of [check_facet]. *)
Definition directions : list (Z * Z) :=
  [(0, -1); (0, 1); (1, -1); (1, 1); (2, -1); (2, 1)].

(** The index of the node [q] in the lattice of the corners of the cells,
    which has one node more than the grid has cells along each axis. *)
Definition node_index (size q : vec3i) : Z :=
  linear (c0 q) (c1 q) (c2 q) (c0 size + 1) (c1 size + 1).

(** [q] is a corner of the cell [p], on the side of [p] that looks in the
    direction [delta] along [axis]: the face that [p] shares with its
    neighbour in that direction. *)
Definition on_shared_face (p : vec3i) (axis delta : Z) (q : vec3i) : Prop :=
  (c0 q = c0 p \/ c0 q = c0 p + 1) /\ (c1 q = c1 p \/ c1 q = c1 p + 1) /\
  (c2 q = c2 p \/ c2 q = c2 p + 1) /\
  vget q axis = vget p axis + (if delta <? 0 then 0 else 1).

(** [l] is the two triangles of the face that the cell [p] shares with its
    neighbour in the direction [delta] along [axis]: the triangles
    [(q1, q2, q3)] and [(q3, q2, q4)] on the four corners of that face,
    which meet along the diagonal from [q2] to [q3]; each corner is named
    by its node index. *)
Definition shared_face_quad (size p : vec3i) (axis delta : Z) (l : list Z) : Prop :=
  exists q1 q2 q3 q4 : vec3i,
    l = map (node_index size) [q1; q2; q3; q3; q2; q4] /\
    NoDup [q1; q2; q3; q4] /\
    Forall (on_shared_face p axis delta) [q1; q2; q3; q4] /\
    (c0 q1 + c0 q4 = c0 q2 + c0 q3 /\ c1 q1 + c1 q4 = c1 q2 + c1 q3 /\
     c2 q1 + c2 q4 = c2 q2 + c2 q3).

(** What the voxel [p] is to emit for the direction [d]: the two triangles
    of the shared face when the neighbour is outside the grid or has
    occupancy [0], nothing otherwise. *)
Definition emitted_for (voxels : VoxelGrid) (p : vec3i) (d : Z * Z) (l : list Z)
    : Prop :=
  if neighbor_empty voxels p d.1 d.2
  then shared_face_quad (m_grid_size voxels) p d.1 d.2 l
  else l = [].

(** *** Sample inputs *)

(** A 2 x 2 x 4 grid of zeros, of spacing 1/2, and crossings at the heights
    1/2 and 3/2 in the column [(1, 0)] only. *)
Definition grid_2_2_4 : VoxelGrid :=
  {| m_data := replicate 16 0;
     m_origin := (double_of_int 0, double_of_int 0, double_of_int 0);
     m_spacing := ddiv (double_of_int 1) (double_of_int 2);
     m_grid_size := Vec3i 2 2 4 |}.

Definition crossings_1_0 (x y : Z) : list double :=
  if (x =? 1) && (y =? 0)
  then [ddiv (double_of_int 1) (double_of_int 2);
        ddiv (double_of_int 3) (double_of_int 2)]
  else [].

(** A 3 x 1 x 1 grid whose first two voxels are occupied. *)
Definition grid_3_1_1 : VoxelGrid :=
  {| m_data := [1; 1; 0];
     m_origin := (double_of_int 0, double_of_int 0, double_of_int 0);
     m_spacing := double_of_int 1;
     m_grid_size := Vec3i 3 1 1 |}.

(** A 2 x 1 x 1 grid whose first voxel is occupied. *)
Definition grid_2_1_1 : VoxelGrid :=
  {| m_data := [1; 0];
     m_origin := (double_of_int 0, double_of_int 0, double_of_int 0);
     m_spacing := double_of_int 1;
     m_grid_size := Vec3i 2 1 1 |}.

(** A 3 x 1 x 1 grid whose three voxels are occupied. *)
Definition grid_3_1_1_solid : VoxelGrid :=
  {| m_data := [1; 1; 1];
     m_origin := (double_of_int 0, double_of_int 0, double_of_int 0);
     m_spacing := double_of_int 1;
     m_grid_size := Vec3i 3 1 1 |}.

(** * Proofs *)

Lemma bind_Ok {A B} (a : A) (f : A -> outcome B) : (Ok a ≫= f) = f a.
Proof. reflexivity. Qed.

(** ** Facts on machine integers *)

Lemma wrap_int_small z : in_int z -> wrap_int z = z.
Proof.
  unfold in_int, int_min, int_max, wrap_int. intros H.
  rewrite Z.mod_small by lia. lia.
Qed.

Lemma wrap_index_small z : 0 <= z < 2 ^ 32 -> wrap_index z = z.
Proof. intros H. unfold wrap_index. apply Z.mod_small. lia. Qed.

Lemma linear_lt x y z nx ny nz :
  0 <= x < nx -> 0 <= y < ny -> 0 <= z < nz ->
  0 <= linear x y z nx ny < nx * ny * nz.
Proof.
  unfold linear. intros Hx Hy Hz.
  assert (H1 : 0 <= z * ny + y <= nz * ny - 1) by nia.
  assert (H2 : (z * ny + y) * nx <= (nz * ny - 1) * nx) by nia.
  nia.
Qed.

Lemma index_from_index3_exact x y z nx ny nz :
  0 <= x < nx -> 0 <= y < ny -> 0 <= z < nz ->
  linear x y z nx ny <= int_max ->
  Layout.index_from_index3 (Vec3i x y z) (Vec3i nx ny nz) = linear x y z nx ny.
Proof.
  unfold linear, Layout.index_from_index3, int_add, int_mul. cbn [c0 c1 c2].
  intros Hx Hy Hz Hfit. unfold int_max in Hfit.
  assert (Hi : forall a, 0 <= a <= (z * ny + y) * nx + x -> wrap_int a = a).
  { intros a Ha. apply wrap_int_small. unfold in_int, int_min, int_max. lia. }
  assert (A : 0 <= z * ny) by nia.
  assert (B : z * ny + y <= (z * ny + y) * nx) by nia.
  rewrite (Hi (z * ny)) by lia.
  rewrite (Hi (z * ny + y)) by lia.
  rewrite (Hi ((z * ny + y) * nx)) by lia.
  apply Hi. lia.
Qed.

Lemma int_div_pos a b : 0 < b -> int_div a b = Ok (Z.quot a b).
Proof.
  intros Hb. unfold int_div.
  destruct (Z.eqb_spec b 0); [lia|]. destruct (Z.eqb_spec b (-1)); [lia|].
  now rewrite andb_false_r.
Qed.

Lemma int_rem_pos a b : 0 < b -> int_rem a b = Ok (Z.rem a b).
Proof.
  intros Hb. unfold int_rem.
  destruct (Z.eqb_spec b 0); [lia|]. destruct (Z.eqb_spec b (-1)); [lia|].
  now rewrite andb_false_r.
Qed.

Lemma index3_from_index_nonneg idx size :
  0 <= idx -> 0 < c0 size -> 0 < c1 size ->
  Layout.index3_from_index idx size = Ok (cell_of size idx).
Proof.
  intros Hidx H0 H1. unfold Layout.index3_from_index, cell_of.
  rewrite int_rem_pos, int_div_pos by assumption. cbn.
  rewrite int_rem_pos, int_div_pos by assumption. cbn.
  assert (Hq : 0 <= idx / c0 size) by (apply Z.div_pos; lia).
  rewrite !Z.rem_mod_nonneg, !Z.quot_div_nonneg by (rewrite ?Z.quot_div_nonneg; lia).
  reflexivity.
Qed.

Lemma cell_of_linear x y z nx ny nz :
  0 <= x < nx -> 0 <= y < ny -> 0 <= z < nz ->
  cell_of (Vec3i nx ny nz) (linear x y z nx ny) = Vec3i x y z.
Proof.
  intros Hx Hy Hz. unfold cell_of, linear. cbn [c0 c1 c2].
  assert (Hq : ((z * ny + y) * nx + x) / nx = z * ny + y).
  { rewrite Z.div_add_l by lia. rewrite Z.div_small by lia. lia. }
  rewrite Hq. f_equal.
  - rewrite Z.add_comm, Z.mod_add by lia. apply Z.mod_small. lia.
  - rewrite Z.add_comm, Z.mod_add by lia. apply Z.mod_small. lia.
  - rewrite Z.div_add_l by lia. rewrite Z.div_small by lia. lia.
Qed.

Lemma index3_from_index_exact x y z nx ny nz :
  0 <= x < nx -> 0 <= y < ny -> 0 <= z < nz ->
  Layout.index3_from_index (linear x y z nx ny) (Vec3i nx ny nz) = Ok (Vec3i x y z).
Proof.
  intros Hx Hy Hz.
  rewrite index3_from_index_nonneg; cbn [c0 c1]; try lia.
  - now rewrite cell_of_linear.
  - pose proof (linear_lt x y z nx ny nz Hx Hy Hz). lia.
Qed.

(** ** Facts on binary64 *)

Section Comparison.

Lemma SFcompare_key x y :
  is_nan x = false -> is_nan y = false ->
  SFcompare x y = Some (kcompare (fkey x) (fkey y)).
Proof.
  destruct x as [sx|sx| |sx mx ex], y as [sy|sy| |sy my ey]; cbn [is_nan];
    try discriminate; intros _ _;
    try (destruct sx; reflexivity); try (destruct sy; reflexivity);
    try (destruct sx, sy; reflexivity).
  destruct sx, sy; try reflexivity; unfold kcompare; cbn.
  rewrite Z.compare_opp, (Z.compare_antisym ex ey).
  change (- Z.pos mx ?= - Z.pos my) with (CompOpp (Pos.compare_cont Eq mx my)).
  destruct (ex ?= ey); reflexivity.
Qed.

Lemma kcompare_lt a b : kcompare a b = Lt <-> klt a b.
Proof.
  unfold kcompare, klt. destruct a as [[a1 a2] a3], b as [[b1 b2] b3]; cbn.
  destruct (Z.compare_spec a1 b1), (Z.compare_spec a2 b2), (Z.compare_spec a3 b3);
    split; intros Hk; try discriminate; try reflexivity; lia.
Qed.

Lemma kcompare_eq a b : kcompare a b = Eq <-> a = b.
Proof.
  unfold kcompare. destruct a as [[a1 a2] a3], b as [[b1 b2] b3]; cbn.
  destruct (Z.compare_spec a1 b1), (Z.compare_spec a2 b2), (Z.compare_spec a3 b3);
    split; intros Hk; try discriminate; try reflexivity;
    try (injection Hk; intros; lia); subst; reflexivity.
Qed.

Lemma dlt_key x y :
  is_nan x = false -> is_nan y = false ->
  (dlt x y = true <-> klt (fkey x) (fkey y)).
Proof.
  intros Hx Hy. unfold dlt, SFltb. rewrite (SFcompare_key x y Hx Hy).
  rewrite <- kcompare_lt. destruct (kcompare (fkey x) (fkey y)); split; congruence.
Qed.

Lemma deq_key x y :
  is_nan x = false -> is_nan y = false ->
  (deq x y = true <-> fkey x = fkey y).
Proof.
  intros Hx Hy. unfold deq, SFeqb. rewrite (SFcompare_key x y Hx Hy).
  rewrite <- kcompare_eq. destruct (kcompare (fkey x) (fkey y)); split; congruence.
Qed.

Lemma dgt_zero_cls a : dgt a dzero = true <-> cls a = CPos.
Proof.
  unfold dgt, dlt, dzero. destruct a as [s|s| |s m e]; cbn;
    try destruct s; split; congruence.
Qed.

Lemma dlt_zero_cls a : dlt a dzero = true <-> cls a = CNeg.
Proof.
  unfold dlt, dzero. destruct a as [s|s| |s m e]; cbn;
    try destruct s; split; congruence.
Qed.

Lemma dne_zero_cls a : dne a dzero = false <-> cls a = CZero.
Proof.
  unfold dne, deq, dzero, SFeqb. destruct a as [s|s| |s m e]; cbn;
    try destruct s; cbn; split; congruence.
Qed.

End Comparison.

Section Rounding.

Lemma emin_d_val : emin_d = -1074.
Proof. reflexivity. Qed.

Lemma fexp_val e : fexp prec emax e = Z.max (e - 53) (-1074).
Proof. reflexivity. Qed.

Lemma digits2_pos_le m : 2 ^ (Z.pos (digits2_pos m) - 1) <= Z.pos m.
Proof.
  induction m as [m IH|m IH|]; cbn [digits2_pos].
  - rewrite Pos2Z.inj_succ.
    replace (Z.succ (Z.pos (digits2_pos m)) - 1)
      with (Z.succ (Z.pos (digits2_pos m) - 1)) by lia.
    rewrite Z.pow_succ_r by lia. lia.
  - rewrite Pos2Z.inj_succ.
    replace (Z.succ (Z.pos (digits2_pos m)) - 1)
      with (Z.succ (Z.pos (digits2_pos m) - 1)) by lia.
    rewrite Z.pow_succ_r by lia. lia.
  - cbn. lia.
Qed.

Lemma shr_1_m r : 0 <= shr_m r -> shr_m (shr_1 r) = shr_m r / 2.
Proof.
  destruct r as [m rb sb]. cbn [shr_m]. intros Hm.
  rewrite <- Z.div2_div.
  destruct m as [|[p|p|]|p]; try reflexivity. lia.
Qed.

Lemma shr_iter_m p : forall r,
  0 <= shr_m r -> shr_m (SpecFloat.iter_pos shr_1 p r) = shr_m r / 2 ^ Z.pos p.
Proof.
  induction p as [p IH|p IH|]; intros r Hr; cbn [SpecFloat.iter_pos].
  - assert (H1 : 0 <= shr_m (shr_1 r)).
    { rewrite shr_1_m by assumption. apply Z.div_pos; lia. }
    assert (H2 : 0 <= shr_m (SpecFloat.iter_pos shr_1 p (shr_1 r))).
    { rewrite IH by assumption. apply Z.div_pos; lia. }
    rewrite IH, IH, shr_1_m by assumption.
    rewrite !Z.div_div by lia.
    f_equal. rewrite (Pos2Z.inj_xI p).
    replace (2 * Z.pos p + 1) with (1 + Z.pos p + Z.pos p) by lia.
    rewrite !Z.pow_add_r, Z.pow_1_r by lia. lia.
  - assert (H2 : 0 <= shr_m (SpecFloat.iter_pos shr_1 p r)).
    { rewrite IH by assumption. apply Z.div_pos; lia. }
    rewrite IH, IH by assumption.
    rewrite !Z.div_div by lia.
    f_equal. rewrite (Pos2Z.inj_xO p).
    replace (2 * Z.pos p) with (Z.pos p + Z.pos p) by lia.
    rewrite Z.pow_add_r by lia. reflexivity.
  - rewrite shr_1_m by assumption. reflexivity.
Qed.

Lemma shr_record_of_loc_m m l : shr_m (shr_record_of_loc m l) = m.
Proof. destruct l as [|[]]; reflexivity. Qed.

(** The exponent after a shift is never below [emin_d]. *)
Lemma shr_fexp_exp mz e l : emin_d <= (shr_fexp prec emax mz e l).2.
Proof.
  unfold shr_fexp, shr. rewrite fexp_val, emin_d_val.
  destruct (Z.max (Zdigits2 mz + e - 53) (-1074) - e) eqn:En; cbn [snd]; lia.
Qed.

(** A positive mantissa at an exponent of at least [emin_d] is never
    shifted away entirely. *)
Lemma shr_fexp_pos m e l :
  emin_d <= e -> 0 < shr_m (shr_fexp prec emax (Z.pos m) e l).1.
Proof.
  rewrite emin_d_val. intros He. unfold shr_fexp, shr. rewrite fexp_val.
  cbn [Zdigits2].
  destruct (Z.max (Z.pos (digits2_pos m) + e - 53) (-1074) - e) as [|p|p] eqn:En;
    cbn [fst]; try (rewrite shr_record_of_loc_m; lia).
  rewrite shr_iter_m by (rewrite shr_record_of_loc_m; lia).
  rewrite shr_record_of_loc_m.
  pose proof (digits2_pos_le m) as Hd.
  assert (Hp : Z.pos p <= Z.pos (digits2_pos m) - 1) by lia.
  assert (H2 : 2 ^ Z.pos p <= 2 ^ (Z.pos (digits2_pos m) - 1))
    by (apply Z.pow_le_mono_r; lia).
  assert (H3 : 0 < 2 ^ Z.pos p) by (apply Z.pow_pos_nonneg; lia).
  apply Z.div_str_pos. lia.
Qed.

Lemma round_nearest_even_ge m l : m <= round_nearest_even m l.
Proof. destruct l as [|[]]; cbn; try lia. destruct (Z.even m); lia. Qed.

Lemma binary_round_aux_rounded s mz e l :
  rounded s (binary_round_aux prec emax s mz e l).
Proof.
  unfold binary_round_aux.
  destruct (shr_fexp prec emax mz e l) as [mrs' e'] eqn:E1.
  pose proof (shr_fexp_exp
    (round_nearest_even (shr_m mrs') (loc_of_shr_record mrs')) e' loc_Exact) as He.
  destruct (shr_fexp prec emax _ e' loc_Exact) as [mrs'' e''] eqn:E2.
  cbn [snd] in He.
  destruct (shr_m mrs'') as [|m|m]; cbn; try reflexivity.
  destruct (e'' <=? emax - prec); cbn; auto.
Qed.

(** Rounding a positive mantissa at an exponent of at least [emin_d]
    never gives zero or NaN. *)
Lemma binary_round_aux_nonzero s m e l :
  emin_d <= e ->
  cls (binary_round_aux prec emax s (Z.pos m) e l) = if s then CNeg else CPos.
Proof.
  intros He. unfold binary_round_aux.
  pose proof (shr_fexp_pos m e l He) as Hp.
  pose proof (shr_fexp_exp (Z.pos m) e l) as He'.
  destruct (shr_fexp prec emax (Z.pos m) e l) as [mrs' e'] eqn:E1.
  cbn [fst snd] in Hp, He'.
  pose proof (round_nearest_even_ge (shr_m mrs') (loc_of_shr_record mrs')) as Hr.
  destruct (round_nearest_even (shr_m mrs') (loc_of_shr_record mrs'))
    as [|m1|m1] eqn:E3; try lia.
  pose proof (shr_fexp_pos m1 e' loc_Exact He') as Hp2.
  destruct (shr_fexp prec emax (Z.pos m1) e' loc_Exact) as [mrs'' e''] eqn:E2.
  cbn [fst] in Hp2.
  destruct (shr_m mrs'') as [|m2|m2]; try lia.
  destruct (e'' <=? emax - prec); reflexivity.
Qed.

Lemma shl_align_exp m e e' :
  emin_d <= e -> emin_d <= e' -> emin_d <= (shl_align m e e').2.
Proof.
  intros He He'. unfold shl_align. destruct (e' - e); cbn [snd]; assumption.
Qed.

Lemma binary_round_rounded s m e : rounded s (binary_round prec emax s m e).
Proof.
  unfold binary_round. destruct (shl_align _ _ _) as [mz ez].
  apply binary_round_aux_rounded.
Qed.

Lemma binary_round_nonzero s m e :
  emin_d <= e ->
  cls (binary_round prec emax s m e) = if s then CNeg else CPos.
Proof.
  intros He. unfold binary_round.
  pose proof (shl_align_exp m e (fexp prec emax (Z.pos (digits2_pos m) + e)) He) as Ha.
  destruct (shl_align _ _ _) as [mz ez]. cbn [snd] in Ha.
  apply binary_round_aux_nonzero, Ha.
  rewrite fexp_val, emin_d_val. lia.
Qed.

Lemma rounded_exp_ok s r : rounded s r -> exp_ok r.
Proof. destruct r; cbn; tauto. Qed.

End Rounding.

Section Arithmetic.

Lemma dmul_exp_ok x y : exp_ok (dmul x y).
Proof.
  destruct x as [sx|sx| |sx mx ex], y as [sy|sy| |sy my ey]; try exact I.
  unfold dmul, SFmul.
  exact (rounded_exp_ok _ _ (binary_round_aux_rounded _ _ _ _)).
Qed.

Lemma binary_normalize_exp_ok m e sz : exp_ok (binary_normalize prec emax m e sz).
Proof.
  destruct m as [|m|m]; [exact I| |];
    exact (rounded_exp_ok _ _ (binary_round_rounded _ _ _)).
Qed.

Lemma dsub_exp_ok x y : exp_ok x -> exp_ok y -> exp_ok (dsub x y).
Proof.
  destruct x as [sx|sx| |sx mx ex], y as [sy|sy| |sy my ey]; intros Hx Hy;
    try exact I; try assumption;
    try (destruct sx, sy; exact I).
  unfold dsub, SFsub. apply binary_normalize_exp_ok.
Qed.

Lemma dadd_exp_ok x y : exp_ok x -> exp_ok y -> exp_ok (dadd x y).
Proof.
  destruct x as [sx|sx| |sx mx ex], y as [sy|sy| |sy my ey]; intros Hx Hy;
    try exact I; try assumption;
    try (destruct sx, sy; exact I).
  unfold dadd, SFadd. apply binary_normalize_exp_ok.
Qed.

Lemma area_exp_ok x1 y1 x2 y2 : exp_ok (area x1 y1 x2 y2).
Proof. apply dsub_exp_ok; apply dmul_exp_ok. Qed.

Lemma dadd_cls x y :
  exp_ok x -> exp_ok y -> opposed (cls x) (cls y) = false ->
  cls (dadd x y) = cls_add (cls x) (cls y).
Proof.
  destruct x as [sx|sx| |sx mx ex], y as [sy|sy| |sy my ey]; intros Hx Hy Ho;
    try reflexivity;
    try (destruct sx, sy; try discriminate Ho; reflexivity);
    try (destruct sx; reflexivity); try (destruct sy; reflexivity).
  cbn [exp_ok] in Hx, Hy. unfold dadd, SFadd.
  assert (Hz : emin_d <= Z.min ex ey) by lia.
  destruct sx, sy; try discriminate Ho; cbn [cls cls_add cond_Zopp].
  - change (- Z.pos ?a + - Z.pos ?b) with (Z.neg (a + b)).
    exact (binary_round_nonzero true _ _ Hz).
  - change (Z.pos ?a + Z.pos ?b) with (Z.pos (a + b)).
    exact (binary_round_nonzero false _ _ Hz).
Qed.

Lemma dsub_nan x y : is_nan x || is_nan y = true -> dsub x y = S754_nan.
Proof. destruct x, y; cbn; try discriminate; reflexivity. Qed.

(** A value of the area that is not NaN was computed from four values
    that are not NaN. *)
Lemma area_not_nan x1 y1 x2 y2 :
  is_nan (area x1 y1 x2 y2) = false ->
  is_nan x1 = false /\ is_nan y1 = false /\ is_nan x2 = false /\ is_nan y2 = false.
Proof.
  unfold area. intros H.
  destruct (is_nan x1) eqn:E1, (is_nan y1) eqn:E2, (is_nan x2) eqn:E3,
    (is_nan y2) eqn:E4; try tauto; exfalso;
    destruct x1, y1, x2, y2; try discriminate; cbn in H; try discriminate;
    rewrite ?dsub_nan in H by (cbn; rewrite ?orb_true_r; reflexivity);
    discriminate.
Qed.

End Arithmetic.

Section SymbolicPerturbation.

Lemma klt_irrefl_eq a b : ~ klt a b -> ~ klt b a -> a = b.
Proof.
  unfold klt. destruct a as [[a1 a2] a3], b as [[b1 b2] b3]; cbn.
  intros H1 H2. f_equal; [f_equal|]; lia.
Qed.

Lemma klt_asym a b : klt a b -> ~ klt b a.
Proof. unfold klt. destruct a as [[a1 a2] a3], b as [[b1 b2] b3]; cbn. lia. Qed.

Lemma klt_trans a b c : klt a b -> klt b c -> klt a c.
Proof.
  unfold klt. destruct a as [[a1 a2] a3], b as [[b1 b2] b3], c as [[c1 c2] c3].
  cbn. lia.
Qed.

Lemma dlt_reflect x y :
  is_nan x = false -> is_nan y = false ->
  (dlt x y = true /\ klt (fkey x) (fkey y)) \/
  (dlt x y = false /\ ~ klt (fkey x) (fkey y)).
Proof.
  intros Hx Hy. pose proof (dlt_key x y Hx Hy) as H.
  destruct (dlt x y); [left|right]; split; try reflexivity.
  - now apply H.
  - intros K. apply H in K. discriminate.
Qed.

Lemma sos_sign_cases x1 y1 x2 y2 :
  is_nan x1 = false -> is_nan y1 = false ->
  is_nan x2 = false -> is_nan y2 = false ->
  (sos_sign x1 y1 x2 y2 = 1 /\ sos_lt x1 y1 x2 y2) \/
  (sos_sign x1 y1 x2 y2 = -1 /\ sos_lt x2 y2 x1 y1) \/
  (sos_sign x1 y1 x2 y2 = 0 /\ fkey x1 = fkey x2 /\ fkey y1 = fkey y2).
Proof.
  intros Hx1 Hy1 Hx2 Hy2. unfold sos_sign, sos_lt, dgt.
  destruct (dlt_reflect y1 y2 Hy1 Hy2) as [[-> K1]|[-> K1]]; [tauto|].
  destruct (dlt_reflect y2 y1 Hy2 Hy1) as [[-> K2]|[-> K2]]; [tauto|].
  pose proof (klt_irrefl_eq _ _ K1 K2) as Ey.
  destruct (dlt_reflect x2 x1 Hx2 Hx1) as [[-> K3]|[-> K3]]; [tauto|].
  destruct (dlt_reflect x1 x2 Hx1 Hx2) as [[-> K4]|[-> K4]].
  - right; left. split; [reflexivity|]. right. split; [congruence|assumption].
  - pose proof (klt_irrefl_eq _ _ K4 K3) as Ex. auto.
Qed.

Lemma sos_lt_asym x1 y1 x2 y2 : sos_lt x1 y1 x2 y2 -> ~ sos_lt x2 y2 x1 y1.
Proof.
  unfold sos_lt. intros [H|[E H]] [H'|[E' H']].
  - exact (klt_asym _ _ H H').
  - rewrite E' in H. exact (klt_asym _ _ H H).
  - rewrite E in H'. exact (klt_asym _ _ H' H').
  - exact (klt_asym _ _ H H').
Qed.

Lemma sos_lt_trans x1 y1 x2 y2 x3 y3 :
  sos_lt x1 y1 x2 y2 -> sos_lt x2 y2 x3 y3 -> sos_lt x1 y1 x3 y3.
Proof.
  unfold sos_lt. intros [H|[E H]] [H'|[E' H']].
  - left. exact (klt_trans _ _ _ H H').
  - left. now rewrite <- E'.
  - left. now rewrite E.
  - right. split; [congruence|]. exact (klt_trans _ _ _ H' H).
Qed.

(** Three points cannot be ranked in a cycle by the fallback. *)
Lemma sos_sign_no_cycle x1 y1 x2 y2 x3 y3 s :
  is_nan x1 = false -> is_nan y1 = false ->
  is_nan x2 = false -> is_nan y2 = false ->
  is_nan x3 = false -> is_nan y3 = false ->
  s <> 0 ->
  sos_sign x2 y2 x3 y3 = s -> sos_sign x3 y3 x1 y1 = s ->
  sos_sign x1 y1 x2 y2 = s -> False.
Proof.
  intros Hx1 Hy1 Hx2 Hy2 Hx3 Hy3 Hs Ha Hb Hc.
  destruct (sos_sign_cases x2 y2 x3 y3 Hx2 Hy2 Hx3 Hy3) as [[Ea La]|[[Ea La]|[Ea _]]];
  destruct (sos_sign_cases x3 y3 x1 y1 Hx3 Hy3 Hx1 Hy1) as [[Eb Lb]|[[Eb Lb]|[Eb _]]];
  destruct (sos_sign_cases x1 y1 x2 y2 Hx1 Hy1 Hx2 Hy2) as [[Ec Lc]|[[Ec Lc]|[Ec _]]];
  try lia.
  - exact (sos_lt_asym _ _ _ _ (sos_lt_trans _ _ _ _ _ _ La Lb) Lc).
  - exact (sos_lt_asym _ _ _ _ (sos_lt_trans _ _ _ _ _ _ Lb La) Lc).
Qed.

End SymbolicPerturbation.

Section Orientation.

Lemma orientation_unfold x1 y1 x2 y2 :
  orientation x1 y1 x2 y2 =
  (match cls (area x1 y1 x2 y2) with
   | CPos => 1
   | CNeg => -1
   | _ => sos_sign x1 y1 x2 y2
   end, area x1 y1 x2 y2).
Proof.
  unfold orientation, sos_sign. fold (area x1 y1 x2 y2).
  destruct (area x1 y1 x2 y2) as [s|s| |s m e]; try destruct s; reflexivity.
Qed.

Lemma cls_zero_not_nan a : cls a = CZero -> is_nan a = false.
Proof. destruct a as [s|s| |s m e]; try destruct s; cbn; congruence. Qed.

(** When the three signs agree and are not zero, the sum of the three
    areas is positive, negative or NaN, never a zero. *)
Lemma agreeing_signs_sum x1 y1 x2 y2 x3 y3 s :
  s <> 0 ->
  (orientation x2 y2 x3 y3).1 = s ->
  (orientation x3 y3 x1 y1).1 = s ->
  (orientation x1 y1 x2 y2).1 = s ->
  cls (dadd (dadd (orientation x2 y2 x3 y3).2 (orientation x3 y3 x1 y1).2)
            (orientation x1 y1 x2 y2).2) <> CZero.
Proof.
  rewrite !orientation_unfold. cbn [fst snd].
  pose proof (area_exp_ok x2 y2 x3 y3) as Oa.
  pose proof (area_exp_ok x3 y3 x1 y1) as Ob.
  pose proof (area_exp_ok x1 y1 x2 y2) as Oc.
  pose proof (area_not_nan x2 y2 x3 y3) as Na.
  pose proof (area_not_nan x3 y3 x1 y1) as Nb.
  pose proof (area_not_nan x1 y1 x2 y2) as Nc.
  pose proof (cls_zero_not_nan (area x2 y2 x3 y3)) as Za.
  pose proof (cls_zero_not_nan (area x3 y3 x1 y1)) as Zb.
  pose proof (cls_zero_not_nan (area x1 y1 x2 y2)) as Zc.
  set (a := area x2 y2 x3 y3) in *.
  set (b := area x3 y3 x1 y1) in *.
  set (c := area x1 y1 x2 y2) in *.
  intros Hs Ha Hb Hc.
  assert (Hab : opposed (cls a) (cls b) = false)
    by (destruct (cls a), (cls b); try reflexivity; lia).
  pose proof (dadd_cls a b Oa Ob Hab) as Eab.
  assert (Habc : opposed (cls (dadd a b)) (cls c) = false)
    by (rewrite Eab; destruct (cls a), (cls b), (cls c); try reflexivity; lia).
  rewrite (dadd_cls (dadd a b) c (dadd_exp_ok a b Oa Ob) Oc Habc), Eab.
  destruct (cls a) eqn:Ca, (cls b) eqn:Cb, (cls c) eqn:Cc; cbn; try discriminate.
  intros _.
  destruct (Na (Za eq_refl)) as (? & ? & ? & ?).
  destruct (Nb (Zb eq_refl)) as (? & ? & ? & ?).
  apply (sos_sign_no_cycle x1 y1 x2 y2 x3 y3 s); assumption.
Qed.

End Orientation.

Section Degenerate.

Lemma fkey_eq x y :
  is_nan x = false -> is_nan y = false -> fkey x = fkey y ->
  x = y \/ (cls x = CZero /\ cls y = CZero).
Proof.
  destruct x as [sx|sx| |sx mx ex], y as [sy|sy| |sy my ey]; cbn;
    try discriminate; intros _ _ H; auto;
    try (destruct sx; discriminate); try (destruct sy; discriminate);
    try (destruct sx, sy; try discriminate; auto; fail).
  destruct sx, sy; try discriminate; injection H; intros; left; f_equal; lia.
Qed.

Lemma dmul_comm x y : dmul x y = dmul y x.
Proof.
  destruct x as [sx|sx| |sx mx ex], y as [sy|sy| |sy my ey]; cbn;
    rewrite ?(xorb_comm sx sy); try reflexivity.
  unfold dmul, SFmul.
  now rewrite (Pos.mul_comm mx my), (Z.add_comm ex ey).
Qed.

Lemma dsub_diag p : null_sign (dsub p p) = true.
Proof.
  destruct p as [s|s| |s m e]; try (destruct s; reflexivity); try reflexivity.
  unfold dsub, SFsub. now rewrite Z.sub_diag.
Qed.

Lemma dmul_zero_l x y : cls x = CZero -> null_sign (dmul x y) = true.
Proof.
  destruct x as [sx|sx| |sx mx ex]; try (destruct sx; discriminate);
    try discriminate; intros _.
  destruct y; reflexivity.
Qed.

Lemma dmul_zero_r x y : cls y = CZero -> null_sign (dmul x y) = true.
Proof. rewrite dmul_comm. apply dmul_zero_l. Qed.

Lemma dsub_null p q :
  null_sign p = true -> null_sign q = true -> null_sign (dsub p q) = true.
Proof.
  destruct p as [sp|sp| |sp mp ep], q as [sq|sq| |sq mq eq]; cbn;
    try (destruct sp; discriminate); try (destruct sq; discriminate);
    try reflexivity; intros _ _; destruct sp, sq; reflexivity.
Qed.

(** The area of two coinciding end points is a zero or NaN. *)
Lemma area_coincide x1 y1 x2 y2 :
  is_nan x1 = false -> is_nan y1 = false ->
  is_nan x2 = false -> is_nan y2 = false ->
  fkey x1 = fkey x2 -> fkey y1 = fkey y2 ->
  null_sign (area x1 y1 x2 y2) = true.
Proof.
  intros Hx1 Hy1 Hx2 Hy2 Ex Ey. unfold area.
  destruct (fkey_eq x1 x2 Hx1 Hx2 Ex) as [->|[Zx1 Zx2]].
  - destruct (fkey_eq y1 y2 Hy1 Hy2 Ey) as [->|[Zy1 Zy2]].
    + rewrite (dmul_comm y2 x2). apply dsub_diag.
    + apply dsub_null; [apply dmul_zero_l|apply dmul_zero_r]; assumption.
  - apply dsub_null; [apply dmul_zero_r|apply dmul_zero_l]; assumption.
Qed.

Lemma deq_not_nan x y : deq x y = true -> is_nan x = false /\ is_nan y = false.
Proof. destruct x, y; cbn; try discriminate; auto. Qed.

Lemma orientation_range x1 y1 x2 y2 :
  (orientation x1 y1 x2 y2).1 = 1 \/ (orientation x1 y1 x2 y2).1 = -1 \/
  (orientation x1 y1 x2 y2).1 = 0.
Proof.
  unfold orientation. cbn [fst].
  repeat match goal with |- context [if ?b then _ else _] => destruct b end; auto.
Qed.

Lemma orientation_zero_coincide x1 y1 x2 y2 :
  is_nan x1 = false -> is_nan y1 = false ->
  is_nan x2 = false -> is_nan y2 = false ->
  (orientation x1 y1 x2 y2).1 = 0 -> deq x1 x2 = true /\ deq y1 y2 = true.
Proof.
  intros Hx1 Hy1 Hx2 Hy2. rewrite orientation_unfold. cbn [fst]. intros H.
  assert (Hs : sos_sign x1 y1 x2 y2 = 0)
    by (destruct (cls (area x1 y1 x2 y2)); (discriminate || assumption)).
  destruct (sos_sign_cases x1 y1 x2 y2 Hx1 Hy1 Hx2 Hy2)
    as [[E _]|[[E _]|[_ [Ex Ey]]]]; try lia.
  split; apply deq_key; assumption.
Qed.

Lemma orientation_coincide_zero x1 y1 x2 y2 :
  deq x1 x2 = true -> deq y1 y2 = true -> (orientation x1 y1 x2 y2).1 = 0.
Proof.
  intros Dx Dy.
  destruct (deq_not_nan _ _ Dx) as [Hx1 Hx2].
  destruct (deq_not_nan _ _ Dy) as [Hy1 Hy2].
  apply deq_key in Dx; try assumption. apply deq_key in Dy; try assumption.
  rewrite orientation_unfold. cbn [fst].
  pose proof (area_coincide x1 y1 x2 y2 Hx1 Hy1 Hx2 Hy2 Dx Dy) as Hn.
  unfold null_sign in Hn.
  assert (Hs : sos_sign x1 y1 x2 y2 = 0).
  { destruct (sos_sign_cases x1 y1 x2 y2 Hx1 Hy1 Hx2 Hy2)
      as [[_ L]|[[_ L]|[E _]]]; try assumption; exfalso;
      destruct L as [L|[_ L]]; rewrite ?Dx, ?Dy in L;
      exact (klt_asym _ _ L L). }
  destruct (cls (area x1 y1 x2 y2)); (discriminate || assumption).
Qed.

End Degenerate.

(** ** The grid layout *)

(** C2, as stated, fails: on the node lattice of a 1290 x 1290 x 1290
    grid the linear index of the last corner exceeds the largest [int],
    so that [index_from_index3] does not compute [(z*ny + y)*nx + x] and
    the round trip does not give the corner back. *)
Lemma layout_roundtrip_overflow :
  ~ (forall x y z nx ny nz,
       0 <= x < nx -> 0 <= y < ny -> 0 <= z < nz ->
       Layout.index_from_index3 (Vec3i x y z) (Vec3i nx ny nz) = (z * ny + y) * nx + x /\
       Layout.index3_from_index
         (Layout.index_from_index3 (Vec3i x y z) (Vec3i nx ny nz)) (Vec3i nx ny nz)
       = Ok (Vec3i x y z)).
Proof.
  intros H.
  destruct (H 1290 1290 1290 1291 1291 1291) as [H1 _]; try lia.
  vm_compute in H1. discriminate H1.
Qed.

(** C2 (amended): for every coordinate triple [(x,y,z)] with
    [0 <= x < nx], [0 <= y < ny], [0 <= z < nz] whose linear index
    [(z*ny + y)*nx + x] does not exceed the largest [int],
    [index_from_index3] computes that linear index and
    [index3_from_index] applied to it returns exactly [(x,y,z)]. *)
Theorem layout_roundtrip x y z nx ny nz :
  0 <= x < nx -> 0 <= y < ny -> 0 <= z < nz ->
  (z * ny + y) * nx + x <= int_max ->
  Layout.index_from_index3 (Vec3i x y z) (Vec3i nx ny nz) = (z * ny + y) * nx + x /\
  Layout.index3_from_index
    (Layout.index_from_index3 (Vec3i x y z) (Vec3i nx ny nz)) (Vec3i nx ny nz)
  = Ok (Vec3i x y z).
Proof.
  intros Hx Hy Hz Hfit. fold (linear x y z nx ny) in *.
  rewrite (index_from_index3_exact x y z nx ny nz) by assumption.
  split; [reflexivity|].
  apply (index3_from_index_exact x y z nx ny nz); assumption.
Qed.

Lemma layout_roundtrip_witness :
  Layout.index_from_index3 (Vec3i 1 2 3) (Vec3i 4 5 6) = (3 * 5 + 2) * 4 + 1 /\
  Layout.index3_from_index
    (Layout.index_from_index3 (Vec3i 1 2 3) (Vec3i 4 5 6)) (Vec3i 4 5 6)
  = Ok (Vec3i 1 2 3).
Proof.
  apply (layout_roundtrip 1 2 3 4 5 6); unfold int_max; lia.
Defined.

(** ** The point-in-triangle test *)

(** C10, as stated, fails: with a first coordinate that is NaN on both
    end points [orientation] returns [0], although [x1 == x2] is false. *)
Lemma orientation_zero_on_nan :
  ~ (forall x1 y1 x2 y2,
       (orientation x1 y1 x2 y2).1 = 0 <-> (deq x1 x2 = true /\ deq y1 y2 = true)).
Proof.
  intros H.
  destruct (H S754_nan dzero S754_nan dzero) as [H1 _].
  destruct (H1 eq_refl) as [H2 _]. discriminate H2.
Qed.

(** C10 (amended): on coordinates none of which is NaN, [orientation]
    returns [0] if and only if the two end points coincide
    ([x1 == x2] and [y1 == y2]); for any two other end points it returns
    [+1] or [-1]. *)
Theorem orientation_zero_iff_coincide x1 y1 x2 y2 :
  is_nan x1 = false -> is_nan y1 = false ->
  is_nan x2 = false -> is_nan y2 = false ->
  ((orientation x1 y1 x2 y2).1 = 0 <-> (deq x1 x2 = true /\ deq y1 y2 = true)) /\
  ((deq x1 x2 && deq y1 y2 = false) ->
   (orientation x1 y1 x2 y2).1 = 1 \/ (orientation x1 y1 x2 y2).1 = -1).
Proof.
  intros Hx1 Hy1 Hx2 Hy2.
  assert (Hiff : (orientation x1 y1 x2 y2).1 = 0 <->
                 (deq x1 x2 = true /\ deq y1 y2 = true)).
  { split.
    - apply orientation_zero_coincide; assumption.
    - intros [Dx Dy]. apply orientation_coincide_zero; assumption. }
  split; [exact Hiff|].
  intros Hd.
  destruct (orientation_range x1 y1 x2 y2) as [H|[H|H]]; auto.
  apply Hiff in H. destruct H as [Dx Dy]. rewrite Dx, Dy in Hd. discriminate Hd.
Qed.

Lemma orientation_zero_iff_coincide_witness :
  ((orientation (double_of_int 1) (double_of_int 2)
                (double_of_int 1) (double_of_int 2)).1 = 0 <->
   (deq (double_of_int 1) (double_of_int 1) = true /\
    deq (double_of_int 2) (double_of_int 2) = true)) /\
  ((deq (double_of_int 1) (double_of_int 1) &&
    deq (double_of_int 2) (double_of_int 2) = false) ->
   (orientation (double_of_int 1) (double_of_int 2)
                (double_of_int 1) (double_of_int 2)).1 = 1 \/
   (orientation (double_of_int 1) (double_of_int 2)
                (double_of_int 1) (double_of_int 2)).1 = -1).
Proof.
  apply (orientation_zero_iff_coincide
           (double_of_int 1) (double_of_int 2) (double_of_int 1) (double_of_int 2));
    reflexivity.
Defined.

(** C4: whenever the three signs that [orientation] gives for the three
    edges are equal and not zero, the sum [a + b + c] of the three
    twice-signed areas compares different from [0], so the assertion
    [sum != 0] of [point_in_triangle_2d] holds. *)
Theorem agreeing_signs_sum_nonzero x1 y1 x2 y2 x3 y3 :
  (orientation x2 y2 x3 y3).1 <> 0 ->
  (orientation x3 y3 x1 y1).1 = (orientation x2 y2 x3 y3).1 ->
  (orientation x1 y1 x2 y2).1 = (orientation x2 y2 x3 y3).1 ->
  dne (dadd (dadd (orientation x2 y2 x3 y3).2 (orientation x3 y3 x1 y1).2)
            (orientation x1 y1 x2 y2).2) dzero = true.
Proof.
  intros Ha Hb Hc.
  pose proof (agreeing_signs_sum x1 y1 x2 y2 x3 y3 _ Ha eq_refl Hb Hc) as H.
  destruct (dne _ dzero) eqn:E; [reflexivity|].
  apply dne_zero_cls in E. contradiction.
Qed.

(** The query point [(0,0)] lies on the edge from [(-1,0)] to [(1,0)] of
    the triangle with apex [(0,1)]: one area is exactly zero and its
    sign comes from the fallback. *)
Lemma agreeing_signs_sum_nonzero_witness :
  (orientation (double_of_int 1) (double_of_int 0)
               (double_of_int 0) (double_of_int 1)).1 <> 0 /\
  dne (dadd (dadd (orientation (double_of_int 1) (double_of_int 0)
                               (double_of_int 0) (double_of_int 1)).2
                  (orientation (double_of_int 0) (double_of_int 1)
                               (double_of_int (-1)) (double_of_int 0)).2)
            (orientation (double_of_int (-1)) (double_of_int 0)
                         (double_of_int 1) (double_of_int 0)).2) dzero = true.
Proof.
  split; [vm_compute; discriminate|].
  apply (agreeing_signs_sum_nonzero
           (double_of_int (-1)) (double_of_int 0)
           (double_of_int 1) (double_of_int 0)
           (double_of_int 0) (double_of_int 1)).
  - vm_compute. discriminate.
  - vm_compute. reflexivity.
  - vm_compute. reflexivity.
Defined.


(** ** Loops *)

Section Loops.

Context {S : Type}.

Lemma run_over_ends_well (body : Z -> S -> outcome S) l :
  (forall i s, i ∈ l -> ends_well (body i s) = true) ->
  forall s, ends_well (run_over body l s) = true.
Proof.
  induction l as [|i l IH]; intros Hbody s; cbn [run_over]; [reflexivity|].
  pose proof (Hbody i s ltac:(left)) as Hb.
  destruct (body i s) as [s'| | |]; try discriminate; [|reflexivity].
  cbn. apply IH. intros j s0 Hj. apply Hbody. now right.
Qed.

Lemma for_loop_steps step next hi (body : Z -> S -> outcome S) :
  forall n fuel lo s,
    (n <= fuel)%nat ->
    (forall j, (j < n)%nat ->
       lo + step * Z.of_nat j < hi /\
       next (lo + step * Z.of_nat j) = lo + step * Z.of_nat (Datatypes.S j)) ->
    hi <= lo + step * Z.of_nat n ->
    for_loop fuel next lo hi body s = run_over body (steps lo step n) s.
Proof.
  induction n as [|n IH]; intros fuel lo s Hfuel Hj Hhi.
  - cbn [steps run_over]. destruct fuel; cbn [for_loop];
      destruct (Z.ltb_spec lo hi); try reflexivity; lia.
  - destruct fuel as [|fuel]; [lia|]. cbn [for_loop steps run_over].
    destruct (Hj 0%nat ltac:(lia)) as [H0 N0].
    rewrite Z.mul_0_r, Z.add_0_r in H0, N0.
    destruct (Z.ltb_spec lo hi); [|lia].
    destruct (body lo s) as [s'| | |]; try reflexivity.
    change (for_loop fuel next (next lo) hi body s' =
            run_over body (steps (lo + step) step n) s').
    rewrite N0. replace (lo + step * Z.of_nat 1) with (lo + step) by lia.
    apply IH; [lia| |lia].
    intros j Hjn. destruct (Hj (Datatypes.S j) ltac:(lia)) as [H1 N1].
    replace (lo + step + step * Z.of_nat j) with (lo + step * Z.of_nat (Datatypes.S j)) by lia.
    split; [exact H1|]. rewrite N1. lia.
Qed.

End Loops.

Lemma elem_of_steps_1 z lo n : z ∈ steps lo 1 n <-> lo <= z < lo + Z.of_nat n.
Proof.
  revert lo. induction n as [|n IH]; intros lo; cbn [steps].
  - rewrite elem_of_nil. lia.
  - rewrite elem_of_cons, IH. lia.
Qed.

Lemma list_ind2 {A} (P : list A -> Prop) :
  P [] -> (forall a, P [a]) -> (forall a b l, P l -> P (a :: b :: l)) ->
  forall l, P l.
Proof.
  intros H0 H1 H2 l.
  assert (H : P l /\ forall a, P (a :: l)).
  { induction l as [|b l [IH1 IH2]]; split; auto. }
  exact (proj1 H).
Qed.

Lemma pairs_length {A} (l : list A) :
  (2 * length (pairs l) <= length l <= 2 * length (pairs l) + 1)%nat.
Proof. induction l as [|a|a b l IH] using list_ind2; cbn [pairs length]; lia. Qed.


(** ** The column loop of [compute_sign] *)

(** [std::round] and the conversion to [int] on a few values: 5/2, -5/2,
    the largest double below 1/2, and 7/2 truncated. *)
Example std_round_half_up :
  int_of_double (std_round (ddiv (double_of_int 5) (double_of_int 2))) = 3.
Proof. vm_compute. reflexivity. Qed.

Example std_round_half_down :
  int_of_double (std_round (ddiv (double_of_int (-5)) (double_of_int 2))) = -3.
Proof. vm_compute. reflexivity. Qed.

Example std_round_below_half :
  std_round (S754_finite false 9007199254740991 (-54)) = S754_zero false.
Proof. vm_compute. reflexivity. Qed.

Example int_of_double_truncates :
  int_of_double (ddiv (double_of_int (-7)) (double_of_int 2)) = -3.
Proof. vm_compute. reflexivity. Qed.

Lemma int_of_double_range v : in_int (int_of_double v).
Proof.
  unfold in_int, int_of_double, int_min, int_max.
  destruct v as [s|s| |s m e]; try lia.
  match goal with |- context [if ?b then _ else _] => destruct b eqn:E end; lia.
Qed.

Lemma zindex_bounds oz sp nz h :
  0 <= zindex oz sp nz h <= int_max /\
  (0 < zindex oz sp nz h -> zindex oz sp nz h <= nz) /\
  (0 <= nz -> zindex oz sp nz h <= nz).
Proof.
  unfold zindex.
  pose proof (int_of_double_range (std_round (ddiv (dsub h oz) sp))) as H.
  unfold in_int, int_min, int_max in *. lia.
Qed.

Lemma int_add_1 z : 0 <= z < int_max -> int_add z 1 = z + 1.
Proof.
  intros H. apply wrap_int_small. unfold in_int, int_min, int_max in *. lia.
Qed.

Section Column.

Variables nx ny nz : Z.
Variables x y : Z.
Hypothesis Hx : 0 <= x < nx.
Hypothesis Hy : 0 <= y < ny.
Hypothesis Hfit : nx * ny * nz <= int_max.

Lemma linear_fits x' y' z' :
  0 <= x' < nx -> 0 <= y' < ny -> 0 <= z' < nz ->
  0 <= linear x' y' z' nx ny < nx * ny * nz /\ linear x' y' z' nx ny <= int_max.
Proof.
  intros Hx' Hy' Hz'. pose proof (linear_lt x' y' z' nx ny nz Hx' Hy' Hz'). lia.
Qed.

Lemma linear_inj x1 y1 z1 x2 y2 z2 :
  0 <= x1 < nx -> 0 <= y1 < ny -> 0 <= z1 < nz ->
  0 <= x2 < nx -> 0 <= y2 < ny -> 0 <= z2 < nz ->
  linear x1 y1 z1 nx ny = linear x2 y2 z2 nx ny ->
  x1 = x2 /\ y1 = y2 /\ z1 = z2.
Proof.
  intros A1 B1 C1 A2 B2 C2 E.
  pose proof (cell_of_linear x1 y1 z1 nx ny nz A1 B1 C1) as R1.
  pose proof (cell_of_linear x2 y2 z2 nx ny nz A2 B2 C2) as R2.
  rewrite E, R2 in R1. injection R1. auto.
Qed.

Lemma insert_alter {A} (f : A -> A) (l : list A) i v :
  l !! i = Some v -> <[i := f v]> l = alter f i l.
Proof.
  intros H. apply list_eq. intros j.
  destruct (decide (i = j)) as [->|Hne].
  - rewrite list_lookup_insert_eq by (eapply lookup_lt_Some; eassumption).
    rewrite list_lookup_alter_eq, H. reflexivity.
  - rewrite list_lookup_insert_ne, list_lookup_alter_ne by assumption. reflexivity.
Qed.

Lemma flip_body_ok z data :
  0 <= z < nz -> Z.of_nat (length data) = nx * ny * nz ->
  flip_body (Vec3i nx ny nz) x y z data
  = Ok (alter flip (Z.to_nat (linear x y z nx ny)) data).
Proof.
  intros Hz Hlen. unfold flip_body. cbn [c2].
  destruct (linear_fits x y z Hx Hy Hz) as [Hl Hm].
  assert (Ha : (0 <=? z) && (z <? nz) = true).
  { apply andb_true_iff. split; [apply Z.leb_le|apply Z.ltb_lt]; lia. }
  rewrite Ha. unfold geo_assert. rewrite bind_Ok.
  rewrite (index_from_index3_exact x y z nx ny nz) by assumption.
  unfold vector_at. destruct (Z.ltb_spec (linear x y z nx ny) 0); [lia|].
  destruct (data !! Z.to_nat (linear x y z nx ny)) as [v|] eqn:E.
  2:{ apply lookup_ge_None in E. lia. }
  rewrite bind_Ok. unfold vector_set.
  assert (Hb : (0 <=? linear x y z nx ny) &&
               (linear x y z nx ny <? Z.of_nat (length data)) = true).
  { apply andb_true_iff. split; [apply Z.leb_le|apply Z.ltb_lt]; lia. }
  rewrite Hb. f_equal. apply insert_alter, E.
Qed.

Lemma run_over_flip_body n : forall z1 data,
  0 <= z1 -> ((0 < n)%nat -> z1 + Z.of_nat n <= nz) ->
  Z.of_nat (length data) = nx * ny * nz ->
  run_over (flip_body (Vec3i nx ny nz) x y) (steps z1 1 n) data
  = Ok (foldl (fun d z => alter flip (Z.to_nat (linear x y z nx ny)) d) data
              (steps z1 1 n)).
Proof.
  induction n as [|n IH]; intros z1 data H1 H2 Hlen; cbn [steps run_over foldl].
  - reflexivity.
  - rewrite flip_body_ok by lia. cbn.
    apply IH; try lia. rewrite length_alter. exact Hlen.
Qed.

Lemma flip_span_ok z1 z2 data :
  0 <= z1 -> z2 <= nz -> Z.of_nat (length data) = nx * ny * nz ->
  flip_span (Vec3i nx ny nz) x y z1 z2 data = Ok (toggle_span nx ny x y z1 z2 data).
Proof.
  intros H1 H2 Hlen. unfold flip_span, toggle_span.
  assert (Hnz : nz <= int_max).
  { destruct (Z.le_gt_cases nz 0); [unfold int_max; lia|].
    assert (A : nz <= ny * nz) by nia.
    assert (B : ny * nz <= nx * (ny * nz)) by nia.
    lia. }
  rewrite (for_loop_steps 1 _ z2 _ (Z.to_nat (z2 - z1))); try lia.
  - apply run_over_flip_body; lia.
  - intros j Hj. split; [lia|]. rewrite int_add_1 by lia. lia.
Qed.

Lemma toggle_span_length z1 z2 data :
  length (toggle_span nx ny x y z1 z2 data) = length data.
Proof.
  unfold toggle_span. generalize (steps z1 1 (Z.to_nat (z2 - z1))). intros l.
  revert data. induction l as [|z l IH]; intros data; cbn [foldl]; [reflexivity|].
  rewrite IH. apply length_alter.
Qed.

Lemma toggle_span_lookup z1 z2 data x' y' z' :
  0 <= z1 -> z2 <= nz ->
  0 <= x' < nx -> 0 <= y' < ny -> 0 <= z' < nz ->
  toggle_span nx ny x y z1 z2 data !! Z.to_nat (linear x' y' z' nx ny)
  = (if bool_decide (x' = x /\ y' = y /\ z1 <= z' < z2) then flip else id)
      <$> data !! Z.to_nat (linear x' y' z' nx ny).
Proof.
  intros H1 H2 Hx' Hy' Hz'. unfold toggle_span.
  remember (Z.to_nat (z2 - z1)) as n eqn:En.
  assert (Hn : (0 < n)%nat -> z1 + Z.of_nat n <= nz) by lia.
  assert (Hc : forall b : Z, (z1 <= b < z2) <-> (z1 <= b < z1 + Z.of_nat n)) by lia.
  rewrite (bool_decide_ext _ (x' = x /\ y' = y /\ z1 <= z' < z1 + Z.of_nat n))
    by (rewrite (Hc z'); reflexivity).
  clear En Hc H2. revert z1 data H1 Hn.
  induction n as [|n IH]; intros z1 data H1 Hn; cbn [steps foldl].
  - rewrite bool_decide_eq_false_2 by lia. now destruct (data !! _).
  - rewrite IH by lia.
    destruct (decide (x' = x /\ y' = y /\ z' = z1)) as [(-> & -> & ->)|Hne].
    + rewrite list_lookup_alter_eq.
      rewrite bool_decide_eq_false_2 by lia.
      rewrite bool_decide_eq_true_2 by lia.
      now destruct (data !! _).
    + rewrite list_lookup_alter_ne.
      2:{ intros E. apply Z2Nat.inj in E.
          - apply linear_inj in E; try lia. 
          - apply linear_fits; lia.
          - apply linear_fits; lia. }
      apply (f_equal (fun f => f <$> _)).
      destruct (decide (x' = x /\ y' = y /\ z1 + 1 <= z' < z1 + 1 + Z.of_nat n)).
      * rewrite !bool_decide_eq_true_2 by lia. reflexivity.
      * rewrite !bool_decide_eq_false_2 by lia. reflexivity.
Qed.

End Column.

Section Pairing.

Variable size : vec3i.
Variables origin_z spacing : double.
Variables x y : Z.

Lemma vector_at_app {A} (pre l : list A) (a : A) :
  vector_at (pre ++ a :: l) (Z.of_nat (length pre)) = Ok a.
Proof.
  unfold vector_at. destruct (Z.ltb_spec (Z.of_nat (length pre)) 0); [lia|].
  rewrite Nat2Z.id, list_lookup_middle by reflexivity. reflexivity.
Qed.

Lemma pair_body_at pre a b l data :
  pair_body size origin_z spacing x y (pre ++ a :: b :: l)
            (Z.of_nat (length pre) + 1) data
  = flip_span size x y (zindex origin_z spacing (c2 size) a)
                       (zindex origin_z spacing (c2 size) b) data.
Proof.
  unfold pair_body.
  replace (Z.of_nat (length pre) + 1 - 1) with (Z.of_nat (length pre)) by lia.
  rewrite vector_at_app. cbn.
  replace (pre ++ a :: b :: l) with ((pre ++ [a]) ++ b :: l)
    by (rewrite <- app_assoc; reflexivity).
  replace (Z.of_nat (length pre) + 1) with (Z.of_nat (length (pre ++ [a])))
    by (rewrite length_app; cbn; lia).
  rewrite vector_at_app. reflexivity.
Qed.

Lemma pair_loop_pairs (l : list double) : forall pre data,
  run_over (pair_body size origin_z spacing x y (pre ++ l))
           (steps (Z.of_nat (length pre) + 1) 2 (length (pairs l))) data
  = run_pairs size origin_z spacing x y (pairs l) data.
Proof.
  induction l as [|a|a b l IH] using list_ind2; intros pre data;
    cbn [pairs length steps run_over run_pairs]; try reflexivity.
  rewrite pair_body_at. cbn [fst snd].
  destruct (flip_span size x y _ _ data) as [d| | |]; try reflexivity.
  specialize (IH (pre ++ [a; b]) d).
  replace ((pre ++ [a; b]) ++ l) with (pre ++ a :: b :: l) in IH
    by (rewrite <- app_assoc; reflexivity).
  replace (Z.of_nat (length (pre ++ [a; b])) + 1)
    with (Z.of_nat (length pre) + 1 + 2) in IH
    by (rewrite length_app; cbn; lia).
  exact IH.
Qed.

Lemma column_flips_pairs inter data :
  column_flips size origin_z spacing x y inter data
  = run_pairs size origin_z spacing x y (pairs inter) data.
Proof.
  unfold column_flips. pose proof (pairs_length inter) as Hl.
  rewrite (for_loop_steps 2 _ _ _ (length (pairs inter))); try lia.
  exact (pair_loop_pairs inter [] data).
Qed.

End Pairing.

Lemma flip_body_ends_well size x y z data :
  0 <= z < c2 size -> ends_well (flip_body size x y z data) = true.
Proof.
  intros Hz. unfold flip_body.
  assert (Ha : (0 <=? z) && (z <? c2 size) = true).
  { apply andb_true_iff. split; [apply Z.leb_le|apply Z.ltb_lt]; lia. }
  rewrite Ha. unfold geo_assert. rewrite bind_Ok. unfold vector_at.
  destruct (_ <? 0); [reflexivity|].
  destruct (data !! _); [|reflexivity]. rewrite bind_Ok.
  unfold vector_set.
  match goal with |- context [if ?b then _ else _] => destruct b end; reflexivity.
Qed.

Lemma flip_span_ends_well size x y z1 z2 data :
  0 <= z1 -> z2 <= int_max -> (z1 < z2 -> z2 <= c2 size) ->
  ends_well (flip_span size x y z1 z2 data) = true.
Proof.
  intros H1 H2 H3. unfold flip_span.
  rewrite (for_loop_steps 1 _ z2 _ (Z.to_nat (z2 - z1))); try lia.
  - apply run_over_ends_well. intros z s Hz.
    apply elem_of_steps_1 in Hz. apply flip_body_ends_well. lia.
  - intros j Hj. split; [lia|]. rewrite int_add_1 by lia. lia.
Qed.

Lemma run_pairs_ends_well size origin_z spacing x y ps : forall data,
  ends_well (run_pairs size origin_z spacing x y ps data) = true.
Proof.
  induction ps as [|p ps IH]; intros data; cbn [run_pairs]; [reflexivity|].
  pose proof (zindex_bounds origin_z spacing (c2 size) p.1) as [Hlo _].
  pose proof (zindex_bounds origin_z spacing (c2 size) p.2) as [Hhi [Hhi' _]].
  pose proof (flip_span_ends_well size x y _ _ data
                (proj1 Hlo) (proj2 Hhi) ltac:(lia)) as Hf.
  destruct (flip_span size x y _ _ data) as [d| | |]; try discriminate;
    [|reflexivity].
  cbn. apply IH.
Qed.

(** C5: in the flip loop of [compute_sign] the assertion
    [z >= 0 && z < size[2]] never fires, whatever the crossing heights,
    the grid and the column are: both ends of a pair are clamped into
    [[0, nz]] and the loop runs over [z1 <= z < z2]. The run does not
    depend on the fuel of the model either: it returns, or it stops at
    an access outside the buffer of a grid that is not as large as its
    size says. *)
Theorem flip_loop_assertion_holds size origin_z spacing x y inter data :
  assert_free (column_flips size origin_z spacing x y inter data) = true /\
  within_fuel (column_flips size origin_z spacing x y inter data) = true.
Proof.
  apply andb_true_iff. rewrite column_flips_pairs. apply run_pairs_ends_well.
Qed.

Section ColumnSpans.

Variables nx ny nz : Z.
Variables x y : Z.
Variables origin_z spacing : double.
Hypothesis Hx : 0 <= x < nx.
Hypothesis Hy : 0 <= y < ny.
Hypothesis Hnz : 0 <= nz.
Hypothesis Hfit : nx * ny * nz <= int_max.

Lemma toggle_spans_length spans : forall data,
  length (toggle_spans nx ny x y spans data) = length data.
Proof.
  induction spans as [|p spans IH]; intros data; cbn; [reflexivity|].
  unfold toggle_spans in IH. rewrite IH. apply toggle_span_length.
Qed.

Lemma run_pairs_ok ps : forall data,
  Z.of_nat (length data) = nx * ny * nz ->
  run_pairs (Vec3i nx ny nz) origin_z spacing x y ps data
  = Ok (toggle_spans nx ny x y
          (map (fun p => (zindex origin_z spacing nz p.1,
                          zindex origin_z spacing nz p.2)) ps) data).
Proof.
  induction ps as [|p ps IH]; intros data Hlen; cbn [run_pairs map]; [reflexivity|].
  cbn [c2].
  pose proof (zindex_bounds origin_z spacing nz p.1) as [[A _] _].
  pose proof (zindex_bounds origin_z spacing nz p.2) as [_ [_ B]].
  rewrite (flip_span_ok nx ny nz x y Hx Hy Hfit) by (auto; lia).
  change (Ok ?d ≫= ?f) with (f d). cbv beta.
  rewrite IH by (rewrite toggle_span_length; exact Hlen).
  reflexivity.
Qed.

Lemma toggles_cons p spans z :
  toggles (p :: spans) z
  = if bool_decide (p.1 <= z < p.2) then Datatypes.S (toggles spans z)
    else toggles spans z.
Proof.
  unfold toggles. rewrite filter_cons.
  destruct (decide (p.1 <= z < p.2)) as [H|H].
  - rewrite bool_decide_eq_true_2 by exact H. reflexivity.
  - rewrite bool_decide_eq_false_2 by exact H. reflexivity.
Qed.

Lemma toggle_spans_lookup spans x' y' z' : forall data,
  Forall (fun p : Z * Z => 0 <= p.1 /\ p.2 <= nz) spans ->
  0 <= x' < nx -> 0 <= y' < ny -> 0 <= z' < nz ->
  toggle_spans nx ny x y spans data !! Z.to_nat (linear x' y' z' nx ny)
  = (if bool_decide (x' = x /\ y' = y)
     then Nat.iter (toggles spans z') flip else id)
      <$> data !! Z.to_nat (linear x' y' z' nx ny).
Proof.
  induction spans as [|p spans IH]; intros data Hs Hx' Hy' Hz'.
  - cbn. destruct (bool_decide _); now destruct (data !! _).
  - apply Forall_cons in Hs as [[Hp1 Hp2] Hs].
    change (toggle_spans nx ny x y (p :: spans) data)
      with (toggle_spans nx ny x y spans (toggle_span nx ny x y p.1 p.2 data)).
    rewrite IH by assumption.
    rewrite (toggle_span_lookup nx ny nz x y Hx Hy Hfit) by assumption.
    rewrite toggles_cons.
    destruct (data !! _) as [v|]; [|reflexivity]. cbn. f_equal.
    destruct (decide (x' = x /\ y' = y)) as [[-> ->]|Hne].
    + rewrite bool_decide_eq_true_2 by auto.
      destruct (decide (p.1 <= z' < p.2)) as [Hin|Hout].
      * rewrite !bool_decide_eq_true_2 by auto.
        rewrite Nat.iter_succ_r. reflexivity.
      * rewrite !bool_decide_eq_false_2 by tauto. reflexivity.
    + rewrite !bool_decide_eq_false_2 by tauto. reflexivity.
Qed.

Lemma spans_of_bounds inter :
  Forall (fun p : Z * Z => 0 <= p.1 /\ p.2 <= nz) (spans_of origin_z spacing nz inter).
Proof.
  unfold spans_of. apply Forall_map, Forall_forall. intros p _. cbn.
  pose proof (zindex_bounds origin_z spacing nz p.1) as [[A _] _].
  pose proof (zindex_bounds origin_z spacing nz p.2) as [_ [_ B]].
  auto.
Qed.

End ColumnSpans.


(** ** The triangle list of [triangle_mesh_dump] *)

Section Extraction.

Variable voxels : VoxelGrid.
Let nx := c0 (m_grid_size voxels).
Let ny := c1 (m_grid_size voxels).
Let nz := c2 (m_grid_size voxels).
Hypothesis Hnx : 0 <= nx.
Hypothesis Hny : 0 <= ny.
Hypothesis Hnz : 0 <= nz.
Hypothesis Hfit2 : nx * ny <= int_max.
Hypothesis Hfit : nx * ny * nz <= int_max.
Hypothesis Hlen : Z.of_nat (length (m_data voxels)) = nx * ny * nz.

Lemma grid_size_eta : m_grid_size voxels = Vec3i nx ny nz.
Proof. subst nx ny nz. now destruct (m_grid_size voxels). Qed.

Lemma num_voxels_exact : num_voxels voxels = nx * ny * nz.
Proof.
  unfold num_voxels, int_mul. fold nx ny nz.
  assert (0 <= nx * ny) by nia. assert (0 <= nx * ny * nz) by nia.
  rewrite (wrap_int_small (nx * ny)) by (unfold in_int, int_min, int_max in *; lia).
  apply wrap_int_small. unfold in_int, int_min, int_max in *. lia.
Qed.

Lemma cell_of_range idx :
  0 <= idx < nx * ny * nz ->
  let p := cell_of (m_grid_size voxels) idx in
  0 <= c0 p < nx /\ 0 <= c1 p < ny /\ 0 <= c2 p < nz /\
  linear (c0 p) (c1 p) (c2 p) nx ny = idx.
Proof.
  intros Hidx. unfold cell_of. fold nx ny. cbn [c0 c1 c2].
  assert (Px : 0 < nx) by nia. assert (Py : 0 < ny) by nia.
  pose proof (Z.mod_pos_bound idx nx Px) as Bx.
  pose proof (Z.mod_pos_bound (idx / nx) ny Py) as By.
  pose proof (Z.div_mod idx nx ltac:(lia)) as Dx.
  pose proof (Z.div_mod (idx / nx) ny ltac:(lia)) as Dy.
  assert (Q1 : 0 <= idx / nx) by (apply Z.div_pos; lia).
  assert (Q2 : 0 <= idx / nx / ny) by (apply Z.div_pos; lia).
  assert (Q3 : idx / nx < ny * nz).
  { apply Z.div_lt_upper_bound; [lia|]. lia. }
  assert (Q4 : idx / nx / ny < nz).
  { apply Z.div_lt_upper_bound; lia. }
  unfold linear. repeat split; try lia.
Qed.

Lemma index3_from_index_cell idx :
  0 <= idx < nx * ny * nz ->
  Layout.index3_from_index idx (m_grid_size voxels)
  = Ok (cell_of (m_grid_size voxels) idx).
Proof.
  intros Hidx. apply index3_from_index_nonneg; fold nx ny; nia.
Qed.

Lemma occupancy_in p :
  0 <= c0 p < nx -> 0 <= c1 p < ny -> 0 <= c2 p < nz ->
  exists v, occupancy voxels p = Some v /\
            m_data voxels !! Z.to_nat (linear (c0 p) (c1 p) (c2 p) nx ny) = Some v.
Proof.
  intros A B C. unfold occupancy. fold nx ny nz.
  assert (E : (0 <=? c0 p) && (c0 p <? nx) && (0 <=? c1 p) && (c1 p <? ny)
              && (0 <=? c2 p) && (c2 p <? nz) = true).
  { repeat (apply andb_true_iff; split);
      first [apply Z.leb_le|apply Z.ltb_lt]; lia. }
  rewrite E.
  pose proof (linear_lt (c0 p) (c1 p) (c2 p) nx ny nz A B C) as Hl.
  destruct (m_data voxels !! _) as [v|] eqn:El.
  - exists v. auto.
  - apply lookup_ge_None in El. lia.
Qed.

Lemma occupancy_out p :
  ~ (0 <= c0 p < nx /\ 0 <= c1 p < ny /\ 0 <= c2 p < nz) ->
  occupancy voxels p = None.
Proof.
  intros H. unfold occupancy. fold nx ny nz.
  destruct (_ && _) eqn:E; [|reflexivity].
  exfalso. apply H.
  repeat (apply andb_true_iff in E as [E ?]).
  repeat match goal with
         | H : (_ <=? _) = true |- _ => apply Z.leb_le in H
         | H : (_ <? _) = true |- _ => apply Z.ltb_lt in H
         end. lia.
Qed.

Lemma vector_at_linear p v :
  0 <= c0 p < nx -> 0 <= c1 p < ny -> 0 <= c2 p < nz ->
  m_data voxels !! Z.to_nat (linear (c0 p) (c1 p) (c2 p) nx ny) = Some v ->
  vector_at (m_data voxels) (Layout.index_from_index3 p (m_grid_size voxels)) = Ok v.
Proof.
  intros A B C E.
  pose proof (linear_lt (c0 p) (c1 p) (c2 p) nx ny nz A B C) as Hl.
  rewrite grid_size_eta. destruct p as [px py pz]. cbn [c0 c1 c2] in *.
  rewrite (index_from_index3_exact px py pz nx ny nz) by (assumption || lia).
  unfold vector_at. destruct (Z.ltb_spec (linear px py pz nx ny) 0); [lia|].
  now rewrite E.
Qed.

Lemma check_facet_ok p cs axis delta v1 v2 v3 v4 t :
  0 <= c0 p < nx -> 0 <= c1 p < ny -> 0 <= c2 p < nz ->
  axis = 0 \/ axis = 1 \/ axis = 2 -> delta = -1 \/ delta = 1 ->
  check_facet voxels (grid_size voxels) p cs axis delta v1 v2 v3 v4 t
  = Ok (t ++ if neighbor_empty voxels p axis delta
             then quad cs v1 v2 v3 v4 else []).
Proof.
  intros A B C Hax Hd. unfold check_facet, neighbor_empty, grid_size.
  assert (Hp : int_add (vget p axis) delta = vget p axis + delta).
  { apply wrap_int_small. unfold in_int, int_min, int_max in *.
    destruct Hax as [-> | [-> | ->]]; cbn; nia. }
  rewrite Hp.
  set (q := vset p axis (vget p axis + delta)).
  assert (Hq : vget q axis = vget p axis + delta)
    by (subst q; destruct Hax as [-> | [-> | ->]]; reflexivity).
  assert (Hsz : vget (m_grid_size voxels) axis
                = if axis =? 0 then nx else if axis =? 1 then ny else nz)
    by reflexivity.
  destruct ((vget q axis <? 0) || (vget (m_grid_size voxels) axis <=? vget q axis))
    eqn:Eout.
  - rewrite occupancy_out.
    + cbn. reflexivity.
    + apply orb_true_iff in Eout.
      rewrite Z.ltb_lt, Z.leb_le, Hsz in Eout.
      subst q. destruct Hax as [-> | [-> | ->]]; cbn in *; lia.
  - apply orb_false_iff in Eout as [E1 E2].
    apply Z.ltb_ge in E1. apply Z.leb_gt in E2. rewrite Hsz in E2.
    assert (Hin : 0 <= c0 q < nx /\ 0 <= c1 q < ny /\ 0 <= c2 q < nz)
      by (subst q; destruct Hax as [-> | [-> | ->]]; cbn in *; lia).
    destruct Hin as (A' & B' & C').
    destruct (occupancy_in q A' B' C') as (v & Ho & Hv).
    rewrite Ho, (vector_at_linear q v A' B' C' Hv). cbn.
    destruct (v =? 0); [reflexivity|]. now rewrite app_nil_r.
Qed.

Lemma emit_voxel_ok idx t :
  0 <= idx < nx * ny * nz ->
  emit_voxel voxels idx t
  = Ok (t ++ voxel_facets voxels (cell_of (m_grid_size voxels) idx)).
Proof.
  intros Hidx. unfold emit_voxel, voxel_facets.
  rewrite index3_from_index_cell by assumption.
  destruct (cell_of_range idx Hidx) as (A & B & C & D).
  set (p := cell_of (m_grid_size voxels) idx) in *. cbv zeta in A, B, C, D.
  destruct (occupancy_in p A B C) as (v & Ho & Hv).
  rewrite Ho. rewrite D in Hv.
  unfold vector_at at 1. destruct (Z.ltb_spec idx 0); [lia|]. rewrite Hv. cbn.
  destruct (v =? 0); [now rewrite app_nil_r|].
  unfold grid_size.
  set (cs := corners p (vadd (m_grid_size voxels) (Vec3i 1 1 1))).
  pose proof (fun ax dl v1 v2 v3 v4 t' Hax Hd =>
    check_facet_ok p cs ax dl v1 v2 v3 v4 t' A B C Hax Hd) as K.
  unfold grid_size in K.
  rewrite K by auto. cbn.
  rewrite K by auto. cbn.
  rewrite K by auto. cbn.
  rewrite K by auto. cbn.
  rewrite K by auto. cbn.
  rewrite K by auto.
  rewrite <- !app_assoc, app_nil_r. reflexivity.
Qed.

Lemma run_over_emit n : forall lo t,
  0 <= lo -> lo + Z.of_nat n <= nx * ny * nz ->
  run_over (emit_voxel voxels) (steps lo 1 n) t
  = Ok (t ++ flat_map (fun idx => voxel_facets voxels (cell_of (m_grid_size voxels) idx))
                      (steps lo 1 n)).
Proof.
  induction n as [|n IH]; intros lo t H1 H2; cbn [steps run_over flat_map].
  - now rewrite app_nil_r.
  - rewrite emit_voxel_ok by lia. cbn.
    rewrite IH by lia. now rewrite <- app_assoc.
Qed.

Lemma emit_triangles_ok :
  emit_triangles voxels
  = Ok (flat_map (fun idx => voxel_facets voxels (cell_of (m_grid_size voxels) idx))
                 (steps 0 1 (Z.to_nat (nx * ny * nz)))).
Proof.
  unfold emit_triangles. rewrite num_voxels_exact.
  assert (0 <= nx * ny * nz) by nia.
  rewrite (for_loop_steps 1 _ _ _ (Z.to_nat (nx * ny * nz))); try lia.
  - rewrite run_over_emit by lia. reflexivity.
  - intros j Hj. split; [lia|]. rewrite int_add_1 by lia. lia.
Qed.

End Extraction.

(** ** The vertex ids of [triangle_mesh_dump] *)

Lemma vector_at_lookup {A} (l : list A) c v :
  0 <= c -> l !! Z.to_nat c = Some v -> vector_at l c = Ok v.
Proof.
  intros Hc E. unfold vector_at. destruct (Z.ltb_spec c 0); [lia|]. now rewrite E.
Qed.

Lemma first_seen_from_prefix l : forall seen,
  exists tl, first_seen_from seen l = seen ++ tl.
Proof.
  induction l as [|c l IH]; intros seen; cbn [first_seen_from].
  - exists []. now rewrite app_nil_r.
  - destruct (bool_decide (c ∈ seen)); [apply IH|].
    destruct (IH (seen ++ [c])) as [tl E]. exists (c :: tl).
    rewrite E, <- app_assoc. reflexivity.
Qed.

Lemma first_seen_from_elem l : forall seen c,
  c ∈ first_seen_from seen l <-> c ∈ seen \/ c ∈ l.
Proof.
  induction l as [|a l IH]; intros seen c; cbn [first_seen_from].
  - rewrite elem_of_nil. tauto.
  - rewrite elem_of_cons.
    destruct (bool_decide_reflect (a ∈ seen)) as [Hin|Hout].
    + rewrite IH. split; [tauto|]. intros [H|[->|H]]; auto.
    + rewrite IH, elem_of_app, list_elem_of_singleton. tauto.
Qed.

Section Dedup.

Variable num_nodes : Z.
Hypothesis Hnodes : 0 <= num_nodes <= int_max.

Lemma seen_length seen :
  NoDup seen -> (forall c, c ∈ seen -> 0 <= c < num_nodes) ->
  Z.of_nat (length seen) <= num_nodes.
Proof.
  intros Hnd Hr.
  assert (Hs : seen ⊆+ seqZ 0 num_nodes).
  { apply NoDup_submseteq; [exact Hnd|]. intros c Hc.
    apply elem_of_seqZ. specialize (Hr c Hc). lia. }
  apply submseteq_length in Hs. rewrite length_seqZ in Hs. lia.
Qed.

Lemma ids_of_known seen node_id i c :
  ids_of num_nodes seen node_id -> seen !! i = Some c ->
  vector_at node_id c = Ok (Z.of_nat i) /\ Z.of_nat i <> -1.
Proof.
  intros (Hl & Hnd & Hr & Hk & Hu) Hi.
  pose proof (Hr c (list_elem_of_lookup_2 _ _ _ Hi)) as Hc.
  unfold vector_at. destruct (Z.ltb_spec c 0); [lia|].
  rewrite (Hk i c Hi). split; [reflexivity|lia].
Qed.

Lemma ids_of_fresh seen node_id c :
  ids_of num_nodes seen node_id -> 0 <= c < num_nodes -> c ∉ seen ->
  ids_of num_nodes (seen ++ [c]) (<[Z.to_nat c := Z.of_nat (length seen)]> node_id).
Proof.
  intros (Hl & Hnd & Hr & Hk & Hu) Hc Hout. unfold ids_of.
  rewrite length_insert. split; [exact Hl|]. split; [|split; [|split]].
  - apply NoDup_app. split; [exact Hnd|]. split; [|apply NoDup_singleton].
    intros a Ha Hs. apply list_elem_of_singleton in Hs. subst a. contradiction.
  - intros a Ha. apply elem_of_app in Ha as [Ha|Ha]; [auto|].
    apply list_elem_of_singleton in Ha. subst a. exact Hc.
  - intros i a Hi. apply lookup_snoc_Some in Hi as [[Hlt Hi]|[-> ->]].
    + assert (a <> c).
      { intros ->. apply Hout. eapply list_elem_of_lookup_2; eassumption. }
      pose proof (Hr a (list_elem_of_lookup_2 _ _ _ Hi)) as Hra.
      rewrite list_lookup_insert_ne by lia. auto.
    + apply list_lookup_insert_eq. lia.
  - intros a Ha Hna. rewrite elem_of_app, list_elem_of_singleton in Hna.
    rewrite list_lookup_insert_ne by lia. apply Hu; tauto.
Qed.

Lemma assign_ids_ok tris : forall seen node_id,
  ids_of num_nodes seen node_id ->
  Forall (fun c => 0 <= c < num_nodes) tris ->
  exists tris' node_id',
    assign_ids tris node_id (Z.of_nat (length seen))
    = Ok (tris', node_id', Z.of_nat (length (first_seen_from seen tris))) /\
    ids_of num_nodes (first_seen_from seen tris) node_id' /\
    Forall2 (remapped (first_seen_from seen tris)) tris tris'.
Proof.
  induction tris as [|c rest IH]; intros seen node_id Hids Hall.
  - exists [], node_id. cbn. split; [reflexivity|]. split; [exact Hids|constructor].
  - apply Forall_cons in Hall as [Hc Hall].
    cbn [assign_ids first_seen_from].
    destruct (bool_decide_reflect (c ∈ seen)) as [Hin|Hout].
    + apply list_elem_of_lookup_1 in Hin as [i Hi].
      destruct (ids_of_known seen node_id i c Hids Hi) as [Hat Hne].
      rewrite Hat. cbn.
      destruct (Z.eqb_spec (Z.of_nat i) (-1)) as [|_]; [contradiction|]. cbn.
      rewrite Hat. cbn.
      destruct (IH seen node_id Hids Hall) as (tr & nid & E & Hids' & Hmap).
      rewrite E. cbn. exists (wrap_index (Z.of_nat i) :: tr), nid.
      split; [reflexivity|]. split; [exact Hids'|].
      constructor; [|exact Hmap].
      destruct (first_seen_from_prefix rest seen) as [tl Etl].
      exists i. rewrite Etl. split; [now apply lookup_app_l_Some|].
      apply wrap_index_small.
      pose proof (lookup_lt_Some _ _ _ Hi).
      destruct Hids as (_ & Hnd & Hr & _).
      pose proof (seen_length seen Hnd Hr). unfold int_max in *. lia.
    + destruct Hids as (Hl & Hnd & Hr & Hk & Hu).
      pose proof (seen_length seen Hnd Hr) as Hsl.
      assert (Hfresh : ids_of num_nodes (seen ++ [c])
                         (<[Z.to_nat c := Z.of_nat (length seen)]> node_id))
        by (apply ids_of_fresh; unfold ids_of; auto).
      assert (Hlt : Z.of_nat (length seen) < num_nodes).
      { destruct Hfresh as (_ & Hnd' & Hr' & _).
        pose proof (seen_length _ Hnd' Hr') as Hs'.
        rewrite length_app in Hs'. cbn in Hs'. lia. }
      rewrite (vector_at_lookup node_id c (-1)) by (auto; lia). cbn.
      unfold vector_set.
      assert (Hb : (0 <=? c) && (c <? Z.of_nat (length node_id)) = true).
      { apply andb_true_iff. split; [apply Z.leb_le|apply Z.ltb_lt]; lia. }
      rewrite Hb. cbn.
      assert (Hi : (seen ++ [c]) !! length seen = Some c)
        by (apply list_lookup_middle; reflexivity).
      destruct (ids_of_known _ _ _ c Hfresh Hi) as [Hat _].
      rewrite Hat. cbn.
      assert (Hnv : int_add (Z.of_nat (length seen)) 1
                    = Z.of_nat (length (seen ++ [c]))).
      { rewrite length_app. cbn. rewrite int_add_1 by lia. lia. }
      rewrite Hnv.
      destruct (IH (seen ++ [c]) _ Hfresh Hall) as (tr & nid & E & Hids' & Hmap).
      rewrite E. cbn. exists (wrap_index (Z.of_nat (length seen)) :: tr), nid.
      split; [reflexivity|]. split; [exact Hids'|].
      constructor; [|exact Hmap].
      destruct (first_seen_from_prefix rest (seen ++ [c])) as [tl Etl].
      exists (length seen). rewrite Etl. split; [now apply lookup_app_l_Some|].
      apply wrap_index_small. unfold int_max in *. lia.
Qed.

End Dedup.

Section Points.

Variable num_nodes : Z.
Variable node_size : vec3i.
Variables order node_id : list Z.
Hypothesis Hnodes : 0 <= num_nodes <= int_max.
Hypothesis Hsize : 0 < c0 node_size /\ 0 < c1 node_size.
Hypothesis Hids : ids_of num_nodes order node_id.

Lemma place_vertex_known (i : nat) c pts :
  order !! i = Some c -> length pts = length order ->
  place_vertex node_size node_id c pts
  = Ok (<[i := cell_of node_size c]> pts).
Proof.
  destruct Hids as (Hl & Hnd & Hr & Hk & Hu). intros Hi Hlen.
  pose proof (Hr c (list_elem_of_lookup_2 _ _ _ Hi)) as Hc.
  unfold place_vertex.
  rewrite (vector_at_lookup node_id c (Z.of_nat i)) by (auto; lia). cbn.
  destruct (Z.eqb_spec (Z.of_nat i) (-1)) as [|_]; [lia|]. cbn.
  rewrite index3_from_index_nonneg by (tauto || lia). cbn.
  pose proof (lookup_lt_Some _ _ _ Hi) as Hlt.
  unfold vector_set.
  assert (Hb : (0 <=? Z.of_nat i) && (Z.of_nat i <? Z.of_nat (length pts)) = true).
  { apply andb_true_iff. split; [apply Z.leb_le|apply Z.ltb_lt]; lia. }
  rewrite Hb, Nat2Z.id. reflexivity.
Qed.

Lemma place_vertex_unknown c pts :
  0 <= c < num_nodes -> c ∉ order -> place_vertex node_size node_id c pts = Ok pts.
Proof.
  destruct Hids as (Hl & Hnd & Hr & Hk & Hu). intros Hc Hout.
  unfold place_vertex.
  rewrite (vector_at_lookup node_id c (-1)) by (auto; lia). reflexivity.
Qed.

Lemma run_over_place n : forall lo pts,
  0 <= lo -> lo + Z.of_nat n <= num_nodes -> length pts = length order ->
  exists pts',
    run_over (place_vertex node_size node_id) (steps lo 1 n) pts = Ok pts' /\
    length pts' = length order /\
    forall (i : nat) c, order !! i = Some c ->
      pts' !! i = if bool_decide (lo <= c < lo + Z.of_nat n)
                  then Some (cell_of node_size c)
                  else pts !! i.
Proof.
  destruct Hids as (Hl & Hnd & Hr & Hk & Hu).
  induction n as [|n IH]; intros lo pts Hlo Hhi Hlen; cbn [steps run_over].
  - exists pts. split; [reflexivity|]. split; [exact Hlen|].
    intros i c Hi. rewrite bool_decide_eq_false_2 by lia. reflexivity.
  - destruct (decide (lo ∈ order)) as [Hin|Hout].
    + apply list_elem_of_lookup_1 in Hin as [i Hi].
      rewrite (place_vertex_known i lo pts Hi Hlen). cbn.
      pose proof (lookup_lt_Some _ _ _ Hi) as Hlt.
      destruct (IH (lo + 1) (<[i := cell_of node_size lo]> pts))
        as (pts' & E & Hlen' & Hp); try lia.
      { rewrite length_insert. exact Hlen. }
      exists pts'. split; [exact E|]. split; [exact Hlen'|].
      intros j c Hj. rewrite (Hp j c Hj).
      destruct (decide (c = lo)) as [->|Hne].
      * assert (j = i) by (eapply NoDup_lookup; eassumption). subst j.
        rewrite bool_decide_eq_false_2 by lia.
        rewrite bool_decide_eq_true_2 by lia.
        apply list_lookup_insert_eq. lia.
      * assert (i <> j) by (intros ->; congruence).
        rewrite list_lookup_insert_ne by assumption.
        destruct (decide (lo + 1 <= c < lo + 1 + Z.of_nat n)).
        -- rewrite !bool_decide_eq_true_2 by lia. reflexivity.
        -- rewrite !bool_decide_eq_false_2 by lia. reflexivity.
    + rewrite (place_vertex_unknown lo pts) by (auto; lia). cbn.
      destruct (IH (lo + 1) pts) as (pts' & E & Hlen' & Hp); try lia.
      exists pts'. split; [exact E|]. split; [exact Hlen'|].
      intros j c Hj. rewrite (Hp j c Hj).
      assert (c <> lo).
      { intros ->. apply Hout. eapply list_elem_of_lookup_2; eassumption. }
      destruct (decide (lo + 1 <= c < lo + 1 + Z.of_nat n)).
      * rewrite !bool_decide_eq_true_2 by lia. reflexivity.
      * rewrite !bool_decide_eq_false_2 by lia. reflexivity.
Qed.

Lemma create_points_ok :
  exists pts,
    create_points num_nodes node_size node_id (Z.of_nat (length order)) = Ok pts /\
    length pts = length order /\
    forall (i : nat) c, order !! i = Some c ->
      pts !! i = Some (cell_of node_size c).
Proof.
  unfold create_points.
  rewrite (for_loop_steps 1 _ _ _ (Z.to_nat num_nodes)); try lia.
  2:{ intros j Hj. split; [lia|]. rewrite int_add_1 by lia. lia. }
  destruct (run_over_place (Z.to_nat num_nodes) 0
              (replicate (Z.to_nat (Z.of_nat (length order))) (Vec3i 0 0 0)))
    as (pts & E & Hlen & Hp); try lia.
  { rewrite length_replicate. lia. }
  exists pts. split; [exact E|]. split; [exact Hlen|].
  intros i c Hi. rewrite (Hp i c Hi).
  destruct Hids as (_ & _ & Hr & _).
  pose proof (Hr c (list_elem_of_lookup_2 _ _ _ Hi)).
  rewrite bool_decide_eq_true_2 by lia. reflexivity.
Qed.

End Points.

(** C8: on a lattice of [num_nodes] nodes (a count that fits an [int],
    on a lattice at least one node wide and deep) and a raw triangle list
    [tris] of corner indices of that lattice, the pass over the list
    returns; with [first_seen tris] the corners of the list in the order
    in which they are first met,
    - the number of output vertices is the number of these corners;
    - the corner met in place [i] (counted from 0) has the id [i], and no
      other corner has it;
    - a corner that no triangle refers to keeps [-1] and is given no
      vertex: the vertex list has one entry per corner met, the entry [i]
      being the lattice position of the corner of id [i];
    - every reference of the triangle list is replaced by the id of its
      corner. *)
Theorem vertex_ids_assigned num_nodes node_size tris :
  0 <= num_nodes <= int_max ->
  0 < c0 node_size /\ 0 < c1 node_size ->
  Forall (fun c => 0 <= c < num_nodes) tris ->
  exists tris' node_id pts,
    assign_vertex_ids num_nodes tris
    = Ok (tris', node_id, Z.of_nat (length (first_seen tris))) /\
    NoDup (first_seen tris) /\
    (forall c, c ∈ first_seen tris <-> c ∈ tris) /\
    (forall (i : nat) c, first_seen tris !! i = Some c ->
       node_id !! Z.to_nat c = Some (Z.of_nat i)) /\
    (forall c, 0 <= c < num_nodes -> c ∉ tris -> node_id !! Z.to_nat c = Some (-1)) /\
    Forall2 (remapped (first_seen tris)) tris tris' /\
    create_points num_nodes node_size node_id (Z.of_nat (length (first_seen tris)))
    = Ok pts /\
    length pts = length (first_seen tris) /\
    (forall (i : nat) c, first_seen tris !! i = Some c ->
       pts !! i = Some (cell_of node_size c)).
Proof.
  intros Hnodes Hsize Hall.
  assert (H0 : ids_of num_nodes [] (replicate (Z.to_nat num_nodes) (-1))).
  { unfold ids_of. rewrite length_replicate.
    split; [lia|]. split; [constructor|]. split; [|split].
    - intros c Hc. apply elem_of_nil in Hc. contradiction.
    - intros i c Hi. discriminate Hi.
    - intros c Hc _. apply lookup_replicate_2. lia. }
  destruct (assign_ids_ok num_nodes Hnodes tris [] _ H0 Hall)
    as (tris' & node_id & E & Hids & Hmap).
  destruct (create_points_ok num_nodes node_size _ _ Hnodes Hsize Hids)
    as (pts & Ep & Hlen & Hp).
  exists tris', node_id, pts.
  pose proof Hids as (Hl & Hnd & Hr & Hk & Hu).
  split; [exact E|]. split; [exact Hnd|].
  assert (Hel : forall c, c ∈ first_seen tris <-> c ∈ tris).
  { intros c. unfold first_seen. split; intros H.
    - apply first_seen_from_elem in H as [H|H]; [|exact H].
      apply elem_of_nil in H. contradiction.
    - apply first_seen_from_elem. right. exact H. }
  split; [exact Hel|]. split; [exact Hk|].
  split; [intros c Hc Hn; apply Hu; [exact Hc|]; now rewrite Hel|].
  split; [exact Hmap|]. split; [exact Ep|]. split; [exact Hlen|exact Hp].
Qed.

Lemma vertex_ids_assigned_witness :
  exists tris' node_id pts,
    assign_vertex_ids 5 [3; 1; 3; 2; 1] = Ok (tris', node_id, 3) /\
    node_id !! 3%nat = Some 0 /\ node_id !! 0%nat = Some (-1) /\
    create_points 5 (Vec3i 2 2 2) node_id 3 = Ok pts /\ length pts = 3%nat.
Proof.
  destruct (vertex_ids_assigned 5 (Vec3i 2 2 2) [3; 1; 3; 2; 1])
    as (tris' & node_id & pts & E & _ & _ & Hk & Hu & _ & Ep & Hlen & _).
  - unfold int_max. lia.
  - cbn. lia.
  - repeat constructor; lia.
  - exists tris', node_id, pts.
    split; [exact E|]. split; [exact (Hk 0%nat 3 eq_refl)|].
    split; [|split; [exact Ep|exact Hlen]].
    apply (Hu 0); [lia|]. intros H. 
    repeat (apply elem_of_cons in H as [H|H]; [discriminate H|]).
    apply elem_of_nil in H. exact H.
Defined.

(** ** The raw volume *)

Section Preserved.

Context {S : Type}.
Variable P : S -> Prop.

Lemma for_loop_preserves fuel next hi (body : Z -> S -> outcome S) :
  (forall i s s', P s -> body i s = Ok s' -> P s') ->
  forall i s s', P s -> for_loop fuel next i hi body s = Ok s' -> P s'.
Proof.
  intros Hbody. induction fuel as [|fuel IH]; intros i s s' Hs; cbn [for_loop];
    destruct (i <? hi); try discriminate; try (intros [= <-]; exact Hs).
  destruct (body i s) as [s1| | |] eqn:E; try discriminate.
  cbn. apply IH. exact (Hbody i s s1 Hs E).
Qed.

End Preserved.

Lemma flip_binary v : v = 0 \/ v = 1 -> flip v = 0 \/ flip v = 1.
Proof. intros [->| ->]; [right|left]; reflexivity. Qed.

Lemma flip_body_binary size x y z data data' :
  binary data -> flip_body size x y z data = Ok data' -> binary data'.
Proof.
  unfold flip_body, binary. intros Hb.
  destruct (geo_assert _); try discriminate. rewrite bind_Ok.
  unfold vector_at. destruct (_ <? 0); try discriminate.
  destruct (data !! _) as [v|] eqn:E; try discriminate. rewrite bind_Ok.
  unfold vector_set. destruct (_ && _); try discriminate.
  intros [= <-]. apply Forall_insert; [exact Hb|].
  apply flip_binary. exact (proj1 (Forall_lookup _ _) Hb _ _ E).
Qed.

(** The flips of a column keep a grid of zeros and ones a grid of zeros
    and ones. *)
Lemma column_flips_binary size origin_z spacing x y inter data data' :
  binary data ->
  column_flips size origin_z spacing x y inter data = Ok data' -> binary data'.
Proof.
  unfold column_flips. apply for_loop_preserves.
  intros k s s' Hs. unfold pair_body.
  destruct (vector_at inter (k - 1)); try discriminate. cbn.
  destruct (vector_at inter k); try discriminate. cbn.
  unfold flip_span. apply for_loop_preserves; [|exact Hs].
  intros z d d'. apply flip_body_binary.
Qed.

(** [compute_sign] leaves zeros and ones in a grid of zeros and ones, such
    as the grid of zeros that the constructor of [VoxelGrid] makes. *)
Lemma compute_sign_binary crossings voxels data' :
  binary (m_data voxels) -> compute_sign crossings voxels = Ok data' -> binary data'.
Proof.
  unfold compute_sign. apply for_loop_preserves.
  intros y d d' Hd. apply for_loop_preserves; [|exact Hd].
  intros x e e'. apply column_flips_binary.
Qed.

(** What [paraview_dump] writes for a grid whose voxel count fits an
    [int]: the header, with the element type [MET_CHAR], and the buffer
    itself, one byte per voxel in the order of the linear index. *)
Lemma paraview_dump_spec basename voxels :
  0 <= c0 (m_grid_size voxels) ->
  0 <= c1 (m_grid_size voxels) ->
  0 <= c2 (m_grid_size voxels) ->
  c0 (m_grid_size voxels) * c1 (m_grid_size voxels) <= int_max ->
  c0 (m_grid_size voxels) * c1 (m_grid_size voxels) * c2 (m_grid_size voxels)
    <= int_max ->
  Z.of_nat (length (m_data voxels))
    = c0 (m_grid_size voxels) * c1 (m_grid_size voxels) * c2 (m_grid_size voxels) ->
  exists d,
    paraview_dump basename voxels = Ok d /\
    mhd_name d = (basename ++ ".mhd")%string /\
    raw_name d = (basename ++ ".raw")%string /\
    mhd_text d =
      ("ObjectType = Image" ++ newline ++ "NDims = 3" ++ newline
       ++ "DimSize = " ++ print_int (c0 (m_grid_size voxels)) ++ " "
       ++ print_int (c1 (m_grid_size voxels)) ++ " "
       ++ print_int (c2 (m_grid_size voxels)) ++ newline
       ++ "ElementType = MET_CHAR" ++ newline
       ++ "ElementDataFile = " ++ basename ++ ".raw" ++ newline)%string /\
    raw_bytes d = m_data voxels /\
    Z.of_nat (length (raw_bytes d))
    = c0 (m_grid_size voxels) * c1 (m_grid_size voxels) * c2 (m_grid_size voxels) /\
    (forall p, occupancy voxels p <> None ->
       raw_bytes d !! Z.to_nat (linear (c0 p) (c1 p) (c2 p)
                                  (c0 (m_grid_size voxels)) (c1 (m_grid_size voxels)))
       = occupancy voxels p) /\
    (binary (m_data voxels) -> binary (raw_bytes d)).
Proof.
  intros Hnx Hny Hnz Hfit2 Hfit Hlen. unfold paraview_dump.
  rewrite (num_voxels_exact voxels), Z.mul_1_r by assumption.
  assert (Hb : (0 <=? c0 (m_grid_size voxels) * c1 (m_grid_size voxels)
                      * c2 (m_grid_size voxels))
               && (c0 (m_grid_size voxels) * c1 (m_grid_size voxels)
                   * c2 (m_grid_size voxels) <=? Z.of_nat (length (m_data voxels)))
               = true).
  { apply andb_true_iff. split; apply Z.leb_le; [nia|lia]. }
  rewrite Hb. eexists. split; [reflexivity|]. cbn [mhd_name raw_name mhd_text raw_bytes].
  assert (Ht : take (Z.to_nat (c0 (m_grid_size voxels) * c1 (m_grid_size voxels)
                               * c2 (m_grid_size voxels))) (m_data voxels)
               = m_data voxels) by (apply take_ge; lia).
  rewrite Ht. unfold grid_size.
  split; [reflexivity|]. split; [reflexivity|].
  split; [reflexivity|].
  split; [reflexivity|]. split; [exact Hlen|]. split; [|auto].
  clear Hb. intros p Hp. unfold occupancy in *.
  destruct (_ && _); [reflexivity|contradiction].
Qed.

(** C6: the header that [paraview_dump] writes declares the element type
    [MET_CHAR], which the MetaImage format reads as a signed char, while
    the buffer holds [unsigned char] ([num_t]) and the element type of
    the claim is an unsigned byte, [MET_UCHAR] in that format. Here on a
    full 2 x 2 x 2 grid saved as "output"; the rest of the header and the
    eight bytes of the raw file are as the claim says. *)
Theorem paraview_dump_element_type :
  choose_writer ["obj"; "mesh"; "ply"; "stl"]%string "output" = ParaviewDump /\
  paraview_dump "output"
    {| m_data := replicate 8 1; m_origin := (dzero, dzero, dzero);
       m_spacing := double_of_int 1; m_grid_size := Vec3i 2 2 2 |}
  = Ok {| mhd_name := "output.mhd";
          mhd_text := ("ObjectType = Image" ++ newline
                       ++ "NDims = 3" ++ newline
                       ++ "DimSize = 2 2 2" ++ newline
                       ++ "ElementType = MET_CHAR" ++ newline
                       ++ "ElementDataFile = output.raw" ++ newline)%string;
          raw_name := "output.raw";
          raw_bytes := [1; 1; 1; 1; 1; 1; 1; 1] |}.
Proof. split; vm_compute; reflexivity. Qed.

(** ** From the triangle list to the vertex ids *)

Lemma nth_in_range {A} (P : A -> Prop) (l : list A) d : forall i,
  P d -> Forall P l -> P (nth i l d).
Proof.
  induction l as [|a l IH]; intros i Hd Hl; destruct i; cbn; try assumption.
  - now apply Forall_cons in Hl.
  - apply IH; [assumption|]. now apply Forall_cons in Hl.
Qed.

Section CornerRange.

Variable voxels : VoxelGrid.
Let nx := c0 (m_grid_size voxels).
Let ny := c1 (m_grid_size voxels).
Let nz := c2 (m_grid_size voxels).
Let nodes := (nx + 1) * (ny + 1) * (nz + 1).
Hypothesis Hnx : 0 <= nx.
Hypothesis Hny : 0 <= ny.
Hypothesis Hnz : 0 <= nz.
Hypothesis Hnodes : nodes <= int_max.

Lemma node_size_exact :
  vadd (m_grid_size voxels) (Vec3i 1 1 1) = Vec3i (nx + 1) (ny + 1) (nz + 1).
Proof.
  assert (A : nx + 1 <= nodes /\ ny + 1 <= nodes /\ nz + 1 <= nodes)
    by (subst nodes; nia).
  unfold vadd, int_add. cbn [c0 c1 c2]. fold nx ny nz.
  rewrite !wrap_int_small by (unfold in_int, int_min, int_max in *; lia).
  reflexivity.
Qed.

Lemma corners_in_range p :
  0 <= c0 p < nx -> 0 <= c1 p < ny -> 0 <= c2 p < nz ->
  Forall (fun c => 0 <= c < nodes)
         (corners p (vadd (m_grid_size voxels) (Vec3i 1 1 1))).
Proof.
  intros A B C. rewrite node_size_exact. unfold corners.
  apply Forall_map, Forall_forall. intros o Ho. cbn beta.
  assert (Hn : nx + 1 <= nodes /\ ny + 1 <= nodes /\ nz + 1 <= nodes)
    by (subst nodes; nia).
  assert (Hoff : (c0 o = 0 \/ c0 o = 1) /\ (c1 o = 0 \/ c1 o = 1)
                 /\ (c2 o = 0 \/ c2 o = 1)).
  { unfold corner_offsets in Ho.
    repeat (apply elem_of_cons in Ho as [-> | Ho]; [cbn; lia|]).
    apply elem_of_nil in Ho. contradiction. }
  assert (Hv : vadd p o = Vec3i (c0 p + c0 o) (c1 p + c1 o) (c2 p + c2 o)).
  { unfold vadd, int_add.
    rewrite !wrap_int_small by (unfold in_int, int_min, int_max in *; lia).
    reflexivity. }
  rewrite Hv.
  pose proof (linear_lt (c0 p + c0 o) (c1 p + c1 o) (c2 p + c2 o)
                (nx + 1) (ny + 1) (nz + 1) ltac:(lia) ltac:(lia) ltac:(lia)) as Hl.
  fold nodes in Hl.
  rewrite index_from_index3_exact by lia.
  rewrite wrap_index_small by (unfold int_max in *; lia). exact Hl.
Qed.

Lemma voxel_facets_in_range p :
  Forall (fun c => 0 <= c < nodes) (voxel_facets voxels p).
Proof.
  unfold voxel_facets.
  destruct (occupancy voxels p) as [v|] eqn:Eo; [|constructor].
  destruct (v =? 0); [constructor|].
  assert (Hp : 0 <= c0 p < nx /\ 0 <= c1 p < ny /\ 0 <= c2 p < nz).
  { unfold occupancy in Eo. fold nx ny nz in Eo.
    destruct (_ && _) eqn:E; [|discriminate].
    repeat (apply andb_true_iff in E as [E ?]).
    repeat match goal with
           | H : (_ <=? _) = true |- _ => apply Z.leb_le in H
           | H : (_ <? _) = true |- _ => apply Z.ltb_lt in H
           end. lia. }
  destruct Hp as (A & B & C).
  pose proof (corners_in_range p A B C) as Hc.
  assert (H0 : 0 <= 0 < nodes) by (subst nodes; nia).
  assert (Hq : forall v1 v2 v3 v4,
             Forall (fun c => 0 <= c < nodes)
                    (quad (corners p (vadd (m_grid_size voxels) (Vec3i 1 1 1)))
                          v1 v2 v3 v4)).
  { intros v1 v2 v3 v4. unfold quad, corner. cbn [app].
    repeat (constructor; [apply nth_in_range; assumption|]).
    constructor. }
  apply Forall_flat_map, Forall_forall. intros d _.
  destruct (neighbor_empty voxels p (f_axis d) (f_delta d)); [apply Hq|constructor].
Qed.

Lemma flat_map_facets_in_range l :
  Forall (fun c => 0 <= c < nodes)
    (flat_map (fun idx => voxel_facets voxels (cell_of (m_grid_size voxels) idx)) l).
Proof.
  apply Forall_flat_map, Forall_forall. intros idx _. apply voxel_facets_in_range.
Qed.

End CornerRange.

(** The triangle list handed to the pass on the vertex ids refers to
    corners of the node lattice only, when the node count fits an [int]. *)
Lemma emit_triangles_in_range voxels tris :
  0 <= c0 (m_grid_size voxels) ->
  0 <= c1 (m_grid_size voxels) ->
  0 <= c2 (m_grid_size voxels) ->
  (c0 (m_grid_size voxels) + 1) * (c1 (m_grid_size voxels) + 1)
    * (c2 (m_grid_size voxels) + 1) <= int_max ->
  Z.of_nat (length (m_data voxels))
    = c0 (m_grid_size voxels) * c1 (m_grid_size voxels) * c2 (m_grid_size voxels) ->
  emit_triangles voxels = Ok tris ->
  Forall (fun c => 0 <= c < (c0 (m_grid_size voxels) + 1)
                           * (c1 (m_grid_size voxels) + 1)
                           * (c2 (m_grid_size voxels) + 1)) tris.
Proof.
  intros Hnx Hny Hnz Hnodes Hlen.
  rewrite (emit_triangles_ok voxels) by (assumption || nia).
  intros [= <-]. apply flat_map_facets_in_range; assumption.
Qed.


(** * Further properties of the code *)

(** ** [orientation] and [point_in_triangle_2d] *)

Section Antisymmetry.

Lemma binary_round_aux_opp s m e l :
  binary_round_aux prec emax (negb s) m e l
  = SFopp (binary_round_aux prec emax s m e l).
Proof.
  unfold binary_round_aux.
  destruct (shr_fexp prec emax m e l) as [mrs' e'].
  destruct (shr_fexp prec emax _ e' loc_Exact) as [mrs'' e''].
  destruct (shr_m mrs''); try reflexivity.
  destruct (e'' <=? emax - prec); reflexivity.
Qed.

Lemma binary_round_opp s m e :
  binary_round prec emax (negb s) m e = SFopp (binary_round prec emax s m e).
Proof.
  unfold binary_round. destruct (shl_align _ _ _) as [mz ez].
  apply binary_round_aux_opp.
Qed.

Lemma cls_opp x : cls (SFopp x) = opp_cls (cls x).
Proof. destruct x as [s|s| |s m e]; try destruct s; reflexivity. Qed.

Lemma binary_normalize_opp m e :
  cls (binary_normalize prec emax (- m) e false)
  = opp_cls (cls (binary_normalize prec emax m e false)).
Proof.
  destruct m as [|m|m]; try reflexivity.
  - change (cls (binary_round prec emax (negb false) m e)
            = opp_cls (cls (binary_round prec emax false m e))).
    rewrite binary_round_opp. apply cls_opp.
  - change (cls (binary_round prec emax false m e)
            = opp_cls (cls (binary_round prec emax (negb false) m e))).
    rewrite binary_round_opp, cls_opp.
    now destruct (cls (binary_round prec emax false m e)).
Qed.

Lemma dsub_swap_cls p q : cls (dsub q p) = opp_cls (cls (dsub p q)).
Proof.
  destruct p as [sp|sp| |sp mp ep], q as [sq|sq| |sq mq eq];
    try reflexivity;
    try (destruct sp, sq; reflexivity);
    try (destruct sp; reflexivity); try (destruct sq; reflexivity).
  unfold dsub, SFsub. rewrite (Z.min_comm eq ep).
  rewrite <- binary_normalize_opp. f_equal. f_equal. lia.
Qed.

Lemma dlt_asym a b : dlt a b = true -> dlt b a = false.
Proof.
  destruct (is_nan a) eqn:Na; [destruct a; discriminate|].
  destruct (is_nan b) eqn:Nb; [destruct a, b; discriminate|].
  intros H. apply dlt_key in H; try assumption.
  destruct (dlt_reflect b a Nb Na) as [[_ K]|[E _]]; [|exact E].
  exfalso. exact (klt_asym _ _ H K).
Qed.

Lemma sos_sign_swap x1 y1 x2 y2 :
  sos_sign x2 y2 x1 y1 = - sos_sign x1 y1 x2 y2.
Proof.
  unfold sos_sign, dgt.
  pose proof (dlt_asym y1 y2) as A1. pose proof (dlt_asym y2 y1) as A2.
  pose proof (dlt_asym x1 x2) as A3. pose proof (dlt_asym x2 x1) as A4.
  destruct (dlt y1 y2), (dlt y2 y1), (dlt x1 x2), (dlt x2 x1);
    try reflexivity;
    try (discriminate (A1 eq_refl)); try (discriminate (A2 eq_refl));
    try (discriminate (A3 eq_refl)); try (discriminate (A4 eq_refl)).
Qed.

End Antisymmetry.

(** X1: swapping the two end points negates the sign that [orientation]
    returns, for all doubles (NaN and infinities included): an edge walked
    in the two directions gets opposite signs, also when the sign comes
    from the fallback. *)
Theorem orientation_swap x1 y1 x2 y2 :
  (orientation x2 y2 x1 y1).1 = - (orientation x1 y1 x2 y2).1.
Proof.
  rewrite !orientation_unfold. cbn [fst]. unfold area.
  rewrite (dmul_comm y2 x1), (dmul_comm x2 y1).
  rewrite (dsub_swap_cls (dmul y1 x2) (dmul x1 y2)), sos_sign_swap.
  destruct (cls (dsub (dmul y1 x2) (dmul x1 y2))); cbn; lia.
Qed.

Section Verdict.

(** [point_in_triangle_2d] returns, and what it returns is [hit_test] on
    the translated coordinates. *)
Lemma point_in_triangle_2d_returns x0 y0 x1 y1 x2 y2 x3 y3 abc :
  exists out,
    point_in_triangle_2d x0 y0 x1 y1 x2 y2 x3 y3 abc
    = Ok (hit_test (dsub x1 x0) (dsub y1 y0) (dsub x2 x0) (dsub y2 y0)
                   (dsub x3 x0) (dsub y3 y0), out) /\
    (hit_test (dsub x1 x0) (dsub y1 y0) (dsub x2 x0) (dsub y2 y0)
              (dsub x3 x0) (dsub y3 y0) = true ->
     out = (let a := area (dsub x2 x0) (dsub y2 y0) (dsub x3 x0) (dsub y3 y0) in
            let b := area (dsub x3 x0) (dsub y3 y0) (dsub x1 x0) (dsub y1 y0) in
            let c := area (dsub x1 x0) (dsub y1 y0) (dsub x2 x0) (dsub y2 y0) in
            let sum := dadd (dadd a b) c in
            (ddiv a sum, ddiv b sum, ddiv c sum))).
Proof.
  destruct abc as [[a b] c]. unfold point_in_triangle_2d, hit_test.
  pose proof (agreeing_signs_sum
    (dsub x1 x0) (dsub y1 y0) (dsub x2 x0) (dsub y2 y0)
    (dsub x3 x0) (dsub y3 y0)) as Hsum.
  rewrite !orientation_unfold in *. cbn [fst snd] in *.
  match goal with |- context [(?s =? 0)] => set (signa := s) in * end.
  destruct (Z.eqb_spec signa 0) as [Za|Za]; cbn [negb andb].
  { eexists. split; [reflexivity|discriminate]. }
  match goal with |- context [negb (?s =? signa)] => set (signb := s) in * end.
  destruct (Z.eqb_spec signb signa) as [Zb|Zb]; cbn [negb andb].
  2:{ eexists. split; [reflexivity|discriminate]. }
  match goal with |- context [negb (?s =? signa)] => set (signc := s) in * end.
  destruct (Z.eqb_spec signc signa) as [Zc|Zc]; cbn [negb andb].
  2:{ eexists. split; [reflexivity|discriminate]. }
  specialize (Hsum signa Za eq_refl Zb Zc).
  destruct (dne _ dzero) eqn:E.
  - cbn. eexists. split; [reflexivity|]. intros _. reflexivity.
  - apply dne_zero_cls in E. contradiction.
Qed.

Lemma hit_test_rotate x1 y1 x2 y2 x3 y3 :
  hit_test x2 y2 x3 y3 x1 y1 = hit_test x1 y1 x2 y2 x3 y3.
Proof.
  unfold hit_test.
  set (a := (orientation x2 y2 x3 y3).1).
  set (b := (orientation x3 y3 x1 y1).1).
  set (c := (orientation x1 y1 x2 y2).1).
  destruct (Z.eqb_spec a 0), (Z.eqb_spec b 0), (Z.eqb_spec b a),
    (Z.eqb_spec c a), (Z.eqb_spec a b), (Z.eqb_spec c b);
    cbn; try reflexivity; lia.
Qed.

Lemma hit_test_swap x1 y1 x2 y2 x3 y3 :
  hit_test x1 y1 x3 y3 x2 y2 = hit_test x1 y1 x2 y2 x3 y3.
Proof.
  unfold hit_test.
  rewrite (orientation_swap x2 y2 x3 y3), (orientation_swap x1 y1 x2 y2),
    (orientation_swap x3 y3 x1 y1).
  set (a := (orientation x2 y2 x3 y3).1).
  set (b := (orientation x3 y3 x1 y1).1).
  set (c := (orientation x1 y1 x2 y2).1).
  destruct (Z.eqb_spec (- a) 0), (Z.eqb_spec a 0), (Z.eqb_spec b a),
    (Z.eqb_spec c a), (Z.eqb_spec (- c) (- a)), (Z.eqb_spec (- b) (- a));
    cbn; try reflexivity; lia.
Qed.

Lemma intersect_ray_z_found p1 p2 p3 q uvw :
  returned (intersect_ray_z p1 p2 p3 q uvw) = true /\
  crossing_found (intersect_ray_z p1 p2 p3 q uvw)
  = hit_test (dsub (vx p1) (vx q)) (dsub (vy p1) (vy q))
             (dsub (vx p2) (vx q)) (dsub (vy p2) (vy q))
             (dsub (vx p3) (vx q)) (dsub (vy p3) (vy q)).
Proof.
  unfold intersect_ray_z.
  destruct (point_in_triangle_2d_returns (vx q) (vy q) (vx p1) (vy p1)
              (vx p2) (vy p2) (vx p3) (vy p3) uvw) as (out & -> & _).
  cbn. destruct (hit_test _ _ _ _ _ _); [destruct out as [[u v] w]|]; auto.
Qed.

End Verdict.

(** X2: [intersect_ray_z] always returns (no assertion fires), and
    whether it finds a crossing does not depend on the order in which the
    three vertices of the facet are given: not on a rotation of them, not
    on the reversal of the facet. For all doubles. *)
Theorem intersect_ray_z_vertex_order p1 p2 p3 q uvw uvw' :
  returned (intersect_ray_z p1 p2 p3 q uvw) = true /\
  crossing_found (intersect_ray_z p2 p3 p1 q uvw')
  = crossing_found (intersect_ray_z p1 p2 p3 q uvw) /\
  crossing_found (intersect_ray_z p1 p3 p2 q uvw')
  = crossing_found (intersect_ray_z p1 p2 p3 q uvw).
Proof.
  destruct (intersect_ray_z_found p1 p2 p3 q uvw) as [R ->].
  destruct (intersect_ray_z_found p2 p3 p1 q uvw') as [_ ->].
  destruct (intersect_ray_z_found p1 p3 p2 q uvw') as [_ ->].
  split; [exact R|]. split; [apply hit_test_rotate|apply hit_test_swap].
Qed.

Section DegenerateTriangles.

Lemma deq_refl z : is_nan z = false -> deq z z = true.
Proof. intros H. now apply deq_key. Qed.

Lemma dsub_alike x1 x2 x0 :
  deq x1 x2 = true -> alike (dsub x1 x0) (dsub x2 x0) = true.
Proof.
  intros D. destruct (deq_not_nan _ _ D) as [N1 N2].
  apply deq_key in D; try assumption.
  unfold alike.
  destruct (fkey_eq x1 x2 N1 N2 D) as [->|[Z1 Z2]].
  - destruct (is_nan (dsub x2 x0)) eqn:E; [reflexivity|].
    cbn. now apply deq_refl.
  - destruct x1 as [s1|s1| |s1 m1 e1]; try (destruct s1; discriminate);
      try discriminate.
    destruct x2 as [s2|s2| |s2 m2 e2]; try (destruct s2; discriminate);
      try discriminate.
    destruct x0 as [s0|s0| |s0 m0 e0]; try reflexivity.
    + destruct s1, s2, s0; reflexivity.
    + destruct s0; reflexivity.
    + cbn [dsub SFsub is_nan andb orb]. apply deq_refl. reflexivity.
Qed.

Lemma alike_no_lt a b : alike a b = true -> dlt a b = false /\ dlt b a = false.
Proof.
  unfold alike. intros H. apply orb_true_iff in H as [H|H].
  - apply andb_true_iff in H as [Ha Hb].
    destruct a; try discriminate. destruct b; try discriminate. auto.
  - destruct (deq_not_nan _ _ H) as [Na Nb].
    apply deq_key in H; try assumption.
    destruct (dlt_reflect a b Na Nb) as [[_ K]|[-> _]];
      [rewrite H in K; exfalso; exact (klt_asym _ _ K K)|].
    destruct (dlt_reflect b a Nb Na) as [[_ K]|[-> _]];
      [rewrite H in K; exfalso; exact (klt_asym _ _ K K)|].
    auto.
Qed.

Lemma alike_deq a b : alike a b = true -> is_nan a = false -> deq a b = true.
Proof.
  unfold alike. intros H Na. rewrite Na in H. exact H.
Qed.

Lemma orientation_alike_zero x1 y1 x2 y2 :
  alike x1 x2 = true -> alike y1 y2 = true -> (orientation x1 y1 x2 y2).1 = 0.
Proof.
  intros Ax Ay. rewrite orientation_unfold. cbn [fst].
  assert (Hs : sos_sign x1 y1 x2 y2 = 0).
  { unfold sos_sign, dgt.
    destruct (alike_no_lt _ _ Ax) as [-> ->].
    destruct (alike_no_lt _ _ Ay) as [-> ->]. reflexivity. }
  assert (Hn : null_sign (area x1 y1 x2 y2) = true).
  { destruct (is_nan (area x1 y1 x2 y2)) eqn:E.
    - destruct (area x1 y1 x2 y2); try discriminate. reflexivity.
    - destruct (area_not_nan _ _ _ _ E) as (N1 & N2 & N3 & N4).
      pose proof (alike_deq _ _ Ax N1) as Dx.
      pose proof (alike_deq _ _ Ay N2) as Dy.
      apply deq_key in Dx; try assumption. apply deq_key in Dy; try assumption.
      now apply area_coincide. }
  unfold null_sign in Hn.
  destruct (cls (area x1 y1 x2 y2)); (discriminate || assumption).
Qed.

Lemma ddiv_not_neg x y :
  cls y <> CZero ->
  opposed (cls x) (cls y) = false -> cls (ddiv x y) <> CNeg.
Proof.
  destruct x as [sx|sx| |sx mx ex], y as [sy|sy| |sy my ey]; cbn [cls];
    try (destruct sx, sy; cbn; congruence);
    try (destruct sx; cbn; congruence); try (destruct sy; cbn; congruence);
    try (cbn; congruence).
  intros _ Ho. unfold ddiv, SFdiv.
  destruct (SFdiv_core_binary prec emax (Z.pos mx) ex (Z.pos my) ey) as [[mz ez] lz].
  pose proof (binary_round_aux_rounded (xorb sx sy) mz ez lz) as Hr.
  assert (Hx : xorb sx sy = false) by (destruct sx, sy; (reflexivity || discriminate Ho)).
  rewrite Hx in *.
  destruct (binary_round_aux prec emax false mz ez lz) as [s|s| |s m e];
    cbn in *; try congruence; [subst s | destruct Hr as [-> _]]; congruence.
Qed.

(** With agreeing non-zero signs no area and no sum opposes the sign. *)
Lemma agreeing_signs_classes x1 y1 x2 y2 x3 y3 s :
  s <> 0 ->
  (orientation x2 y2 x3 y3).1 = s ->
  (orientation x3 y3 x1 y1).1 = s ->
  (orientation x1 y1 x2 y2).1 = s ->
  let a := area x2 y2 x3 y3 in
  let b := area x3 y3 x1 y1 in
  let c := area x1 y1 x2 y2 in
  cls (dadd (dadd a b) c) <> CZero /\
  opposed (cls a) (cls (dadd (dadd a b) c)) = false /\
  opposed (cls b) (cls (dadd (dadd a b) c)) = false /\
  opposed (cls c) (cls (dadd (dadd a b) c)) = false.
Proof.
  intros Hs Ha Hb Hc.
  pose proof (agreeing_signs_sum x1 y1 x2 y2 x3 y3 s Hs Ha Hb Hc) as Hsum.
  revert Ha Hb Hc Hsum.
  rewrite !orientation_unfold. cbn [fst snd]. cbv zeta.
  pose proof (area_exp_ok x2 y2 x3 y3) as Oa.
  pose proof (area_exp_ok x3 y3 x1 y1) as Ob.
  pose proof (area_exp_ok x1 y1 x2 y2) as Oc.
  set (a := area x2 y2 x3 y3) in *.
  set (b := area x3 y3 x1 y1) in *.
  set (c := area x1 y1 x2 y2) in *.
  intros Ha Hb Hc.
  assert (Hab : opposed (cls a) (cls b) = false)
    by (destruct (cls a), (cls b); try reflexivity; lia).
  pose proof (dadd_cls a b Oa Ob Hab) as Eab.
  assert (Habc : opposed (cls (dadd a b)) (cls c) = false)
    by (rewrite Eab; destruct (cls a), (cls b), (cls c); try reflexivity; lia).
  rewrite (dadd_cls (dadd a b) c (dadd_exp_ok a b Oa Ob) Oc Habc), Eab.
  destruct (cls a), (cls b), (cls c); cbn; try lia; intros Hsum;
    repeat split; congruence.
Qed.

End DegenerateTriangles.

(** X3: a triangle two of whose vertices coincide ([==] on both
    coordinates) is never reported to contain the query point, whatever
    the point is. For all doubles. *)
Theorem repeated_vertex_never_hit x0 y0 x1 y1 x2 y2 x3 y3 abc :
  (deq x1 x2 && deq y1 y2) || (deq x2 x3 && deq y2 y3)
  || (deq x3 x1 && deq y3 y1) = true ->
  exists out, point_in_triangle_2d x0 y0 x1 y1 x2 y2 x3 y3 abc = Ok (false, out).
Proof.
  intros H.
  destruct (point_in_triangle_2d_returns x0 y0 x1 y1 x2 y2 x3 y3 abc)
    as (out & E & _).
  exists out. rewrite E. do 2 f_equal. unfold hit_test.
  assert (Hz : (orientation (dsub x1 x0) (dsub y1 y0) (dsub x2 x0) (dsub y2 y0)).1 = 0
            \/ (orientation (dsub x2 x0) (dsub y2 y0) (dsub x3 x0) (dsub y3 y0)).1 = 0
            \/ (orientation (dsub x3 x0) (dsub y3 y0) (dsub x1 x0) (dsub y1 y0)).1 = 0).
  { apply orb_true_iff in H as [H|H]; [apply orb_true_iff in H as [H|H]|];
      apply andb_true_iff in H as [Dx Dy];
      [left|right; left|right; right];
      apply orientation_alike_zero; apply dsub_alike; assumption. }
  set (a := (orientation (dsub x2 x0) (dsub y2 y0) (dsub x3 x0) (dsub y3 y0)).1) in *.
  set (b := (orientation (dsub x3 x0) (dsub y3 y0) (dsub x1 x0) (dsub y1 y0)).1) in *.
  set (c := (orientation (dsub x1 x0) (dsub y1 y0) (dsub x2 x0) (dsub y2 y0)).1) in *.
  destruct (Z.eqb_spec a 0), (Z.eqb_spec b a), (Z.eqb_spec c a);
    cbn; try reflexivity; lia.
Qed.

Lemma repeated_vertex_never_hit_witness :
  exists out,
    point_in_triangle_2d (double_of_int 0) (double_of_int 0)
      (double_of_int (-1)) (double_of_int (-1))
      (double_of_int (-1)) (double_of_int (-1))
      (double_of_int 1) (double_of_int 1) (dzero, dzero, dzero)
    = Ok (false, out).
Proof.
  apply (repeated_vertex_never_hit (double_of_int 0) (double_of_int 0)
           (double_of_int (-1)) (double_of_int (-1))
           (double_of_int (-1)) (double_of_int (-1))
           (double_of_int 1) (double_of_int 1)).
  vm_compute. reflexivity.
Defined.

(** X4: when the three twice-signed areas of the translated triangle all
    compare equal to zero (the projected triangle is flat and the query
    point lies on its line, as for a facet seen edge-on by the ray), the
    test returns [false]: such a facet gives no crossing. *)
Theorem flat_triangle_never_hit x0 y0 x1 y1 x2 y2 x3 y3 abc :
  deq (area (dsub x2 x0) (dsub y2 y0) (dsub x3 x0) (dsub y3 y0)) dzero = true ->
  deq (area (dsub x3 x0) (dsub y3 y0) (dsub x1 x0) (dsub y1 y0)) dzero = true ->
  deq (area (dsub x1 x0) (dsub y1 y0) (dsub x2 x0) (dsub y2 y0)) dzero = true ->
  exists out, point_in_triangle_2d x0 y0 x1 y1 x2 y2 x3 y3 abc = Ok (false, out).
Proof.
  intros Da Db Dc.
  destruct (point_in_triangle_2d_returns x0 y0 x1 y1 x2 y2 x3 y3 abc)
    as (out & E & _).
  exists out. rewrite E. do 2 f_equal.
  destruct (hit_test _ _ _ _ _ _) eqn:Hh; [exfalso|reflexivity].
  unfold hit_test in Hh.
  apply andb_true_iff in Hh as [Hh Hc]. apply andb_true_iff in Hh as [Ha Hb].
  apply negb_true_iff, Z.eqb_neq in Ha. apply Z.eqb_eq in Hb, Hc.
  assert (Za : forall v, deq v dzero = true -> cls v = CZero).
  { intros v Hv. apply dne_zero_cls. unfold dne. now rewrite Hv. }
  apply Za in Da, Db, Dc.
  rewrite !orientation_unfold in *. cbn [fst] in *.
  rewrite Da in Ha, Hb, Hc. rewrite Db in Hb. rewrite Dc in Hc.
  destruct (area_not_nan _ _ _ _ (cls_zero_not_nan _ Da)) as (? & ? & ? & ?).
  destruct (area_not_nan _ _ _ _ (cls_zero_not_nan _ Db)) as (? & ? & ? & ?).
  eapply (sos_sign_no_cycle (dsub x1 x0) (dsub y1 y0) (dsub x2 x0) (dsub y2 y0)
            (dsub x3 x0) (dsub y3 y0)); eauto.
Qed.

(** The query point [(1,1)] on the line through [(0,0)], [(2,2)], [(3,3)]. *)
Lemma flat_triangle_never_hit_witness :
  exists out,
    point_in_triangle_2d (double_of_int 1) (double_of_int 1)
      (double_of_int 0) (double_of_int 0)
      (double_of_int 2) (double_of_int 2)
      (double_of_int 3) (double_of_int 3) (dzero, dzero, dzero)
    = Ok (false, out).
Proof.
  apply (flat_triangle_never_hit (double_of_int 1) (double_of_int 1)
           (double_of_int 0) (double_of_int 0)
           (double_of_int 2) (double_of_int 2)
           (double_of_int 3) (double_of_int 3)); vm_compute; reflexivity.
Defined.

(** X5: when [point_in_triangle_2d] returns [true], none of the three
    weights it writes compares below zero. For all doubles. *)
Theorem weights_not_negative x0 y0 x1 y1 x2 y2 x3 y3 abc u v w :
  point_in_triangle_2d x0 y0 x1 y1 x2 y2 x3 y3 abc = Ok (true, (u, v, w)) ->
  dlt u dzero = false /\ dlt v dzero = false /\ dlt w dzero = false.
Proof.
  destruct (point_in_triangle_2d_returns x0 y0 x1 y1 x2 y2 x3 y3 abc)
    as (out & E & Hout).
  rewrite E. intros [= Hh ->]. specialize (Hout Hh). cbv zeta in Hout.
  injection Hout as -> -> ->.
  unfold hit_test in Hh.
  apply andb_true_iff in Hh as [Hh Hc]. apply andb_true_iff in Hh as [Ha Hb].
  apply negb_true_iff, Z.eqb_neq in Ha. apply Z.eqb_eq in Hb, Hc.
  destruct (agreeing_signs_classes _ _ _ _ _ _ _ Ha eq_refl Hb Hc)
    as (Cs & Ca & Cb & Cc).
  assert (Hn : forall t, cls t <> CNeg -> dlt t dzero = false).
  { intros t Ht. destruct (dlt t dzero) eqn:D; [|reflexivity].
    apply dlt_zero_cls in D. contradiction. }
  repeat split; apply Hn, ddiv_not_neg; assumption.
Qed.

Lemma weights_not_negative_witness :
  exists u v w,
    point_in_triangle_2d (double_of_int 0) (double_of_int 0)
      (double_of_int (-1)) (double_of_int (-1))
      (double_of_int 1) (double_of_int (-1))
      (double_of_int 0) (double_of_int 1) (dzero, dzero, dzero)
    = Ok (true, (u, v, w)) /\
    dlt u dzero = false /\ dlt v dzero = false /\ dlt w dzero = false.
Proof.
  eexists _, _, _. split; [vm_compute; reflexivity|].
  apply (weights_not_negative (double_of_int 0) (double_of_int 0)
           (double_of_int (-1)) (double_of_int (-1))
           (double_of_int 1) (double_of_int (-1))
           (double_of_int 0) (double_of_int 1) (dzero, dzero, dzero)).
  vm_compute. reflexivity.
Defined.

(** ** The whole sweep *)

Lemma cell_of_bounds nx ny nz idx :
  0 <= idx < nx * ny * nz -> 0 <= nx -> 0 <= ny ->
  let p := cell_of (Vec3i nx ny nz) idx in
  0 <= c0 p < nx /\ 0 <= c1 p < ny /\ 0 <= c2 p < nz /\
  linear (c0 p) (c1 p) (c2 p) nx ny = idx.
Proof.
  intros Hidx Hnx Hny. unfold cell_of. cbn [c0 c1 c2].
  assert (Px : 0 < nx) by (destruct (Z.eq_dec nx 0) as [->|]; lia).
  assert (Py : 0 < ny) by (destruct (Z.eq_dec ny 0) as [->|]; lia).
  pose proof (Z.mod_pos_bound idx nx Px) as Bx.
  pose proof (Z.mod_pos_bound (idx / nx) ny Py) as By.
  pose proof (Z.div_mod idx nx ltac:(lia)) as Dx.
  pose proof (Z.div_mod (idx / nx) ny ltac:(lia)) as Dy.
  assert (Q1 : 0 <= idx / nx) by (apply Z.div_pos; lia).
  assert (Q2 : 0 <= idx / nx / ny) by (apply Z.div_pos; lia).
  assert (Q3 : idx / nx < ny * nz).
  { apply Z.div_lt_upper_bound; [lia|]. lia. }
  assert (Q4 : idx / nx / ny < nz).
  { apply Z.div_lt_upper_bound; lia. }
  unfold linear. repeat split; try lia.
Qed.

Lemma NoDup_steps n : forall lo, NoDup (steps lo 1 n).
Proof.
  induction n as [|n IH]; intros lo; cbn [steps]; constructor; [|apply IH].
  rewrite elem_of_steps_1. lia.
Qed.

Lemma iter_flip_zero n : Nat.iter n flip 0 = if Nat.odd n then 1 else 0.
Proof.
  induction n as [|n IH]; [reflexivity|].
  change (Nat.iter (S n) flip 0) with (flip (Nat.iter n flip 0)).
  rewrite IH, Nat.odd_succ, <- Nat.negb_odd.
  destruct (Nat.odd n); reflexivity.
Qed.

Section Sweep.

Variable crossings : Z -> Z -> list double.
Variable voxels : VoxelGrid.
Variables nx ny nz : Z.
Hypothesis Hsize : m_grid_size voxels = Vec3i nx ny nz.
Hypothesis Hnx : 0 <= nx <= int_max.
Hypothesis Hny : 0 <= ny <= int_max.
Hypothesis Hnz : 0 <= nz.
Hypothesis Hfit : nx * ny * nz <= int_max.
Variable data0 : list Z.
Hypothesis Hlen : Z.of_nat (length data0) = nx * ny * nz.

Lemma flipped_where_ext q q' data :
  (forall x y, 0 <= x < nx -> 0 <= y < ny -> q x y = q' x y) ->
  flipped_where q nx ny nz (crossed crossings voxels) data0 data ->
  flipped_where q' nx ny nz (crossed crossings voxels) data0 data.
Proof.
  intros Hq [Hl Hf]. split; [exact Hl|].
  intros x y z Hx Hy Hz. rewrite <- Hq by assumption. now apply Hf.
Qed.

Lemma column_step q data x y :
  flipped_where q nx ny nz (crossed crossings voxels) data0 data ->
  0 <= x < nx -> 0 <= y < ny -> q x y = false ->
  exists data',
    column_flips (Vec3i nx ny nz) (m_origin voxels).2 (m_spacing voxels) x y
                 (crossings x y) data = Ok data' /\
    flipped_where (fun x' y' => q x' y' || ((x' =? x) && (y' =? y)))
                  nx ny nz (crossed crossings voxels) data0 data'.
Proof.
  intros [Hl Hf] Hx Hy Hq.
  rewrite column_flips_pairs.
  rewrite (run_pairs_ok nx ny nz x y _ _ Hx Hy Hnz Hfit) by (rewrite Hl; exact Hlen).
  eexists. split; [reflexivity|]. split.
  - rewrite toggle_spans_length. exact Hl.
  - intros x' y' z' Hx' Hy' Hz'.
    rewrite (toggle_spans_lookup nx ny nz x y Hx Hy Hfit)
      by (try assumption; apply spans_of_bounds; exact Hnz).
    rewrite Hf by assumption.
    destruct (bool_decide_reflect (x' = x /\ y' = y)) as [[-> ->]|Hne].
    + rewrite Hq, !Z.eqb_refl. cbn [orb andb].
      unfold crossed. rewrite Hsize. cbn [c2].
      now destruct (data0 !! _).
    + assert (E : (x' =? x) && (y' =? y) = false).
      { destruct (Z.eqb_spec x' x), (Z.eqb_spec y' y); try reflexivity.
        exfalso. apply Hne. auto. }
      rewrite E, orb_false_r. now destruct (data0 !! _).
Qed.

Lemma row_run y xs : 0 <= y < ny ->
  forall q data,
    flipped_where q nx ny nz (crossed crossings voxels) data0 data ->
    NoDup xs ->
    (forall x, x ∈ xs -> 0 <= x < nx /\ q x y = false) ->
    exists data',
      run_over (fun x d => column_flips (Vec3i nx ny nz) (m_origin voxels).2
                             (m_spacing voxels) x y (crossings x y) d) xs data
      = Ok data' /\
      flipped_where (fun x' y' => q x' y' || (bool_decide (x' ∈ xs) && (y' =? y)))
                    nx ny nz (crossed crossings voxels) data0 data'.
Proof.
  intros Hy. induction xs as [|x xs IH]; intros q data Hf Hnd Hxs.
  - exists data. split; [reflexivity|].
    eapply flipped_where_ext; [|exact Hf].
    intros x' y' _ _. cbn.
    rewrite bool_decide_eq_false_2 by apply not_elem_of_nil.
    now rewrite orb_false_r.
  - apply NoDup_cons in Hnd as [Hx Hnd].
    destruct (Hxs x ltac:(left)) as [Rx Qx].
    destruct (column_step q data x y Hf Rx Hy Qx) as (d1 & E1 & F1).
    cbn [run_over]. rewrite E1.
    change (Ok d1 ≫= ?f) with (f d1). cbv beta.
    destruct (IH _ d1 F1 Hnd) as (d2 & E2 & F2).
    { intros x' Hx'. destruct (Hxs x' ltac:(now right)) as [Rx' Qx'].
      split; [exact Rx'|]. rewrite Qx'.
      destruct (Z.eqb_spec x' x) as [->|]; [contradiction|reflexivity]. }
    exists d2. split; [exact E2|].
    eapply flipped_where_ext; [|exact F2].
    intros x' y' _ _. cbv beta.
    destruct (bool_decide_reflect (x' ∈ x :: xs)) as [Hin|Hout];
      destruct (bool_decide_reflect (x' ∈ xs)) as [Hin'|Hout'];
      destruct (Z.eqb_spec x' x) as [Heq|Hne];
      destruct (Z.eqb_spec y' y), (q x' y'); cbn; try reflexivity;
      exfalso; rewrite elem_of_cons in *; tauto.
Qed.

Lemma sweep_row_run y q data :
  0 <= y < ny ->
  flipped_where q nx ny nz (crossed crossings voxels) data0 data ->
  (forall x, 0 <= x < nx -> q x y = false) ->
  exists data',
    sweep_row crossings voxels y data = Ok data' /\
    flipped_where (fun x' y' => q x' y' || (y' =? y))
                  nx ny nz (crossed crossings voxels) data0 data'.
Proof.
  intros Hy Hf Hq. unfold sweep_row, grid_size. cbv zeta. rewrite Hsize. cbn [c0].
  rewrite (for_loop_steps 1 _ _ _ (Z.to_nat nx)); try lia.
  2:{ intros j Hj. split; [lia|]. rewrite int_add_1 by lia. lia. }
  destruct (row_run y (steps 0 1 (Z.to_nat nx)) Hy q data Hf (NoDup_steps _ _))
    as (d & E & F).
  { intros x Hx. apply elem_of_steps_1 in Hx. split; [lia|]. apply Hq. lia. }
  exists d. split; [exact E|].
  eapply flipped_where_ext; [|exact F].
  intros x' y' Hx' _. cbv beta.
  rewrite bool_decide_eq_true_2; [reflexivity|].
  apply elem_of_steps_1. lia.
Qed.

Lemma rows_run ys :
  forall q data,
    flipped_where q nx ny nz (crossed crossings voxels) data0 data ->
    NoDup ys ->
    (forall y, y ∈ ys -> 0 <= y < ny /\ forall x, 0 <= x < nx -> q x y = false) ->
    exists data',
      run_over (sweep_row crossings voxels) ys data = Ok data' /\
      flipped_where (fun x' y' => q x' y' || bool_decide (y' ∈ ys))
                    nx ny nz (crossed crossings voxels) data0 data'.
Proof.
  induction ys as [|y ys IH]; intros q data Hf Hnd Hys.
  - exists data. split; [reflexivity|].
    eapply flipped_where_ext; [|exact Hf].
    intros x' y' _ _. cbn.
    rewrite bool_decide_eq_false_2 by apply not_elem_of_nil.
    now rewrite orb_false_r.
  - apply NoDup_cons in Hnd as [Hy Hnd].
    destruct (Hys y ltac:(left)) as [Ry Qy].
    destruct (sweep_row_run y q data Ry Hf Qy) as (d1 & E1 & F1).
    cbn [run_over]. rewrite E1.
    change (Ok d1 ≫= ?f) with (f d1). cbv beta.
    destruct (IH _ d1 F1 Hnd) as (d2 & E2 & F2).
    { intros y' Hy'. destruct (Hys y' ltac:(now right)) as [Ry' Qy'].
      split; [exact Ry'|]. intros x Hx. rewrite Qy' by exact Hx.
      destruct (Z.eqb_spec y' y) as [->|]; [contradiction|reflexivity]. }
    exists d2. split; [exact E2|].
    eapply flipped_where_ext; [|exact F2].
    intros x' y' _ _. cbv beta.
    destruct (bool_decide_reflect (y' ∈ y :: ys)) as [Hin|Hout];
      destruct (bool_decide_reflect (y' ∈ ys)) as [Hin'|Hout'];
      destruct (Z.eqb_spec y' y) as [Heq|Hne];
      destruct (q x' y'); cbn; try reflexivity;
      exfalso; rewrite elem_of_cons in *; tauto.
Qed.

Lemma flipped_where_start :
  flipped_where (fun _ _ => false) nx ny nz (crossed crossings voxels) data0 data0.
Proof.
  split; [reflexivity|]. intros x y z _ _ _. now destruct (data0 !! _).
Qed.

(** Whatever the order of the rows, each run once. *)
Lemma all_rows_run ys :
  NoDup ys -> (forall y, y ∈ ys <-> 0 <= y < ny) ->
  exists data',
    run_over (sweep_row crossings voxels) ys data0 = Ok data' /\
    flipped_where (fun _ _ => true) nx ny nz (crossed crossings voxels) data0 data'.
Proof.
  intros Hnd Hys.
  destruct (rows_run ys _ data0 flipped_where_start Hnd) as (d & E & F).
  { intros y Hy. split; [now apply Hys|reflexivity]. }
  exists d. split; [exact E|].
  eapply flipped_where_ext; [|exact F].
  intros x y _ Hy. cbn. apply bool_decide_eq_true_2. now apply Hys.
Qed.

Lemma flipped_where_unique q d1 d2 :
  flipped_where q nx ny nz (crossed crossings voxels) data0 d1 ->
  flipped_where q nx ny nz (crossed crossings voxels) data0 d2 ->
  d1 = d2.
Proof.
  intros [L1 F1] [L2 F2]. apply list_eq. intros i.
  destruct (Z.lt_ge_cases (Z.of_nat i) (nx * ny * nz)) as [Hi|Hi].
  - destruct (cell_of_bounds nx ny nz (Z.of_nat i)) as (Bx & By & Bz & El);
      try lia.
    rewrite <- (Nat2Z.id i), <- El.
    rewrite F1, F2 by assumption. reflexivity.
  - rewrite !lookup_ge_None_2; try reflexivity; lia.
Qed.

End Sweep.

Lemma compute_sign_rows crossings voxels :
  0 <= c1 (m_grid_size voxels) <= int_max ->
  compute_sign crossings voxels
  = run_over (sweep_row crossings voxels)
             (steps 0 1 (Z.to_nat (c1 (m_grid_size voxels)))) (m_data voxels).
Proof.
  intros Hny.
  change (compute_sign crossings voxels)
    with (for_loop (Z.to_nat (c1 (m_grid_size voxels))) (fun y => int_add y 1) 0
            (c1 (m_grid_size voxels)) (sweep_row crossings voxels) (m_data voxels)).
  rewrite (for_loop_steps 1 _ _ _ (Z.to_nat (c1 (m_grid_size voxels)))); try lia;
    [reflexivity|].
  intros j Hj. split; [lia|]. rewrite int_add_1 by lia. lia.
Qed.

Lemma rows_in_order ny y : y ∈ steps 0 1 (Z.to_nat ny) <-> 0 <= y < ny.
Proof. rewrite elem_of_steps_1. lia. Qed.

Lemma grid_size_vec voxels :
  m_grid_size voxels
  = Vec3i (c0 (m_grid_size voxels)) (c1 (m_grid_size voxels)) (c2 (m_grid_size voxels)).
Proof. now destruct (m_grid_size voxels). Qed.

(** X6: on a grid whose sizes and voxel count fit an [int],
    [compute_sign] returns, and in the grid it leaves every voxel
    [(x, y, z)] has been flipped once for each span of its own column
    [(x, y)] that contains [z], and by nothing else: the columns do not
    disturb each other. *)
Theorem compute_sign_spec crossings voxels :
  let nx := c0 (m_grid_size voxels) in
  let ny := c1 (m_grid_size voxels) in
  let nz := c2 (m_grid_size voxels) in
  0 <= nx <= int_max -> 0 <= ny <= int_max -> 0 <= nz ->
  nx * ny * nz <= int_max ->
  Z.of_nat (length (m_data voxels)) = nx * ny * nz ->
  exists data',
    compute_sign crossings voxels = Ok data' /\
    length data' = length (m_data voxels) /\
    forall x y z, 0 <= x < nx -> 0 <= y < ny -> 0 <= z < nz ->
      data' !! Z.to_nat (linear x y z nx ny)
      = Nat.iter (crossed crossings voxels x y z) flip
          <$> m_data voxels !! Z.to_nat (linear x y z nx ny).
Proof.
  intros nx ny nz Hnx Hny Hnz Hfit Hlen.
  pose proof (grid_size_vec voxels) as Hsize. fold nx ny nz in Hsize.
  rewrite (compute_sign_rows crossings voxels Hny). fold ny.
  destruct (all_rows_run crossings voxels nx ny nz Hsize Hnx Hny Hnz Hfit _ Hlen
              (steps 0 1 (Z.to_nat ny)) (NoDup_steps _ _) (rows_in_order ny))
    as (d & E & Hl & Hf).
  exists d. split; [exact E|]. split; [exact Hl|exact Hf].
Qed.

Lemma compute_sign_spec_witness :
  exists data',
    compute_sign crossings_1_0 grid_2_2_4 = Ok data' /\
    length data' = 16%nat /\
    forall x y z, 0 <= x < 2 -> 0 <= y < 2 -> 0 <= z < 4 ->
      data' !! Z.to_nat (linear x y z 2 2)
      = Nat.iter (crossed crossings_1_0 grid_2_2_4 x y z) flip
          <$> m_data grid_2_2_4 !! Z.to_nat (linear x y z 2 2).
Proof.
  apply (compute_sign_spec crossings_1_0 grid_2_2_4);
    cbn; unfold int_max; lia.
Defined.

(** X7: the even-odd rule. On the grid of zeros that the constructor of
    [VoxelGrid] makes, [compute_sign] leaves [1] in the voxel [(x, y, z)]
    when an odd number of the spans of its column contain [z], and [0]
    when an even number do. *)
Theorem compute_sign_even_odd crossings voxels :
  let nx := c0 (m_grid_size voxels) in
  let ny := c1 (m_grid_size voxels) in
  let nz := c2 (m_grid_size voxels) in
  0 <= nx <= int_max -> 0 <= ny <= int_max -> 0 <= nz ->
  nx * ny * nz <= int_max ->
  m_data voxels = replicate (Z.to_nat (nx * ny * nz)) 0 ->
  exists data',
    compute_sign crossings voxels = Ok data' /\
    forall x y z, 0 <= x < nx -> 0 <= y < ny -> 0 <= z < nz ->
      data' !! Z.to_nat (linear x y z nx ny)
      = Some (if Nat.odd (crossed crossings voxels x y z) then 1 else 0).
Proof.
  intros nx ny nz Hnx Hny Hnz Hfit Hdata.
  assert (Hlen : Z.of_nat (length (m_data voxels)) = nx * ny * nz).
  { rewrite Hdata, length_replicate. assert (0 <= nx * ny * nz) by nia. lia. }
  pose proof (grid_size_vec voxels) as Hsize. fold nx ny nz in Hsize.
  rewrite (compute_sign_rows crossings voxels Hny). fold ny.
  destruct (all_rows_run crossings voxels nx ny nz Hsize Hnx Hny Hnz Hfit _ Hlen
              (steps 0 1 (Z.to_nat ny)) (NoDup_steps _ _) (rows_in_order ny))
    as (d & E & Hl & Hf).
  exists d. split; [exact E|].
  intros x y z Hx Hy Hz. rewrite Hf by assumption.
  pose proof (linear_lt x y z nx ny nz Hx Hy Hz) as Hlin.
  rewrite Hdata, lookup_replicate_2 by lia. cbn.
  now rewrite iter_flip_zero.
Qed.

Lemma compute_sign_even_odd_witness :
  exists data',
    compute_sign crossings_1_0 grid_2_2_4 = Ok data' /\
    forall x y z, 0 <= x < 2 -> 0 <= y < 2 -> 0 <= z < 4 ->
      data' !! Z.to_nat (linear x y z 2 2)
      = Some (if Nat.odd (crossed crossings_1_0 grid_2_2_4 x y z) then 1 else 0).
Proof.
  apply (compute_sign_even_odd crossings_1_0 grid_2_2_4);
    cbn; try reflexivity; unfold int_max; lia.
Defined.

(** X8: the rows can be handed out in any order. Running the body of
    [GEO::parallel_for] once for each row, in whatever order, gives the
    grid that [compute_sign] gives. *)
Theorem compute_sign_any_row_order crossings voxels ys :
  let nx := c0 (m_grid_size voxels) in
  let ny := c1 (m_grid_size voxels) in
  let nz := c2 (m_grid_size voxels) in
  0 <= nx <= int_max -> 0 <= ny <= int_max -> 0 <= nz ->
  nx * ny * nz <= int_max ->
  Z.of_nat (length (m_data voxels)) = nx * ny * nz ->
  NoDup ys -> (forall y, y ∈ ys <-> 0 <= y < ny) ->
  returned (compute_sign crossings voxels) = true /\
  run_over (sweep_row crossings voxels) ys (m_data voxels)
  = compute_sign crossings voxels.
Proof.
  intros nx ny nz Hnx Hny Hnz Hfit Hlen Hnd Hys.
  pose proof (grid_size_vec voxels) as Hsize. fold nx ny nz in Hsize.
  rewrite (compute_sign_rows crossings voxels Hny). fold ny.
  destruct (all_rows_run crossings voxels nx ny nz Hsize Hnx Hny Hnz Hfit _ Hlen
              (steps 0 1 (Z.to_nat ny)) (NoDup_steps _ _) (rows_in_order ny))
    as (d & E & F).
  destruct (all_rows_run crossings voxels nx ny nz Hsize Hnx Hny Hnz Hfit _ Hlen
              ys Hnd Hys) as (d' & E' & F').
  rewrite E, E'. split; [reflexivity|]. f_equal.
  exact (flipped_where_unique crossings voxels nx ny nz Hnx Hny _ Hlen _ _ _ F' F).
Qed.

Lemma compute_sign_any_row_order_witness :
  returned (compute_sign crossings_1_0 grid_2_2_4) = true /\
  run_over (sweep_row crossings_1_0 grid_2_2_4) [1; 0] (m_data grid_2_2_4)
  = compute_sign crossings_1_0 grid_2_2_4.
Proof.
  apply (compute_sign_any_row_order crossings_1_0 grid_2_2_4 [1; 0]);
    try (cbn; unfold int_max; lia).
  - apply (bool_decide_unpack _). vm_compute. reflexivity.
  - intros y. cbn. rewrite !elem_of_cons, elem_of_nil. lia.
Defined.

(** ** The mesh *)

Lemma NoDup_first_seen_from l : forall seen,
  NoDup seen -> NoDup (first_seen_from seen l).
Proof.
  induction l as [|c l IH]; intros seen Hs; cbn [first_seen_from]; [exact Hs|].
  destruct (bool_decide_reflect (c ∈ seen)) as [Hin|Hout]; apply IH; [exact Hs|].
  apply NoDup_app. split; [exact Hs|]. split; [|apply NoDup_singleton].
  intros x Hx Hx'. apply list_elem_of_singleton in Hx'. now subst.
Qed.

Lemma first_seen_elem l c : c ∈ first_seen l <-> c ∈ l.
Proof.
  unfold first_seen. rewrite first_seen_from_elem, elem_of_nil. tauto.
Qed.

Lemma ids_of_start num_nodes :
  0 <= num_nodes -> ids_of num_nodes [] (replicate (Z.to_nat num_nodes) (-1)).
Proof.
  intros Hn. unfold ids_of. rewrite length_replicate.
  split; [lia|]. split; [constructor|]. split; [|split].
  - intros c Hc. apply elem_of_nil in Hc. contradiction.
  - intros i c Hi. discriminate Hi.
  - intros c Hc _. apply lookup_replicate_2. lia.
Qed.

Lemma proper_app l1 : forall l2, proper l1 -> proper l2 -> proper (l1 ++ l2).
Proof.
  assert (H : forall n l1, (length l1 <= n)%nat ->
                forall l2, proper l1 -> proper l2 -> proper (l1 ++ l2)).
  { induction n as [|n IH]; intros [|a [|b [|c l]]] Hn l2 H1 H2;
      cbn in *; try contradiction; try assumption; try lia.
    destruct H1 as (A & B & C & H1). repeat split; try assumption.
    apply IH; [lia|assumption..]. }
  intros l2. apply (H (length l1)). lia.
Qed.

Lemma proper_flat_map {A} (f : A -> list Z) l :
  (forall x, x ∈ l -> proper (f x)) -> proper (flat_map f l).
Proof.
  induction l as [|x l IH]; intros H; cbn [flat_map]; [exact I|].
  apply proper_app; [apply H; left|apply IH]. intros y Hy. apply H. now right.
Qed.

Lemma remapped_proper order l : forall l',
  Forall2 (remapped order) l l' -> proper l -> proper l'.
Proof.
  assert (Hne : forall a b a' b', remapped order a a' -> remapped order b b' ->
                  a <> b -> a' <> b').
  { intros a b a' b' (i & Hi & ->) (j & Hj & ->) Hab E.
    apply Nat2Z.inj in E. subst j. congruence. }
  assert (H : forall n l, (length l <= n)%nat -> forall l',
                Forall2 (remapped order) l l' -> proper l -> proper l').
  { induction n as [|n IH]; intros [|a [|b [|c k]]] Hn l' Hf Hp;
      cbn in *; try contradiction; try lia;
      try (apply Forall2_nil_inv_l in Hf; subst; exact I).
    apply Forall2_cons_inv_l in Hf as (a' & k1 & Ra & Hf & ->).
    apply Forall2_cons_inv_l in Hf as (b' & k2 & Rb & Hf & ->).
    apply Forall2_cons_inv_l in Hf as (c' & k3 & Rc & Hf & ->).
    destruct Hp as (A & B & C & Hp). cbn.
    repeat split; eauto. apply (IH k); [lia|assumption..]. }
  intros l'. apply (H (length l)). lia.
Qed.

Section Mesh.

Variable voxels : VoxelGrid.
Let nx := c0 (m_grid_size voxels).
Let ny := c1 (m_grid_size voxels).
Let nz := c2 (m_grid_size voxels).
Let nodes := (nx + 1) * (ny + 1) * (nz + 1).
Let node_size := Vec3i (nx + 1) (ny + 1) (nz + 1).
Let raw :=
  flat_map (fun idx => voxel_facets voxels (cell_of (m_grid_size voxels) idx))
           (steps 0 1 (Z.to_nat (nx * ny * nz))).
Hypothesis Hnx : 0 <= nx.
Hypothesis Hny : 0 <= ny.
Hypothesis Hnz : 0 <= nz.
Hypothesis Hnodes : nodes <= int_max.
Hypothesis Hlen : Z.of_nat (length (m_data voxels)) = nx * ny * nz.

Lemma nodes_bounds :
  nx * ny <= int_max /\ nx * ny * nz <= int_max /\
  0 <= (nx + 1) * (ny + 1) <= nodes /\ 0 < nodes.
Proof.
  subst nodes.
  assert (A : nx * ny <= (nx + 1) * (ny + 1)) by nia.
  assert (B : 0 <= nx * ny) by nia.
  assert (C : nx * ny * nz <= (nx + 1) * (ny + 1) * nz) by nia.
  assert (D : 0 < (nx + 1) * (ny + 1)) by nia.
  assert (E : (nx + 1) * (ny + 1) * nz <= (nx + 1) * (ny + 1) * (nz + 1)) by nia.
  assert (F : (nx + 1) * (ny + 1) <= (nx + 1) * (ny + 1) * (nz + 1)) by nia.
  repeat split; lia.
Qed.

Lemma raw_in_range : Forall (fun c => 0 <= c < nodes) raw.
Proof. apply flat_map_facets_in_range; assumption. Qed.

Lemma triangle_mesh_run :
  exists tris,
    triangle_mesh voxels = Ok (map (cell_of node_size) (first_seen raw), tris) /\
    Forall2 (remapped (first_seen raw)) raw tris.
Proof.
  destruct nodes_bounds as (B1 & B2 & B3 & B4).
  unfold triangle_mesh, grid_size. cbv zeta.
  rewrite (node_size_exact voxels Hnx Hny Hnz Hnodes). cbn [c0 c1 c2].
  fold nx ny nz.
  assert (En : int_mul (int_mul (nx + 1) (ny + 1)) (nz + 1) = nodes).
  { unfold int_mul.
    rewrite (wrap_int_small ((nx + 1) * (ny + 1)))
      by (unfold in_int, int_min, int_max in *; lia).
    apply wrap_int_small. unfold in_int, int_min, int_max in *. fold nodes. lia. }
  rewrite En.
  rewrite (emit_triangles_ok voxels Hnx Hny Hnz B1 B2 Hlen). fold nx ny nz raw.
  change (Ok raw ≫= ?f) with (f raw). cbv beta.
  assert (Hn : 0 <= nodes <= int_max) by lia.
  destruct (assign_ids_ok nodes Hn raw [] _ (ids_of_start nodes ltac:(lia)) raw_in_range)
    as (tris & node_id & E & Hids & Hmap).
  fold (first_seen raw) in E, Hids, Hmap.
  unfold assign_vertex_ids.
  change (Z.of_nat (length (@nil Z))) with 0 in E. rewrite E.
  change (Ok ?r ≫= ?f) with (f r). cbv beta. cbn [fst snd].
  destruct (create_points_ok nodes node_size _ _ Hn ltac:(subst node_size; cbn; lia) Hids)
    as (pts & Ep & Hl & Hp).
  fold node_size. rewrite Ep.
  change (Ok ?r ≫= ?f) with (f r). cbv beta.
  exists tris. split; [|exact Hmap]. do 2 f_equal.
  apply list_eq. intros i. rewrite list_lookup_fmap.
  destruct (first_seen raw !! i) as [c|] eqn:Ec.
  - now rewrite (Hp i c Ec).
  - apply lookup_ge_None_2. rewrite Hl. now apply lookup_ge_None_1.
Qed.

Lemma first_seen_in_range c : c ∈ first_seen raw -> 0 <= c < nodes.
Proof.
  intros Hc. apply (proj1 (first_seen_elem _ _)) in Hc.
  pose proof raw_in_range as H. rewrite Forall_forall in H. now apply H.
Qed.

Lemma occupancy_some_range p v :
  occupancy voxels p = Some v ->
  0 <= c0 p < nx /\ 0 <= c1 p < ny /\ 0 <= c2 p < nz.
Proof.
  intros Eo. unfold occupancy in Eo. fold nx ny nz in Eo.
  destruct (_ && _) eqn:E; [|discriminate].
  repeat (apply andb_true_iff in E as [E ?]).
  repeat match goal with
         | H : (_ <=? _) = true |- _ => apply Z.leb_le in H
         | H : (_ <? _) = true |- _ => apply Z.ltb_lt in H
         end. lia.
Qed.

Lemma corners_exact p :
  0 <= c0 p < nx -> 0 <= c1 p < ny -> 0 <= c2 p < nz ->
  corners p (vadd (m_grid_size voxels) (Vec3i 1 1 1))
  = map (fun o => linear (c0 p + c0 o) (c1 p + c1 o) (c2 p + c2 o) (nx + 1) (ny + 1))
        corner_offsets.
Proof.
  intros A B C. rewrite (node_size_exact voxels Hnx Hny Hnz Hnodes). fold nx ny nz.
  unfold corners. apply map_ext_in. intros o Ho. apply list_elem_of_In in Ho.
  destruct nodes_bounds as (B1 & B2 & B3 & B4).
  assert (Hn : nx + 1 <= nodes /\ ny + 1 <= nodes /\ nz + 1 <= nodes)
    by (subst nodes; nia).
  assert (Hoff : (c0 o = 0 \/ c0 o = 1) /\ (c1 o = 0 \/ c1 o = 1)
                 /\ (c2 o = 0 \/ c2 o = 1)).
  { unfold corner_offsets in Ho.
    repeat (apply elem_of_cons in Ho as [-> | Ho]; [cbn; lia|]).
    apply elem_of_nil in Ho. contradiction. }
  assert (Hv : vadd p o = Vec3i (c0 p + c0 o) (c1 p + c1 o) (c2 p + c2 o)).
  { unfold vadd, int_add.
    rewrite !wrap_int_small by (unfold in_int, int_min, int_max in *; lia).
    reflexivity. }
  rewrite Hv.
  pose proof (linear_lt (c0 p + c0 o) (c1 p + c1 o) (c2 p + c2 o)
                (nx + 1) (ny + 1) (nz + 1) ltac:(lia) ltac:(lia) ltac:(lia)) as Hl.
  fold nodes in Hl.
  rewrite index_from_index3_exact by lia.
  apply wrap_index_small. unfold int_max in *. lia.
Qed.

Lemma linear_offset_inj x y z a b c a' b' c' :
  0 <= x < nx -> 0 <= y < ny -> 0 <= z < nz ->
  forallb (fun t => (0 <=? t) && (t <=? 1)) [a; b; c; a'; b'; c'] = true ->
  linear (x + a) (y + b) (z + c) (nx + 1) (ny + 1)
  = linear (x + a') (y + b') (z + c') (nx + 1) (ny + 1) ->
  a = a' /\ b = b' /\ c = c'.
Proof.
  intros A B C Hb E. cbn [forallb] in Hb.
  repeat (apply andb_true_iff in Hb as [? Hb]).
  repeat match goal with
         | H : (_ <=? _) = true |- _ => apply Z.leb_le in H
         end.
  apply (linear_inj (nx + 1) (ny + 1) (nz + 1)) in E; lia.
Qed.

Lemma corners_distinct p v v' :
  0 <= c0 p < nx -> 0 <= c1 p < ny -> 0 <= c2 p < nz ->
  (v < 8)%nat -> (v' < 8)%nat ->
  corner (corners p (vadd (m_grid_size voxels) (Vec3i 1 1 1))) v
  = corner (corners p (vadd (m_grid_size voxels) (Vec3i 1 1 1))) v' ->
  v = v'.
Proof.
  intros A B C Hv Hv'. rewrite (corners_exact p A B C).
  unfold corner, corner_offsets. cbn [map nth c0 c1 c2].
  assert (Ev : (v = 0 \/ v = 1 \/ v = 2 \/ v = 3 \/ v = 4 \/ v = 5 \/ v = 6
                \/ v = 7)%nat) by lia.
  assert (Ev' : (v' = 0 \/ v' = 1 \/ v' = 2 \/ v' = 3 \/ v' = 4 \/ v' = 5
                 \/ v' = 6 \/ v' = 7)%nat) by lia.
  clear Hv Hv'.
  destruct Ev as [-> | [-> | [-> | [-> | [-> | [-> | [-> | ->]]]]]]];
    destruct Ev' as [-> | [-> | [-> | [-> | [-> | [-> | [-> | ->]]]]]]];
    cbn [nth]; intros E; try reflexivity;
    (apply linear_offset_inj in E;
     [destruct E as (E1 & E2 & E3); discriminate
     |assumption|assumption|assumption|reflexivity]).
Qed.

Lemma corners_differ p v v' :
  0 <= c0 p < nx -> 0 <= c1 p < ny -> 0 <= c2 p < nz ->
  (v < 8)%nat -> (v' < 8)%nat -> v <> v' ->
  corner (corners p (vadd (m_grid_size voxels) (Vec3i 1 1 1))) v
  <> corner (corners p (vadd (m_grid_size voxels) (Vec3i 1 1 1))) v'.
Proof.
  intros A B C Hv Hv' Hne E. apply Hne. exact (corners_distinct p v v' A B C Hv Hv' E).
Qed.

Lemma voxel_facets_proper p : proper (voxel_facets voxels p).
Proof.
  unfold voxel_facets.
  destruct (occupancy voxels p) as [v|] eqn:Eo; [|exact I].
  destruct (v =? 0); [exact I|].
  destruct (occupancy_some_range p v Eo) as (A & B & C).
  apply proper_flat_map. intros d Hd.
  destruct (neighbor_empty voxels p (f_axis d) (f_delta d)); [|exact I].
  unfold facet_table in Hd.
  repeat (apply elem_of_cons in Hd as [-> | Hd];
          [cbn [quad app proper f_v1 f_v2 f_v3 f_v4];
           repeat split; try exact I;
           (apply (corners_differ p _ _ A B C); [lia|lia|discriminate])|]).
  apply elem_of_nil in Hd. contradiction.
Qed.

Lemma raw_proper : proper raw.
Proof. apply proper_flat_map. intros idx _. apply voxel_facets_proper. Qed.

Lemma cell_of_node c :
  0 <= c < nodes ->
  0 <= c0 (cell_of node_size c) <= nx /\ 0 <= c1 (cell_of node_size c) <= ny /\
  0 <= c2 (cell_of node_size c) <= nz /\
  linear (c0 (cell_of node_size c)) (c1 (cell_of node_size c))
         (c2 (cell_of node_size c)) (nx + 1) (ny + 1) = c.
Proof.
  intros Hc.
  destruct (cell_of_bounds (nx + 1) (ny + 1) (nz + 1) c) as (A & B & C & D);
    try lia.
  fold node_size in A, B, C, D. repeat split; (lia || exact D).
Qed.

Lemma vertices_distinct : NoDup (map (cell_of node_size) (first_seen raw)).
Proof.
  apply NoDup_fmap_2_strong; [|apply NoDup_first_seen_from; constructor].
  intros c c' Hc Hc' E.
  destruct (cell_of_node c (first_seen_in_range c Hc)) as (_ & _ & _ & L).
  destruct (cell_of_node c' (first_seen_in_range c' Hc')) as (_ & _ & _ & L').
  rewrite <- L, <- L', E. reflexivity.
Qed.

Lemma voxel_facets_empty p :
  Forall (fun v => v = 0) (m_data voxels) -> voxel_facets voxels p = [].
Proof.
  intros Hz. unfold voxel_facets.
  destruct (occupancy voxels p) as [v|] eqn:Eo; [|reflexivity].
  unfold occupancy in Eo. destruct (_ && _); [|discriminate].
  rewrite Forall_forall in Hz.
  rewrite (Hz v (list_elem_of_lookup_2 _ _ _ Eo)). reflexivity.
Qed.

Lemma raw_empty : Forall (fun v => v = 0) (m_data voxels) -> raw = [].
Proof.
  intros Hz. subst raw. induction (steps 0 1 (Z.to_nat (nx * ny * nz))) as [|i l IH];
    cbn [flat_map]; [reflexivity|].
  now rewrite voxel_facets_empty, IH.
Qed.

(** The first occupied voxel, in the order of the linear index, has
    nothing on its left: its left facet is emitted. *)
Lemma raw_nonempty (i : nat) v :
  m_data voxels !! i = Some v -> v <> 0 ->
  (forall (j : nat) w, (j < i)%nat -> m_data voxels !! j = Some w -> w = 0) ->
  raw <> [].
Proof.
  intros Hi Hv Hmin.
  assert (Hr : 0 <= Z.of_nat i < nx * ny * nz).
  { apply lookup_lt_Some in Hi. lia. }
  destruct (cell_of_bounds nx ny nz (Z.of_nat i) Hr Hnx Hny) as (A & B & C & L).
  pose proof (grid_size_vec voxels) as Hg. fold nx ny nz in Hg.
  rewrite <- Hg in A, B, C, L. clear Hg.
  set (p := cell_of (m_grid_size voxels) (Z.of_nat i)) in *.
  assert (Ho : occupancy voxels p = Some v).
  { destruct (occupancy_in voxels Hlen p A B C) as (w & Ew & El).
    fold nx ny in El. rewrite L, Nat2Z.id, Hi in El. congruence. }
  assert (Hne : neighbor_empty voxels p 0 (-1) = true).
  { unfold neighbor_empty. change (vget p 0) with (c0 p).
    change (vset p 0 (c0 p + -1)) with (Vec3i (c0 p + -1) (c1 p) (c2 p)).
    destruct (Z.eq_dec (c0 p) 0) as [E0|E0].
    - rewrite occupancy_out; [reflexivity|]. cbn [c0 c1 c2]. lia.
    - destruct (occupancy_in voxels Hlen (Vec3i (c0 p + -1) (c1 p) (c2 p)))
        as (w & Ew & El); cbn [c0 c1 c2]; try (fold nx ny nz; lia).
      rewrite Ew. apply Z.eqb_eq.
      cbn [c0 c1 c2] in El. fold nx ny in El.
      apply (Hmin (Z.to_nat (linear (c0 p + -1) (c1 p) (c2 p) nx ny))); [|exact El].
      unfold linear in *. lia. }
  assert (Hf : voxel_facets voxels p <> []).
  { unfold voxel_facets. rewrite Ho.
    destruct (Z.eqb_spec v 0) as [|_]; [contradiction|].
    unfold facet_table. cbn [flat_map f_axis f_delta]. rewrite Hne.
    discriminate. }
  subst raw. intros E.
  assert (Hin : Z.of_nat i ∈ steps 0 1 (Z.to_nat (nx * ny * nz)))
    by (apply elem_of_steps_1; lia).
  apply list_elem_of_In in Hin.
  destruct (voxel_facets voxels p) as [|t ts] eqn:Ep; [now apply Hf|].
  assert (Ht : In t (flat_map
                       (fun idx => voxel_facets voxels (cell_of (m_grid_size voxels) idx))
                       (steps 0 1 (Z.to_nat (nx * ny * nz))))).
  { apply in_flat_map. exists (Z.of_nat i). split; [exact Hin|].
    fold p. rewrite Ep. now left. }
  rewrite E in Ht. exact Ht.
Qed.

End Mesh.

Lemma remapped_valid order l : forall l',
  Forall2 (remapped order) l l' ->
  Forall (fun t => 0 <= t < Z.of_nat (length order)) l'.
Proof.
  intros l' H. induction H as [|c t l l' (i & Hi & ->) _ IH]; constructor;
    [|exact IH].
  apply lookup_lt_Some in Hi. lia.
Qed.

Lemma remapped_covers order l l' :
  NoDup order -> (forall c, c ∈ order -> c ∈ l) ->
  Forall2 (remapped order) l l' ->
  forall i, (i < length order)%nat -> Z.of_nat i ∈ l'.
Proof.
  intros Hnd Hin Hf i Hi.
  destruct (lookup_lt_is_Some_2 order i Hi) as [c Hc].
  pose proof (Hin c (list_elem_of_lookup_2 _ _ _ Hc)) as Hl.
  apply list_elem_of_lookup_1 in Hl as [k Hk].
  destruct (Forall2_lookup_l _ _ _ _ _ Hf Hk) as (t & Ht & (j & Hj & ->)).
  rewrite (NoDup_lookup _ _ _ _ Hnd Hc Hj).
  exact (list_elem_of_lookup_2 _ _ _ Ht).
Qed.

Lemma first_occupied (l : list Z) :
  (exists v, v ∈ l /\ v <> 0) ->
  exists (i : nat) v, l !! i = Some v /\ v <> 0 /\
    forall (j : nat) w, (j < i)%nat -> l !! j = Some w -> w = 0.
Proof.
  induction l as [|a l IH]; intros (v & Hv & Hne).
  - apply elem_of_nil in Hv. contradiction.
  - destruct (Z.eq_dec a 0) as [->|Ha].
    + apply elem_of_cons in Hv as [->|Hv]; [contradiction|].
      destruct (IH (ex_intro _ v (conj Hv Hne))) as (i & w & Hi & Hw & Hmin).
      exists (S i), w. split; [exact Hi|]. split; [exact Hw|].
      intros [|j] u Hj Hu; [now injection Hu as <-|].
      apply (Hmin j u); [lia|exact Hu].
    + exists 0%nat, a. split; [reflexivity|]. split; [exact Ha|]. lia.
Qed.

Ltac feed H :=
  repeat match type of H with
         | ?A -> _ =>
             match type of A with
             | Prop => let a := fresh in
                       assert (a : A) by assumption; specialize (H a); clear a
             end
         end.

(** X9: on a grid whose node count fits an [int], [triangle_mesh_dump]
    builds its mesh without fault, every reference of the triangle list
    names an existing vertex, and every vertex is named by some
    triangle. *)
Theorem mesh_references_valid voxels :
  let nx := c0 (m_grid_size voxels) in
  let ny := c1 (m_grid_size voxels) in
  let nz := c2 (m_grid_size voxels) in
  0 <= nx -> 0 <= ny -> 0 <= nz ->
  (nx + 1) * (ny + 1) * (nz + 1) <= int_max ->
  Z.of_nat (length (m_data voxels)) = nx * ny * nz ->
  exists pts tris,
    triangle_mesh voxels = Ok (pts, tris) /\
    Forall (fun t => 0 <= t < Z.of_nat (length pts)) tris /\
    forall i, (i < length pts)%nat -> Z.of_nat i ∈ tris.
Proof.
  intros nx ny nz Hnx Hny Hnz Hnodes Hlen.
  pose proof (triangle_mesh_run voxels) as H. feed H.
  destruct H as (tris & E & Hmap).
  eexists _, tris. split; [exact E|]. rewrite length_map. split.
  - exact (remapped_valid _ _ _ Hmap).
  - match type of Hmap with
    | Forall2 (remapped ?o) ?l _ => apply (remapped_covers o l tris)
    end; [|intros c; apply first_seen_elem|exact Hmap].
    apply NoDup_first_seen_from. constructor.
Qed.

Lemma mesh_references_valid_witness :
  exists pts tris,
    triangle_mesh grid_2_1_1 = Ok (pts, tris) /\
    Forall (fun t => 0 <= t < Z.of_nat (length pts)) tris /\
    forall i, (i < length pts)%nat -> Z.of_nat i ∈ tris.
Proof.
  apply (mesh_references_valid grid_2_1_1); cbn; unfold int_max; lia.
Defined.

(** X10: the vertices of the mesh are pairwise different, and each is a
    node of the lattice of the grid: no corner is duplicated. *)
Theorem mesh_vertices_distinct voxels :
  let nx := c0 (m_grid_size voxels) in
  let ny := c1 (m_grid_size voxels) in
  let nz := c2 (m_grid_size voxels) in
  0 <= nx -> 0 <= ny -> 0 <= nz ->
  (nx + 1) * (ny + 1) * (nz + 1) <= int_max ->
  Z.of_nat (length (m_data voxels)) = nx * ny * nz ->
  exists pts tris,
    triangle_mesh voxels = Ok (pts, tris) /\
    NoDup pts /\
    Forall (fun q => 0 <= c0 q <= nx /\ 0 <= c1 q <= ny /\ 0 <= c2 q <= nz) pts.
Proof.
  intros nx ny nz Hnx Hny Hnz Hnodes Hlen.
  pose proof (triangle_mesh_run voxels) as H. feed H.
  destruct H as (tris & E & Hmap).
  eexists _, tris. split; [exact E|]. split.
  - pose proof (vertices_distinct voxels) as H. feed H. exact H.
  - apply Forall_fmap, Forall_forall. intros c Hc. cbn.
    pose proof (first_seen_in_range voxels) as Hr. feed Hr.
    pose proof (cell_of_node voxels) as Hn. feed Hn.
    destruct (Hn c (Hr c Hc)) as (A & B & C & _). auto.
Qed.

Lemma mesh_vertices_distinct_witness :
  exists pts tris,
    triangle_mesh grid_2_1_1 = Ok (pts, tris) /\
    NoDup pts /\
    Forall (fun q => 0 <= c0 q <= 2 /\ 0 <= c1 q <= 1 /\ 0 <= c2 q <= 1) pts.
Proof.
  apply (mesh_vertices_distinct grid_2_1_1); cbn; unfold int_max; lia.
Defined.

(** X11: the triangle list of the mesh is made of whole triangles, and
    no triangle names the same vertex twice. *)
Theorem mesh_triangles_proper voxels :
  let nx := c0 (m_grid_size voxels) in
  let ny := c1 (m_grid_size voxels) in
  let nz := c2 (m_grid_size voxels) in
  0 <= nx -> 0 <= ny -> 0 <= nz ->
  (nx + 1) * (ny + 1) * (nz + 1) <= int_max ->
  Z.of_nat (length (m_data voxels)) = nx * ny * nz ->
  exists pts tris, triangle_mesh voxels = Ok (pts, tris) /\ proper tris.
Proof.
  intros nx ny nz Hnx Hny Hnz Hnodes Hlen.
  pose proof (triangle_mesh_run voxels) as H. feed H.
  destruct H as (tris & E & Hmap).
  eexists _, tris. split; [exact E|].
  apply (remapped_proper _ _ _ Hmap).
  pose proof (raw_proper voxels) as H. feed H. exact H.
Qed.

Lemma mesh_triangles_proper_witness :
  exists pts tris, triangle_mesh grid_2_1_1 = Ok (pts, tris) /\ proper tris.
Proof.
  apply (mesh_triangles_proper grid_2_1_1); cbn; unfold int_max; lia.
Defined.

(** X12: a grid with no occupied voxel gives the empty mesh, and a grid
    with an occupied voxel gives a mesh with at least one triangle. *)
Theorem mesh_empty_iff voxels :
  let nx := c0 (m_grid_size voxels) in
  let ny := c1 (m_grid_size voxels) in
  let nz := c2 (m_grid_size voxels) in
  0 <= nx -> 0 <= ny -> 0 <= nz ->
  (nx + 1) * (ny + 1) * (nz + 1) <= int_max ->
  Z.of_nat (length (m_data voxels)) = nx * ny * nz ->
  exists pts tris,
    triangle_mesh voxels = Ok (pts, tris) /\
    (Forall (fun v => v = 0) (m_data voxels) -> pts = [] /\ tris = []) /\
    ((exists v, v ∈ m_data voxels /\ v <> 0) -> pts <> [] /\ tris <> []).
Proof.
  intros nx ny nz Hnx Hny Hnz Hnodes Hlen.
  pose proof (triangle_mesh_run voxels) as H. feed H.
  destruct H as (tris & E & Hmap).
  eexists _, tris. split; [exact E|]. split.
  - intros Hz. pose proof (raw_empty voxels) as H. feed H.
    rewrite H in *. apply Forall2_nil_inv_l in Hmap. now subst.
  - intros Hocc. destruct (first_occupied _ Hocc) as (i & v & Hi & Hv & Hmin).
    pose proof (raw_nonempty voxels) as H. feed H.
    specialize (H i v Hi Hv Hmin).
    match type of Hmap with
    | Forall2 _ ?r0 _ => remember r0 as rw eqn:Er in *
    end.
    clear Er E. destruct rw as [|c rest]; [contradiction|].
    apply Forall2_cons_inv_l in Hmap as (t & ts & _ & _ & ->).
    split; [|discriminate].
    unfold first_seen. cbn [first_seen_from].
    rewrite bool_decide_eq_false_2 by apply not_elem_of_nil.
    destruct (first_seen_from_prefix rest ([] ++ [c])) as [tl ->]. discriminate.
Qed.

Lemma mesh_empty_iff_witness :
  exists pts tris,
    triangle_mesh grid_2_1_1 = Ok (pts, tris) /\
    (Forall (fun v => v = 0) (m_data grid_2_1_1) -> pts = [] /\ tris = []) /\
    ((exists v, v ∈ m_data grid_2_1_1 /\ v <> 0) -> pts <> [] /\ tris <> []).
Proof.
  apply (mesh_empty_iff grid_2_1_1); cbn; unfold int_max; lia.
Defined.

(** ** Saving *)

Lemma string_length_append (a b : string) :
  String.length (a ++ b) = (String.length a + String.length b)%nat.
Proof. induction a as [|c a IH]; cbn; [reflexivity|]. now rewrite IH. Qed.

Lemma substring_all (e : string) : substring 0 (String.length e) e = e.
Proof. induction e as [|c e IH]; cbn; [reflexivity|]. now rewrite IH. Qed.

Lemma substring_suffix (pre e : string) :
  substring (String.length pre) (String.length e) (pre ++ e) = e.
Proof. induction pre as [|c pre IH]; cbn; [apply substring_all|exact IH]. Qed.

Lemma substring_split (n : nat) : forall s : string,
  (n <= String.length s)%nat ->
  s = (substring 0 n s ++ substring n (String.length s - n) s)%string.
Proof.
  induction n as [|n IH]; intros s Hn.
  - rewrite Nat.sub_0_r, substring_all. now destruct s.
  - destruct s as [|c s]; cbn in Hn; [lia|].
    cbn. f_equal. apply IH. lia.
Qed.

Lemma endswith_suffix (str ending : string) :
  endswith str ending = true <-> exists pre, str = (pre ++ ending)%string.
Proof.
  unfold endswith. split.
  - destruct (Nat.leb_spec (String.length ending) (String.length str)) as [Hl|];
      [|discriminate].
    intros E. apply String.eqb_eq in E.
    exists (substring 0 (String.length str - String.length ending) str).
    pose proof (substring_split (String.length str - String.length ending) str
                  ltac:(lia)) as Hs.
    replace (String.length str - (String.length str - String.length ending))%nat
      with (String.length ending) in Hs by lia.
    rewrite E in Hs. exact Hs.
  - intros [pre ->]. rewrite string_length_append.
    destruct (Nat.leb_spec (String.length ending)
                (String.length pre + String.length ending)) as [_|]; [|lia].
    replace (String.length pre + String.length ending - String.length ending)%nat
      with (String.length pre) by lia.
    rewrite substring_suffix. apply String.eqb_refl.
Qed.

(** X13: [endswith] holds exactly of the strings that end with [ending]:
    those of the form [pre ++ ending]. In particular every string ends
    with the empty string, and no string ends with a longer one. *)
Theorem endswith_spec (str ending : string) :
  (endswith str ending = true <-> exists pre, str = (pre ++ ending)%string) /\
  endswith str EmptyString = true /\
  ((String.length str < String.length ending)%nat -> endswith str ending = false).
Proof.
  split; [apply endswith_suffix|]. split.
  - apply endswith_suffix. exists str. induction str as [|c str IH]; cbn;
      [reflexivity|]. now rewrite <- IH.
  - intros Hl. unfold endswith.
    destruct (Nat.leb_spec (String.length ending) (String.length str)); [lia|].
    reflexivity.
Qed.

(** X14: the mesh writer is chosen exactly when the file name ends with
    one of the registered extensions, as a plain suffix: no dot is looked
    for before the extension, so that a name such as [myobj] is taken for
    a mesh file when [obj] is registered; every other name goes to the
    raw volume writer. *)
Theorem choose_writer_spec (extensions : list string) (filename : string) :
  (choose_writer extensions filename = TriangleMeshDump <->
   exists ext pre, In ext extensions /\ filename = (pre ++ ext)%string) /\
  (choose_writer extensions filename = ParaviewDump <->
   forall ext pre, In ext extensions -> filename <> (pre ++ ext)%string) /\
  (In "obj"%string extensions -> choose_writer extensions "myobj" = TriangleMeshDump).
Proof.
  assert (H : filename_has_supported_extension extensions filename = true <->
              exists ext pre, In ext extensions /\ filename = (pre ++ ext)%string).
  { unfold filename_has_supported_extension. rewrite existsb_exists. split.
    - intros (ext & Hin & He). apply endswith_suffix in He as [pre ->]. eauto.
    - intros (ext & pre & Hin & ->). exists ext. split; [exact Hin|].
      apply endswith_suffix. eauto. }
  unfold choose_writer. split; [|split].
  - rewrite <- H. destruct (filename_has_supported_extension _ _);
      split; (reflexivity || discriminate).
  - destruct H as [H1 H2].
    destruct (filename_has_supported_extension _ _); split; intros Hp;
      try discriminate; try reflexivity.
    + destruct (H1 eq_refl) as (ext & pre & Hin & ->).
      exfalso. exact (Hp ext pre Hin eq_refl).
    + intros ext pre Hin ->.
      assert (Ht : false = true) by (apply H2; eauto). discriminate.
  - intros Hin. unfold filename_has_supported_extension.
    assert (He : existsb (endswith "myobj") extensions = true).
    { apply existsb_exists. exists "obj"%string. split; [exact Hin|reflexivity]. }
    now rewrite He.
Qed.

(** X15: the other round trip of the layout. For a linear index
    [0 <= idx < nx * ny * nz] that fits an [int], [index3_from_index]
    returns a cell inside the grid and [index_from_index3] maps that cell
    back to [idx]. *)
Theorem layout_roundtrip_index idx nx ny nz :
  0 <= nx -> 0 <= ny -> 0 <= idx < nx * ny * nz -> idx <= int_max ->
  exists p,
    Layout.index3_from_index idx (Vec3i nx ny nz) = Ok p /\
    (0 <= c0 p < nx /\ 0 <= c1 p < ny /\ 0 <= c2 p < nz) /\
    Layout.index_from_index3 p (Vec3i nx ny nz) = idx.
Proof.
  intros Hnx Hny Hidx Hfit.
  destruct (cell_of_bounds nx ny nz idx Hidx Hnx Hny) as (A & B & C & L).
  exists (cell_of (Vec3i nx ny nz) idx).
  split; [|split; [auto|]].
  - apply index3_from_index_nonneg; cbn [c0 c1]; lia.
  - destruct (cell_of (Vec3i nx ny nz) idx) as [x y z]. cbn [c0 c1 c2] in *.
    rewrite index_from_index3_exact by lia. exact L.
Qed.

Lemma layout_roundtrip_index_witness :
  exists p,
    Layout.index3_from_index 17 (Vec3i 2 3 4) = Ok p /\
    (0 <= c0 p < 2 /\ 0 <= c1 p < 3 /\ 0 <= c2 p < 4) /\
    Layout.index_from_index3 p (Vec3i 2 3 4) = 17.
Proof.
  apply (layout_roundtrip_index 17 2 3 4); unfold int_max; lia.
Defined.

(** ** The facets that a voxel emits *)

Section Facets.

Variable voxels : VoxelGrid.
Let nx := c0 (m_grid_size voxels).
Let ny := c1 (m_grid_size voxels).
Let nz := c2 (m_grid_size voxels).
Hypothesis Hnx : 0 <= nx.
Hypothesis Hny : 0 <= ny.
Hypothesis Hnz : 0 <= nz.
Hypothesis Hnodes : (nx + 1) * (ny + 1) * (nz + 1) <= int_max.
Hypothesis Hlen : Z.of_nat (length (m_data voxels)) = nx * ny * nz.

(** The six lists that [voxel_facets] strings together. *)
Lemma voxel_facets_concat p v :
  occupancy voxels p = Some v -> v <> 0 ->
  voxel_facets voxels p
  = concat (map (fun d : facet =>
                   if neighbor_empty voxels p (f_axis d) (f_delta d)
                   then quad (corners p (vadd (m_grid_size voxels) (Vec3i 1 1 1)))
                             (f_v1 d) (f_v2 d) (f_v3 d) (f_v4 d)
                   else []) facet_table).
Proof.
  intros Ho Hv. unfold voxel_facets. rewrite Ho.
  destruct (Z.eqb_spec v 0); [contradiction|].
  apply flat_map_concat_map.
Qed.

Lemma quads_on_shared_faces p :
  0 <= c0 p < nx -> 0 <= c1 p < ny -> 0 <= c2 p < nz ->
  Forall2 (emitted_for voxels p) directions
    (map (fun d : facet =>
            if neighbor_empty voxels p (f_axis d) (f_delta d)
            then quad (corners p (vadd (m_grid_size voxels) (Vec3i 1 1 1)))
                      (f_v1 d) (f_v2 d) (f_v3 d) (f_v4 d)
            else []) facet_table).
Proof.
  intros A B C.
  pose proof (corners_exact voxels) as Hc. feed Hc.
  rewrite (Hc p A B C). clear Hc.
  unfold facet_table, directions, corner_offsets.
  cbn [map f_axis f_delta f_v1 f_v2 f_v3 f_v4 quad corner nth app c0 c1 c2].
  repeat (apply Forall2_cons; split; [|]); try apply Forall2_nil_2.
  all: unfold emitted_for; cbn [fst snd].
  all: match goal with |- if ?b then _ else _ => destruct b end; [|reflexivity].
  all: unfold shared_face_quad.
  all: eexists (Vec3i _ _ _), (Vec3i _ _ _), (Vec3i _ _ _), (Vec3i _ _ _).
  all: split; [unfold node_index; cbn [map c0 c1 c2]; reflexivity|].
  all: split; [|split].
  all: match goal with
       | |- NoDup _ =>
           repeat (apply NoDup_cons; split;
                   [rewrite ?elem_of_cons, elem_of_nil; intros H;
                    repeat (destruct H as [H|H]; [injection H; lia|]); exact H|]);
           apply NoDup_nil_2
       | |- Forall _ _ =>
           repeat (apply Forall_cons; split;
                   [unfold on_shared_face, vget;
                    cbn [c0 c1 c2 Z.eqb Pos.eqb Z.ltb Z.compare]; lia|]);
           apply Forall_nil_2
       | |- _ => cbn [c0 c1 c2]; lia
       end.
Qed.

End Facets.

(** C7: on a grid whose node count fits an [int], the loop over the
    voxels returns, and the triangle list it builds is, voxel after voxel
    in the order of the linear index, what the voxel emits for the six
    directions in the order of the calls. A voxel of occupancy [0] emits
    nothing. A voxel of another occupancy emits, for each direction, the
    two triangles of the face it shares with the neighbour in that
    direction (the four corners of that face, named by their node
    indices, the triangles meeting along a diagonal) when this neighbour
    is outside the grid or has occupancy [0], and nothing when it has
    another occupancy. *)
Theorem boundary_facets_emitted voxels :
  let nx := c0 (m_grid_size voxels) in
  let ny := c1 (m_grid_size voxels) in
  let nz := c2 (m_grid_size voxels) in
  0 <= nx -> 0 <= ny -> 0 <= nz ->
  (nx + 1) * (ny + 1) * (nz + 1) <= int_max ->
  Z.of_nat (length (m_data voxels)) = nx * ny * nz ->
  exists per : Z -> list (list Z),
    emit_triangles voxels
    = Ok (flat_map (fun idx => concat (per idx))
                   (steps 0 1 (length (m_data voxels)))) /\
    forall idx, 0 <= idx < nx * ny * nz ->
      exists x y z v,
        (0 <= x < nx /\ 0 <= y < ny /\ 0 <= z < nz) /\
        idx = linear x y z nx ny /\
        m_data voxels !! Z.to_nat idx = Some v /\
        if v =? 0 then per idx = []
        else Forall2 (emitted_for voxels (Vec3i x y z)) directions (per idx).
Proof.
  intros nx ny nz Hnx Hny Hnz Hnodes Hlen.
  pose proof (nodes_bounds voxels) as Hb. feed Hb.
  destruct Hb as (B1 & B2 & _).
  exists (fun idx =>
            let p := cell_of (m_grid_size voxels) idx in
            match occupancy voxels p with
            | Some v =>
                if v =? 0 then []
                else map (fun d : facet =>
                            if neighbor_empty voxels p (f_axis d) (f_delta d)
                            then quad (corners p (vadd (m_grid_size voxels)
                                                       (Vec3i 1 1 1)))
                                      (f_v1 d) (f_v2 d) (f_v3 d) (f_v4 d)
                            else []) facet_table
            | None => []
            end).
  split.
  - rewrite (emit_triangles_ok voxels Hnx Hny Hnz B1 B2 Hlen).
    fold nx ny nz. rewrite <- Hlen, Nat2Z.id. f_equal.
    apply flat_map_ext. intros idx. cbv zeta. unfold voxel_facets.
    destruct (occupancy voxels _) as [v|]; [|reflexivity].
    destruct (v =? 0); [reflexivity|]. apply flat_map_concat_map.
  - intros idx Hidx. cbv zeta.
    destruct (cell_of_bounds nx ny nz idx Hidx Hnx Hny) as (A & B & C & L).
    pose proof (grid_size_vec voxels) as Hg. fold nx ny nz in Hg.
    rewrite <- Hg in A, B, C, L.
    destruct (cell_of (m_grid_size voxels) idx) as [x y z] eqn:Ep.
    cbn [c0 c1 c2] in A, B, C, L.
    destruct (occupancy_in voxels Hlen (Vec3i x y z) A B C) as (v & Eo & El).
    cbn [c0 c1 c2] in El. fold nx ny in El. rewrite L in El.
    exists x, y, z, v. split; [auto|]. split; [auto|]. split; [exact El|].
    rewrite Eo. destruct (v =? 0); [reflexivity|].
    pose proof (quads_on_shared_faces voxels) as Hq. feed Hq.
    exact (Hq (Vec3i x y z) A B C).
Qed.

(** Three voxels in a row, the first two occupied: the first has its
    right neighbour occupied, the second has it empty, inside the grid. *)
Lemma boundary_facets_emitted_witness :
  exists per : Z -> list (list Z),
    emit_triangles grid_3_1_1
    = Ok (flat_map (fun idx => concat (per idx)) (steps 0 1 3)) /\
    forall idx, 0 <= idx < 3 * 1 * 1 ->
      exists x y z v,
        (0 <= x < 3 /\ 0 <= y < 1 /\ 0 <= z < 1) /\
        idx = linear x y z 3 1 /\
        m_data grid_3_1_1 !! Z.to_nat idx = Some v /\
        if v =? 0 then per idx = []
        else Forall2 (emitted_for grid_3_1_1 (Vec3i x y z)) directions (per idx).
Proof.
  apply (boundary_facets_emitted grid_3_1_1); cbn; unfold int_max; lia.
Defined.

(** ** Operations of binary64 that are exact *)

Lemma digits2_pos_lt m : Z.pos m < 2 ^ Z.pos (digits2_pos m).
Proof.
  induction m as [m IH|m IH|]; cbn [digits2_pos].
  - rewrite Pos2Z.inj_succ, Z.pow_succ_r by lia. lia.
  - rewrite Pos2Z.inj_succ, Z.pow_succ_r by lia. lia.
  - cbn. lia.
Qed.

Lemma digits2_pos_unique m d :
  2 ^ (d - 1) <= Z.pos m < 2 ^ d -> 0 < d -> Z.pos (digits2_pos m) = d.
Proof.
  intros [Hl Hu] Hd.
  pose proof (digits2_pos_le m) as H1. pose proof (digits2_pos_lt m) as H2.
  destruct (Z.lt_trichotomy (Z.pos (digits2_pos m)) d) as [H|[H|H]]; [|exact H|].
  - assert (2 ^ Z.pos (digits2_pos m) <= 2 ^ (d - 1)) by (apply Z.pow_le_mono_r; lia). lia.
  - assert (2 ^ d <= 2 ^ (Z.pos (digits2_pos m) - 1)) by (apply Z.pow_le_mono_r; lia). lia.
Qed.

Lemma digits2_pos_shift m k :
  0 <= k -> forall M, Z.pos M = Z.pos m * 2 ^ k ->
  Z.pos (digits2_pos M) = Z.pos (digits2_pos m) + k.
Proof.
  intros Hk M HM. apply digits2_pos_unique; [|lia].
  pose proof (digits2_pos_le m) as H1. pose proof (digits2_pos_lt m) as H2.
  rewrite HM.
  replace (Z.pos (digits2_pos m) + k - 1) with ((Z.pos (digits2_pos m) - 1) + k) by lia.
  rewrite !Z.pow_add_r by lia.
  assert (0 < 2 ^ k) by (apply Z.pow_pos_nonneg; lia). nia.
Qed.

Lemma iter_xO_val d m : Z.pos (Pos.iter xO m d) = Z.pos m * 2 ^ Z.pos d.
Proof.
  induction d as [|d IH] using Pos.peano_ind.
  - cbn. lia.
  - rewrite Pos.iter_succ, Pos2Z.inj_succ, Z.pow_succ_r by lia.
    rewrite (Pos2Z.inj_xO _), IH. lia.
Qed.

(** Shifting out zeros only. *)
Lemma shr_1_even q : shr_1 (Build_shr_record (Z.pos (xO q)) false false)
                     = Build_shr_record (Z.pos q) false false.
Proof. reflexivity. Qed.

Lemma shr_iter_exact p : forall M m,
  Z.pos M = Z.pos m * 2 ^ Z.pos p ->
  SpecFloat.iter_pos shr_1 p (Build_shr_record (Z.pos M) false false)
  = Build_shr_record (Z.pos m) false false.
Proof.
  induction p as [p IH|p IH|]; intros M m HM; cbn [SpecFloat.iter_pos].
  - rewrite (Pos2Z.inj_xI p) in HM.
    replace (2 * Z.pos p + 1) with (1 + (Z.pos p + Z.pos p)) in HM by lia.
    rewrite !Z.pow_add_r, Z.pow_1_r in HM by lia.
    assert (H0 : 0 < 2 ^ Z.pos p) by (apply Z.pow_pos_nonneg; lia).
    destruct M as [M|M|]; try lia.
    rewrite shr_1_even.
    assert (H1 : exists m1, Z.pos m1 = Z.pos m * 2 ^ Z.pos p).
    { destruct (Z.pos m * 2 ^ Z.pos p) as [|m1|m1] eqn:E; try lia. eauto. }
    destruct H1 as [m1 H1].
    rewrite (IH M m1) by (rewrite H1; lia).
    apply IH. exact H1.
  - rewrite (Pos2Z.inj_xO p) in HM.
    replace (2 * Z.pos p) with (Z.pos p + Z.pos p) in HM by lia.
    rewrite !Z.pow_add_r in HM by lia.
    assert (H0 : 0 < 2 ^ Z.pos p) by (apply Z.pow_pos_nonneg; lia).
    assert (H1 : exists m1, Z.pos m1 = Z.pos m * 2 ^ Z.pos p).
    { destruct (Z.pos m * 2 ^ Z.pos p) as [|m1|m1] eqn:E; try lia. eauto. }
    destruct H1 as [m1 H1].
    rewrite (IH M m1) by (rewrite H1; lia).
    apply IH. exact H1.
  - change (2 ^ 1) with 2 in HM. destruct M as [M|M|]; try lia.
    rewrite shr_1_even. f_equal. lia.
Qed.

Lemma binary_round_aux_canonical s m t :
  fexp prec emax (Z.pos (digits2_pos m) + t) = t -> t <= 971 ->
  binary_round_aux prec emax s (Z.pos m) t loc_Exact = S754_finite s m t.
Proof.
  intros Ht Hmax. unfold binary_round_aux, shr_fexp. cbn [Zdigits2].
  rewrite Ht, Z.sub_diag. cbn [shr shr_record_of_loc shr_m loc_of_shr_record
                               round_nearest_even Zdigits2].
  rewrite Ht, Z.sub_diag. cbn [shr shr_record_of_loc shr_m].
  destruct (Z.leb_spec t (emax - prec)) as [_|H]; [reflexivity|].
  unfold emax, prec in H. lia.
Qed.

Lemma binary_round_exact s M E m t :
  t = fexp prec emax (Z.pos (digits2_pos M) + E) -> t <= 971 ->
  Z.pos M * 2 ^ (E - Z.min E t) = Z.pos m * 2 ^ (t - Z.min E t) ->
  binary_round prec emax s M E = S754_finite s m t.
Proof.
  intros Ht Hmax Hv. unfold binary_round, shl_align. rewrite <- Ht.
  destruct (t - E) as [|p|p] eqn:Ep.
  - assert (t = E) by lia. subst E.
    rewrite Z.min_id, Z.sub_diag, !Z.mul_1_r in Hv. injection Hv as ->.
    apply binary_round_aux_canonical; [now rewrite <- Ht|exact Hmax].
  - rewrite Z.min_l, Z.sub_diag, Z.mul_1_r in Hv by lia. rewrite Ep in Hv.
    unfold binary_round_aux, shr_fexp. cbn [Zdigits2].
    rewrite <- Ht, Ep. cbn [shr shr_record_of_loc].
    rewrite (shr_iter_exact p M m Hv).
    cbn [shr_m loc_of_shr_record round_nearest_even Zdigits2].
    assert (Hd : Z.pos (digits2_pos M) = Z.pos (digits2_pos m) + Z.pos p)
      by (apply (digits2_pos_shift m (Z.pos p)); [lia|exact Hv]).
    assert (Ht' : fexp prec emax (Z.pos (digits2_pos m) + (E + Z.pos p)) = E + Z.pos p).
    { replace (Z.pos (digits2_pos m) + (E + Z.pos p))
        with (Z.pos (digits2_pos M) + E) by lia. lia. }
    rewrite Ht', Z.sub_diag. cbn [shr shr_record_of_loc shr_m].
    replace (E + Z.pos p) with t by lia.
    destruct (Z.leb_spec t (emax - prec)) as [_|H]; [reflexivity|].
    unfold emax, prec in H. lia.
  - rewrite Z.min_r, Z.sub_diag, Z.mul_1_r in Hv by lia.
    assert (Hp : E - t = Z.pos p) by lia. rewrite Hp in Hv.
    assert (Hm : Pos.iter xO M p = m).
    { apply Pos2Z.inj. rewrite iter_xO_val. exact Hv. }
    rewrite Hm.
    apply binary_round_aux_canonical; [|exact Hmax].
    rewrite (digits2_pos_shift M (Z.pos p) ltac:(lia) m ltac:(lia)).
    replace (Z.pos (digits2_pos M) + Z.pos p + t) with (Z.pos (digits2_pos M) + E) by lia.
    now rewrite <- Ht.
Qed.

(** The double of a positive integer below 2^53. *)
Lemma binary_round_int s M k n :
  0 <= k -> Z.pos M = Z.pos n * 2 ^ k -> Z.pos (digits2_pos n) <= 53 ->
  exists m,
    binary_round prec emax s M (- k) = S754_finite s m (Z.pos (digits2_pos n) - 53) /\
    Z.pos m = Z.pos n * 2 ^ (53 - Z.pos (digits2_pos n)).
Proof.
  intros Hk HM Hd.
  set (d := Z.pos (digits2_pos n)) in *.
  assert (Hdm : Z.pos (digits2_pos M) = d + k) by (apply (digits2_pos_shift n k); assumption).
  assert (Ht : fexp prec emax (Z.pos (digits2_pos M) + - k) = d - 53).
  { rewrite fexp_val. assert (0 < d) by (subst d; lia). lia. }
  assert (Hm : exists m, Z.pos m = Z.pos n * 2 ^ (53 - d)).
  { assert (0 < 2 ^ (53 - d)) by (apply Z.pow_pos_nonneg; lia).
    destruct (Z.pos n * 2 ^ (53 - d)) as [|m|m] eqn:E; try lia. eauto. }
  destruct Hm as [m Hm]. exists m. split; [|exact Hm].
  apply binary_round_exact; [now rewrite Ht|lia|].
  rewrite HM, Hm.
  destruct (Z.le_ge_cases (- k) (d - 53)).
  - rewrite Z.min_l by lia. rewrite Z.sub_diag, Z.mul_1_r.
    rewrite <- !Z.mul_assoc, <- Z.pow_add_r by lia. f_equal. f_equal. lia.
  - rewrite Z.min_r by lia. rewrite Z.sub_diag, Z.mul_1_r.
    rewrite <- !Z.mul_assoc, <- Z.pow_add_r by lia. f_equal. f_equal. lia.
Qed.

Lemma digits2_pos_bound n b : 0 <= b -> Z.pos n < 2 ^ b -> Z.pos (digits2_pos n) <= b.
Proof.
  intros Hb Hn. pose proof (digits2_pos_le n) as H.
  destruct (Z.le_gt_cases (Z.pos (digits2_pos n)) b) as [|Hgt]; [assumption|].
  assert (2 ^ b <= 2 ^ (Z.pos (digits2_pos n) - 1)) by (apply Z.pow_le_mono_r; lia).
  lia.
Qed.










(** * The rescale to the unit box *)

(** ** Integers as [double] *)

(** The double of a positive integer below 2^53: a mantissa of 53 digits. *)
Lemma double_of_int_pos n :
  0 < n < 2 ^ 53 ->
  exists m d,
    double_of_int n = S754_finite false m (d - 53) /\
    Z.pos m = n * 2 ^ (53 - d) /\ 2 ^ (d - 1) <= n < 2 ^ d /\ 1 <= d <= 53.
Proof.
  intros Hn. destruct n as [|p|p]; try lia.
  assert (Hd : Z.pos (digits2_pos p) <= 53) by (apply digits2_pos_bound; lia).
  destruct (binary_round_int false p 0 p ltac:(lia) ltac:(lia) Hd) as (m & E & Hm).
  exists m, (Z.pos (digits2_pos p)). split; [exact E|]. split; [exact Hm|].
  pose proof (digits2_pos_le p). pose proof (digits2_pos_lt p). lia.
Qed.

Lemma double_of_int_zero : double_of_int 0 = S754_zero false.
Proof. reflexivity. Qed.

Lemma pow2_mantissa n d :
  2 ^ (d - 1) <= n < 2 ^ d -> 1 <= d <= 53 ->
  2 ^ 52 <= n * 2 ^ (53 - d) < 2 ^ 53.
Proof.
  intros [Hl Hu] Hd.
  assert (P : 0 < 2 ^ (53 - d)) by (apply Z.pow_pos_nonneg; lia).
  assert (E1 : 2 ^ 52 = 2 ^ (d - 1) * 2 ^ (53 - d)).
  { rewrite <- Z.pow_add_r by lia. f_equal. lia. }
  assert (E2 : 2 ^ 53 = 2 ^ d * 2 ^ (53 - d)).
  { rewrite <- Z.pow_add_r by lia. f_equal. lia. }
  rewrite E1, E2. nia.
Qed.

Lemma digits_mono a b da db :
  2 ^ (da - 1) <= a < 2 ^ da -> 2 ^ (db - 1) <= b < 2 ^ db ->
  1 <= da -> 1 <= db -> a <= b -> da <= db.
Proof.
  intros [Ha1 Ha2] [Hb1 Hb2] Hda Hdb Hab.
  destruct (Z.le_gt_cases da db) as [|Hgt]; [assumption|].
  assert (2 ^ db <= 2 ^ (da - 1)) by (apply Z.pow_le_mono_r; lia). lia.
Qed.

Lemma dlt_finite_pos m e m' e' :
  dlt (S754_finite false m e) (S754_finite false m' e') = true
  <-> e < e' \/ (e = e' /\ Z.pos m < Z.pos m').
Proof.
  rewrite dlt_key by reflexivity. cbn [fkey]. unfold klt. cbn [fst snd]. lia.
Qed.

Lemma double_of_int_lt a b :
  0 <= a < 2 ^ 53 -> 0 <= b < 2 ^ 53 ->
  dlt (double_of_int a) (double_of_int b) = (a <? b).
Proof.
  intros Ha Hb.
  destruct (Z.eq_dec a 0) as [->|Ha0]; destruct (Z.eq_dec b 0) as [->|Hb0].
  - reflexivity.
  - destruct (double_of_int_pos b ltac:(lia)) as (m & d & E & _).
    rewrite E, double_of_int_zero. destruct (Z.ltb_spec 0 b); [reflexivity|lia].
  - destruct (double_of_int_pos a ltac:(lia)) as (m & d & E & _).
    rewrite E, double_of_int_zero. destruct (Z.ltb_spec a 0); [lia|reflexivity].
  - destruct (double_of_int_pos a ltac:(lia)) as (ma & da & Ea & Hma & Hda & Rda).
    destruct (double_of_int_pos b ltac:(lia)) as (mb & db & Eb & Hmb & Hdb & Rdb).
    rewrite Ea, Eb.
    destruct (Z.ltb_spec a b) as [Hlt|Hge].
    + apply dlt_finite_pos.
      pose proof (digits_mono a b da db Hda Hdb ltac:(lia) ltac:(lia) ltac:(lia)).
      destruct (Z.eq_dec da db) as [->|]; [right|left; lia].
      split; [reflexivity|]. rewrite Hma, Hmb.
      assert (0 < 2 ^ (53 - db)) by (apply Z.pow_pos_nonneg; lia). nia.
    + destruct (dlt _ _) eqn:D; [|reflexivity]. exfalso.
      apply dlt_finite_pos in D.
      pose proof (digits_mono b a db da Hdb Hda ltac:(lia) ltac:(lia) ltac:(lia)).
      destruct D as [D|[D1 D2]]; [lia|].
      assert (da = db) by lia. subst da. rewrite Hma, Hmb in D2.
      assert (0 < 2 ^ (53 - db)) by (apply Z.pow_pos_nonneg; lia). nia.
Qed.

Lemma double_of_int_not_nan n : 0 <= n < 2 ^ 53 -> is_nan (double_of_int n) = false.
Proof.
  intros Hn. destruct (Z.eq_dec n 0) as [->|]; [reflexivity|].
  destruct (double_of_int_pos n ltac:(lia)) as (m & d & E & _). now rewrite E.
Qed.

Lemma shl_align_val m e e' :
  e' <= e -> Z.pos (shl_align m e e').1 = Z.pos m * 2 ^ (e - e').
Proof.
  intros He. unfold shl_align.
  destruct (e' - e) as [|p|p] eqn:Ep; cbn [fst]; try lia.
  - replace (e - e') with 0 by lia. cbn. lia.
  - rewrite iter_xO_val. f_equal. f_equal. lia.
Qed.

Lemma double_of_int_sub a b :
  0 <= b <= a -> a < 2 ^ 53 ->
  dsub (double_of_int a) (double_of_int b) = double_of_int (a - b).
Proof.
  intros Hab Ha.
  destruct (Z.eq_dec b 0) as [->|Hb0].
  { rewrite Z.sub_0_r, double_of_int_zero.
    destruct (Z.eq_dec a 0) as [->|Ha0]; [reflexivity|].
    destruct (double_of_int_pos a ltac:(lia)) as (m & d & E & _). now rewrite E. }
  destruct (double_of_int_pos a ltac:(lia)) as (ma & da & Ea & Hma & Hda & Rda).
  destruct (double_of_int_pos b ltac:(lia)) as (mb & db & Eb & Hmb & Hdb & Rdb).
  rewrite Ea, Eb. unfold dsub, SFsub.
  pose proof (digits_mono b a db da Hdb Hda ltac:(lia) ltac:(lia) ltac:(lia)) as Hd.
  rewrite (Z.min_r (da - 53) (db - 53)) by lia.
  cbn [cond_Zopp].
  rewrite (shl_align_val ma (da - 53) (db - 53)) by lia.
  rewrite (shl_align_val mb (db - 53) (db - 53)) by lia.
  rewrite Z.sub_diag, Z.mul_1_r, Hma, Hmb.
  replace (da - 53 - (db - 53)) with (da - db) by lia.
  rewrite <- Z.mul_assoc, <- Z.pow_add_r by lia.
  replace (53 - da + (da - db)) with (53 - db) by lia.
  rewrite <- Z.mul_sub_distr_r.
  destruct (Z.eq_dec a b) as [->|Hne].
  { rewrite Z.sub_diag. reflexivity. }
  assert (P : 0 < 2 ^ (53 - db)) by (apply Z.pow_pos_nonneg; lia).
  destruct (a - b) as [|n|n] eqn:En; try lia.
  destruct (Z.pos n * 2 ^ (53 - db)) as [|M|M] eqn:EM; try lia.
  cbn [binary_normalize]. unfold double_of_int. cbn [binary_normalize].
  assert (Hdn : Z.pos (digits2_pos n) <= 53) by (apply digits2_pos_bound; lia).
  destruct (binary_round_int false M (53 - db) n ltac:(lia) ltac:(lia) Hdn) as (m1 & E1 & H1).
  destruct (binary_round_int false n 0 n ltac:(lia) ltac:(lia) Hdn) as (m2 & E2 & H2).
  replace (db - 53) with (- (53 - db)) by lia.
  change (- 0) with 0 in E2. rewrite E1, E2. f_equal. apply Pos2Z.inj. lia.
Qed.

(** ** The division of [double], on whole numbers *)

Lemma new_location_compare m2 r :
  0 < m2 -> 0 <= r ->
  new_location m2 r = if r =? 0 then loc_Exact else loc_Inexact (2 * r ?= m2).
Proof.
  intros Hm Hr. unfold new_location.
  destruct (Z.even m2) eqn:Ev.
  - reflexivity.
  - unfold new_location_odd. destruct (r =? 0); [reflexivity|]. f_equal.
    assert (Ho : Z.odd m2 = true) by (rewrite <- Z.negb_even, Ev; reflexivity).
    apply Z.odd_spec in Ho as [t Ht].
    destruct (Z.compare_spec (2 * r + 1) m2), (Z.compare_spec (2 * r) m2);
      try reflexivity; lia.
Qed.

Lemma div_eucl_div_mod a b : Z.div_eucl a b = (a / b, a mod b).
Proof. unfold Z.div, Z.modulo. now destruct (Z.div_eucl a b). Qed.

Lemma digits_53 m : 2 ^ 52 <= Z.pos m < 2 ^ 53 -> Z.pos (digits2_pos m) = 53.
Proof. intros H. apply digits2_pos_unique; [exact H|lia]. Qed.

(** The quotient and the location that [SFdiv] computes for two mantissas
    of 53 digits. *)
Lemma SFdiv_core_int a s ma da ms ds :
  0 < a -> 0 < s ->
  Z.pos ma = a * 2 ^ (53 - da) -> 2 ^ (da - 1) <= a < 2 ^ da -> 1 <= da <= 53 ->
  Z.pos ms = s * 2 ^ (53 - ds) -> 2 ^ (ds - 1) <= s < 2 ^ ds -> 1 <= ds <= 53 ->
  let N := a * 2 ^ (53 + ds - da) in
  SFdiv_core_binary prec emax (Z.pos ma) (da - 53) (Z.pos ms) (ds - 53)
  = (N / s, da - ds - 53,
     if N mod s =? 0 then loc_Exact else loc_Inexact (2 * (N mod s) ?= s)).
Proof.
  intros Ha Hs Hma Hda Rda Hms Hds Rds N.
  pose proof (pow2_mantissa a da Hda Rda) as Bma. rewrite <- Hma in Bma.
  pose proof (pow2_mantissa s ds Hds Rds) as Bms. rewrite <- Hms in Bms.
  unfold SFdiv_core_binary. cbn [Zdigits2].
  rewrite (digits_53 ma Bma), (digits_53 ms Bms).
  rewrite fexp_val.
  replace (Z.min (Z.max (53 + (da - 53) - (53 + (ds - 53)) - 53) (-1074))
                 (da - 53 - (ds - 53))) with (da - ds - 53) by lia.
  replace (da - 53 - (ds - 53) - (da - ds - 53)) with 53 by lia.
  rewrite div_eucl_div_mod, Z.shiftl_mul_pow2 by lia.
  assert (Pc : 0 < 2 ^ (53 - ds)) by (apply Z.pow_pos_nonneg; lia).
  assert (Em : Z.pos ma * 2 ^ 53 = N * 2 ^ (53 - ds)).
  { subst N. rewrite Hma, <- !Z.mul_assoc, <- !Z.pow_add_r by lia.
    f_equal. f_equal. lia. }
  rewrite Em, Hms.
  rewrite Z.div_mul_cancel_r by lia.
  rewrite Z.mul_mod_distr_r by lia.
  pose proof (Z.mod_pos_bound N s Hs) as Br.
  rewrite new_location_compare by nia.
  f_equal.
  destruct (Z.eqb_spec (N mod s) 0) as [E0|E0].
  - rewrite E0. reflexivity.
  - destruct (Z.eqb_spec (N mod s * 2 ^ (53 - ds)) 0); [nia|].
    f_equal. rewrite Z.mul_assoc.
    symmetry. apply Zmult_compare_compat_r. lia.
Qed.

Lemma digits_54 m : 2 ^ 53 <= Z.pos m < 2 ^ 54 -> Z.pos (digits2_pos m) = 54.
Proof. intros H. apply digits2_pos_unique; [exact H|lia]. Qed.

Lemma loc_of_shr_record_of_loc m l : loc_of_shr_record (shr_record_of_loc m l) = l.
Proof. destruct l as [|[]]; reflexivity. Qed.

(** The second shift of [binary_round_aux], after the rounding. *)
Lemma shr_fexp_after M e :
  2 ^ 52 <= M <= 2 ^ 53 -> -1074 <= e <= 950 ->
  (let '(mrs, e') := shr_fexp prec emax M e loc_Exact in
   match shr_m mrs with
   | 0 => S754_zero false
   | Z.pos m => if e' <=? emax - prec then S754_finite false m e'
                else S754_infinity false
   | Z.neg _ => S754_nan
   end) = pnorm M e.
Proof.
  intros HM He. unfold pnorm, shr_fexp.
  destruct M as [|m|m]; try lia. cbn [Zdigits2 Z.to_pos].
  destruct (Z.eqb_spec (Z.pos m) (2 ^ 53)) as [E|E].
  - rewrite (digits_54 m) by lia. rewrite fexp_val.
    replace (Z.max (54 + e - 53) (-1074) - e) with 1 by lia.
    cbn [shr shr_record_of_loc].
    rewrite (shr_iter_exact 1 m (Z.to_pos (2 ^ 52))) by (rewrite E; reflexivity).
    cbn [shr_m].
    destruct (Z.leb_spec (e + 1) (emax - prec)) as [_|H]; [reflexivity|].
    unfold emax, prec in H. lia.
  - rewrite (digits_53 m) by lia. rewrite fexp_val.
    replace (Z.max (53 + e - 53) (-1074) - e) with 0 by lia.
    cbn [shr shr_record_of_loc shr_m].
    destruct (Z.leb_spec e (emax - prec)) as [_|H]; [reflexivity|].
    unfold emax, prec in H. lia.
Qed.

Lemma round_nearest_even_range m l :
  m <= round_nearest_even m l <= m + 1.
Proof. destruct l as [|[]]; cbn; try lia. destruct (Z.even m); lia. Qed.

Lemma binary_round_aux_53 Q e l :
  2 ^ 52 <= Q < 2 ^ 53 -> -1074 <= e <= 900 ->
  binary_round_aux prec emax false Q e l = pnorm (round_nearest_even Q l) e.
Proof.
  intros HQ He. unfold binary_round_aux.
  assert (E1 : shr_fexp prec emax Q e l = (shr_record_of_loc Q l, e)).
  { unfold shr_fexp. destruct Q as [|q|q]; try lia. cbn [Zdigits2].
    rewrite (digits_53 q) by lia. rewrite fexp_val.
    replace (Z.max (53 + e - 53) (-1074) - e) with 0 by lia. reflexivity. }
  rewrite E1, shr_record_of_loc_m, loc_of_shr_record_of_loc.
  apply shr_fexp_after; [|lia].
  pose proof (round_nearest_even_range Q l). lia.
Qed.

Lemma binary_round_aux_54 Q e l :
  2 ^ 53 <= Q < 2 ^ 54 -> -1074 <= e <= 900 ->
  binary_round_aux prec emax false Q e l
  = pnorm (round_nearest_even (Q / 2)
             (loc_of_shr_record (shr_1 (shr_record_of_loc Q l)))) (e + 1).
Proof.
  intros HQ He. unfold binary_round_aux.
  assert (E1 : shr_fexp prec emax Q e l = (shr_1 (shr_record_of_loc Q l), e + 1)).
  { unfold shr_fexp. destruct Q as [|q|q]; try lia. cbn [Zdigits2].
    rewrite (digits_54 q) by lia. rewrite fexp_val.
    replace (Z.max (54 + e - 53) (-1074) - e) with 1 by lia. reflexivity. }
  rewrite E1.
  rewrite (shr_1_m (shr_record_of_loc Q l)) by (rewrite shr_record_of_loc_m; lia).
  rewrite shr_record_of_loc_m.
  apply shr_fexp_after; [|lia].
  pose proof (round_nearest_even_range (Q / 2)
                (loc_of_shr_record (shr_1 (shr_record_of_loc Q l)))) as Hr.
  assert (2 ^ 52 <= Q / 2 < 2 ^ 53).
  { split; [apply Z.div_le_lower_bound; lia|apply Z.div_lt_upper_bound; lia]. }
  lia.
Qed.

Lemma loc_after_shift Q l :
  0 < Q ->
  loc_of_shr_record (shr_1 (shr_record_of_loc Q l))
  = match Z.odd Q, l with
    | false, loc_Exact => loc_Exact
    | false, _ => loc_Inexact Lt
    | true, loc_Exact => loc_Inexact Eq
    | true, _ => loc_Inexact Gt
    end.
Proof.
  intros HQ. destruct Q as [|[q|q|]|q]; try lia; destruct l as [|[]]; reflexivity.
Qed.

(** The quotient of two integers below 2^53, as [ddiv] rounds it: the
    mantissa [M] at the exponent [- k] of the binade of [a / s], within
    half a unit of the quotient. *)
Lemma ddiv_int a s :
  0 < a < 2 ^ 53 -> 0 < s < 2 ^ 53 ->
  exists k M,
    0 <= k <= 200 /\
    2 ^ 52 * s <= a * 2 ^ k < 2 ^ 53 * s /\
    2 ^ 52 <= M <= 2 ^ 53 /\
    Z.abs (2 * M * s - 2 * (a * 2 ^ k)) <= s /\
    ddiv (double_of_int a) (double_of_int s) = pnorm M (- k).
Proof.
  intros Ha Hs.
  destruct (double_of_int_pos a Ha) as (ma & da & Ea & Hma & Hda & Rda).
  destruct (double_of_int_pos s Hs) as (ms & ds & Es & Hms & Hds & Rds).
  rewrite Ea, Es. unfold ddiv, SFdiv.
  rewrite (SFdiv_core_int a s ma da ms ds) by (assumption || lia).
  cbn [xorb].
  set (K := 53 + ds - da).
  set (N := a * 2 ^ K).
  assert (HK : 1 <= K <= 105) by (subst K; lia).
  assert (PK : 0 < 2 ^ K) by (apply Z.pow_pos_nonneg; lia).
  pose proof (Z.div_mod N s ltac:(lia)) as DN.
  pose proof (Z.mod_pos_bound N s ltac:(lia)) as BN.
  set (Q := N / s) in *. set (R0 := N mod s) in *.
  assert (BQ : 2 ^ 52 * s <= N < 2 ^ 54 * s).
  { assert (E1 : 2 ^ (da - 1) * 2 ^ K = 2 ^ 52 * 2 ^ ds).
    { rewrite <- !Z.pow_add_r by lia. f_equal. subst K. lia. }
    assert (E2 : 2 ^ da * 2 ^ K = 2 ^ 54 * 2 ^ (ds - 1)).
    { rewrite <- !Z.pow_add_r by lia. f_equal. subst K. lia. }
    subst N. split.
    - apply Z.le_trans with (2 ^ 52 * 2 ^ ds); [nia|]. rewrite <- E1. nia.
    - apply Z.lt_le_trans with (2 ^ da * 2 ^ K); [nia|]. rewrite E2. nia. }
  assert (HQ : 2 ^ 52 <= Q < 2 ^ 54) by nia.
  replace (da - ds - 53) with (- K) by (subst K; lia).
  destruct (Z.lt_ge_cases Q (2 ^ 53)) as [H53|H54].
  - rewrite binary_round_aux_53 by lia.
    exists K. eexists. split; [lia|]. split; [fold N; nia|].
    split; [|split; [|reflexivity]].
    + pose proof (round_nearest_even_range Q
        (if R0 =? 0 then loc_Exact else loc_Inexact (2 * R0 ?= s))). lia.
    + fold N. destruct (Z.eqb_spec R0 0) as [E0|E0]; cbn [round_nearest_even].
      * nia.
      * destruct (Z.compare_spec (2 * R0) s); cbn [round_nearest_even];
          try (destruct (Z.even Q)); nia.
  - rewrite binary_round_aux_54 by lia.
    rewrite loc_after_shift by lia.
    assert (HK1 : 0 <= K - 1) by lia.
    assert (EN : N = 2 * (a * 2 ^ (K - 1))).
    { subst N. replace K with (Z.succ (K - 1)) at 1 by lia.
      rewrite Z.pow_succ_r by lia. lia. }
    set (N' := a * 2 ^ (K - 1)) in *.
    pose proof (Z.div_mod Q 2 ltac:(lia)) as DQ.
    pose proof (Z.mod_pos_bound Q 2 ltac:(lia)) as BQ2.
    set (M0 := Q / 2) in *.
    assert (HM0 : 2 ^ 52 <= M0 < 2 ^ 53) by lia.
    exists (K - 1). eexists. split; [lia|]. split; [fold N'; nia|].
    replace (- K + 1) with (- (K - 1)) by lia.
    split; [|split; [|reflexivity]].
    + match goal with |- _ <= round_nearest_even M0 ?l <= _ =>
        pose proof (round_nearest_even_range M0 l) end. lia.
    + fold N'. rewrite Zodd_mod.
      destruct (Z.eqb_spec (Q mod 2) 1) as [Eb|Eb];
        destruct (Z.eqb_spec R0 0) as [E0|E0]; cbn [round_nearest_even];
        try (destruct (Z.even M0)); try nia;
        destruct (2 * R0 ?= s); cbn [round_nearest_even]; nia.
Qed.

(** ** Quotients of whole numbers: order and bounds *)

Lemma pow2_step k k' : 0 <= k < k' -> 2 * 2 ^ k <= 2 ^ k'.
Proof.
  intros H. rewrite <- Z.pow_succ_r by lia. apply Z.pow_le_mono_r; lia.
Qed.

Lemma pnorm_form M E :
  2 ^ 52 <= M <= 2 ^ 53 ->
  exists m e, pnorm M E = S754_finite false m e /\
    2 ^ 52 <= Z.pos m < 2 ^ 53 /\
    ((M = 2 ^ 53 /\ Z.pos m = 2 ^ 52 /\ e = E + 1) \/
     (M < 2 ^ 53 /\ Z.pos m = M /\ e = E)).
Proof.
  intros HM. unfold pnorm. destruct (Z.eqb_spec M (2 ^ 53)) as [->|Hne].
  - eexists _, _. split; [reflexivity|]. split; [cbn; lia|]. left. cbn. lia.
  - eexists _, _. split; [reflexivity|].
    rewrite Z2Pos.id by lia. split; [lia|]. right. lia.
Qed.

(** Two rounded quotients compare as their values do. *)
Lemma pnorm_le k k' M M' :
  0 <= k -> 0 <= k' -> 2 ^ 52 <= M <= 2 ^ 53 -> 2 ^ 52 <= M' <= 2 ^ 53 ->
  M * 2 ^ k' <= M' * 2 ^ k ->
  dlt (pnorm M' (- k')) (pnorm M (- k)) = false.
Proof.
  intros Hk Hk' HM HM' Hv.
  destruct (pnorm_form M (- k) HM) as (m & e & -> & Bm & Fm).
  destruct (pnorm_form M' (- k') HM') as (m' & e' & -> & Bm' & Fm').
  destruct (dlt _ _) eqn:D; [exfalso|reflexivity].
  apply dlt_finite_pos in D.
  assert (P : 0 < 2 ^ k) by (apply Z.pow_pos_nonneg; lia).
  assert (P' : 0 < 2 ^ k') by (apply Z.pow_pos_nonneg; lia).
  destruct (Z.lt_trichotomy k k') as [Hlt|[Heq|Hgt]].
  - pose proof (pow2_step k k' ltac:(lia)) as S1.
    destruct (Z.eq_dec (k + 1) k') as [E1|E1].
    + destruct Fm as [(? & ? & ?)|(? & ? & ?)], Fm' as [(? & ? & ?)|(? & ? & ?)];
        subst; nia.
    + pose proof (pow2_step (k + 1) k' ltac:(lia)) as S2.
      rewrite Z.pow_add_r, Z.pow_1_r in S2 by lia.
      destruct Fm as [(? & ? & ?)|(? & ? & ?)], Fm' as [(? & ? & ?)|(? & ? & ?)];
        subst; nia.
  - subst k'.
    destruct Fm as [(? & ? & ?)|(? & ? & ?)], Fm' as [(? & ? & ?)|(? & ? & ?)];
      subst; nia.
  - pose proof (pow2_step k' k ltac:(lia)) as S1.
    destruct Fm as [(? & ? & ?)|(? & ? & ?)], Fm' as [(? & ? & ?)|(? & ? & ?)];
      subst; nia.
Qed.

Lemma ddiv_zero_l s :
  0 < s < 2 ^ 53 -> ddiv (double_of_int 0) (double_of_int s) = double_of_int 0.
Proof.
  intros Hs. destruct (double_of_int_pos s Hs) as (m & d & E & _).
  rewrite E. reflexivity.
Qed.

Lemma ddiv_self s :
  0 < s < 2 ^ 53 -> ddiv (double_of_int s) (double_of_int s) = double_of_int 1.
Proof.
  intros Hs. destruct (ddiv_int s s Hs Hs) as (k & M & Hk & Hb & HM & Hh & ->).
  assert (P : 0 < 2 ^ k) by (apply Z.pow_pos_nonneg; lia).
  assert (B1 : 2 ^ 52 <= 2 ^ k < 2 ^ 53) by nia.
  assert (52 <= k) by (apply (Z.pow_le_mono_r_iff 2); lia).
  assert (k < 53) by (apply (Z.pow_lt_mono_r_iff 2); lia).
  assert (k = 52) by lia. subst k.
  assert (M = 2 ^ 52) by nia. subst M. reflexivity.
Qed.

Lemma ddiv_form a s :
  0 < a < 2 ^ 53 -> 0 < s < 2 ^ 53 ->
  exists m e, ddiv (double_of_int a) (double_of_int s) = S754_finite false m e.
Proof.
  intros Ha Hs. destruct (ddiv_int a s Ha Hs) as (k & M & Hk & Hb & HM & Hh & ->).
  destruct (pnorm_form M (- k) HM) as (m & e & -> & _). eauto.
Qed.

Lemma ddiv_le_one a s :
  0 < a <= s -> s < 2 ^ 53 ->
  dlt (double_of_int 1) (ddiv (double_of_int a) (double_of_int s)) = false.
Proof.
  intros Ha Hs.
  destruct (ddiv_int a s ltac:(lia) ltac:(lia)) as (k & M & Hk & Hb & HM & Hh & ->).
  change (double_of_int 1) with (pnorm (2 ^ 52) (- 52)).
  assert (P : 0 < 2 ^ k) by (apply Z.pow_pos_nonneg; lia).
  apply (pnorm_le k 52 M (2 ^ 52)); try lia.
  rewrite (Z.mul_comm M). apply Z.mul_le_mono_nonneg_l; [lia|].
  assert (H1 : a * 2 ^ k <= s * 2 ^ k) by (apply Z.mul_le_mono_nonneg_r; lia).
  destruct (Z.lt_trichotomy k 52) as [Hlt|[Heq|Hgt]].
  - exfalso. pose proof (pow2_step k 52 ltac:(lia)) as H2.
    assert (H3 : s * (2 * 2 ^ k) <= s * 2 ^ 52) by (apply Z.mul_le_mono_nonneg_l; lia).
    lia.
  - subst k. assert (a = s) by lia. subst a.
    destruct (Z_lt_le_dec (2 ^ 52) M) as [Hm|Hm]; [exfalso|exact Hm].
    assert (H3 : (2 ^ 52 + 1) * s <= M * s) by (apply Z.mul_le_mono_nonneg_r; lia).
    lia.
  - pose proof (pow2_step 52 k ltac:(lia)). lia.
Qed.

Lemma ddiv_mono a b s :
  0 < a <= b -> b < 2 ^ 53 -> 0 < s < 2 ^ 53 ->
  dlt (ddiv (double_of_int b) (double_of_int s))
      (ddiv (double_of_int a) (double_of_int s)) = false.
Proof.
  intros Ha Hb Hs.
  destruct (Z.eq_dec a b) as [->|Hne].
  { destruct (ddiv_form b s ltac:(lia) Hs) as (m & e & ->).
    destruct (dlt _ _) eqn:D; [|reflexivity].
    apply dlt_finite_pos in D. lia. }
  destruct (ddiv_int a s ltac:(lia) Hs) as (ka & Ma & Hka & Hba & HMa & Hha & ->).
  destruct (ddiv_int b s ltac:(lia) Hs) as (kb & Mb & Hkb & Hbb & HMb & Hhb & ->).
  assert (Pa : 0 < 2 ^ ka) by (apply Z.pow_pos_nonneg; lia).
  assert (Pb : 0 < 2 ^ kb) by (apply Z.pow_pos_nonneg; lia).
  apply pnorm_le; try lia.
  destruct (Z.lt_trichotomy ka kb) as [Hlt|[Heq|Hgt]].
  - exfalso. pose proof (pow2_step ka kb ltac:(lia)) as H1.
    assert (H2 : a * 2 ^ ka <= b * 2 ^ ka) by (apply Z.mul_le_mono_nonneg_r; lia).
    assert (H3 : b * (2 * 2 ^ ka) <= b * 2 ^ kb) by (apply Z.mul_le_mono_nonneg_l; lia).
    lia.
  - subst kb. apply Z.mul_le_mono_nonneg_r; [lia|].
    assert (H1 : a * 2 ^ ka <= (2 ^ 53 - 1) * 2 ^ ka)
      by (apply Z.mul_le_mono_nonneg_r; lia).
    assert (H2 : (a + 1) * 2 ^ ka <= b * 2 ^ ka)
      by (apply Z.mul_le_mono_nonneg_r; lia).
    destruct (Z_lt_le_dec Mb Ma) as [Hm|Hm]; [exfalso|exact Hm].
    assert (H3 : (Mb + 1) * s <= Ma * s) by (apply Z.mul_le_mono_nonneg_r; lia).
    lia.
  - pose proof (pow2_step kb ka ltac:(lia)) as H1.
    assert (H2 : Ma * 2 ^ kb <= 2 ^ 53 * 2 ^ kb)
      by (apply Z.mul_le_mono_nonneg_r; lia).
    assert (H3 : 2 ^ 52 * (2 * 2 ^ kb) <= 2 ^ 52 * 2 ^ ka)
      by (apply Z.mul_le_mono_nonneg_l; lia).
    assert (H4 : 2 ^ 52 * 2 ^ ka <= Mb * 2 ^ ka)
      by (apply Z.mul_le_mono_nonneg_r; lia).
    lia.
Qed.

(** ** The bounding box of lattice points *)

Lemma int_max_53 n : 0 <= n <= int_max -> 0 <= n < 2 ^ 53.
Proof. unfold int_max. lia. Qed.

Lemma dmin_int x y :
  0 <= x < 2 ^ 53 -> 0 <= y < 2 ^ 53 ->
  dmin (double_of_int x) (double_of_int y) = double_of_int (Z.min x y).
Proof.
  intros Hx Hy. unfold dmin. rewrite double_of_int_lt by assumption.
  destruct (Z.ltb_spec y x); [rewrite Z.min_r by lia|rewrite Z.min_l by lia]; reflexivity.
Qed.

Lemma dmax_int x y :
  0 <= x < 2 ^ 53 -> 0 <= y < 2 ^ 53 ->
  dmax (double_of_int x) (double_of_int y) = double_of_int (Z.max x y).
Proof.
  intros Hx Hy. unfold dmax. rewrite double_of_int_lt by assumption.
  destruct (Z.ltb_spec x y); [rewrite Z.max_r by lia|rewrite Z.max_l by lia]; reflexivity.
Qed.

Lemma dmin_first x :
  0 <= x < 2 ^ 53 -> dmin max_float64 (double_of_int x) = double_of_int x.
Proof.
  intros Hx. unfold dmin.
  destruct (Z.eq_dec x 0) as [->|]; [reflexivity|].
  destruct (double_of_int_pos x ltac:(lia)) as (m & d & E & Hm & Hd & Rd).
  rewrite E.
  assert (D : dlt (S754_finite false m (d - 53)) max_float64 = true)
    by (apply dlt_finite_pos; lia).
  now rewrite D.
Qed.

Lemma dmax_first x :
  0 <= x < 2 ^ 53 -> dmax (SFopp max_float64) (double_of_int x) = double_of_int x.
Proof.
  intros Hx. unfold dmax.
  destruct (Z.eq_dec x 0) as [->|]; [reflexivity|].
  destruct (double_of_int_pos x ltac:(lia)) as (m & d & E & _).
  rewrite E. reflexivity.
Qed.

Lemma lattice_vmin a b : lattice a -> lattice b -> lattice (vmin a b).
Proof. unfold lattice, vmin. cbn. lia. Qed.

Lemma lattice_vmax a b : lattice a -> lattice b -> lattice (vmax a b).
Proof. unfold lattice, vmax. cbn. lia. Qed.

Lemma bbox_step_int a b q :
  lattice a -> lattice b -> lattice q ->
  bbox_step (vec3_of a, vec3_of b) (vec3_of q) = (vec3_of (vmin a q), vec3_of (vmax b q)).
Proof.
  intros (A0 & A1 & A2) (B0 & B1 & B2) (Q0 & Q1 & Q2).
  unfold bbox_step, vec3_of, vx, vy, vz, vmin, vmax. cbn [fst snd c0 c1 c2].
  rewrite !dmin_int, !dmax_int by (apply int_max_53; assumption). reflexivity.
Qed.

Lemma bbox_fold l : forall a b,
  lattice a -> lattice b -> Forall lattice l ->
  foldl bbox_step (vec3_of a, vec3_of b) (map vec3_of l)
  = (vec3_of (foldl vmin a l), vec3_of (foldl vmax b l)).
Proof.
  induction l as [|q l IH]; intros a b Ha Hb Hl; [reflexivity|].
  apply Forall_cons in Hl as [Hq Hl]. cbn [map foldl].
  rewrite bbox_step_int by assumption.
  apply IH; [apply lattice_vmin|apply lattice_vmax|]; assumption.
Qed.

Lemma get_bbox_int q l :
  Forall lattice (q :: l) ->
  get_bbox (map vec3_of (q :: l))
  = (vec3_of (foldl vmin q l), vec3_of (foldl vmax q l)).
Proof.
  intros Hl. pose proof Hl as Hl'. apply Forall_cons in Hl' as [Hq Hl'].
  unfold get_bbox. cbn [map foldl].
  assert (E : bbox_step
                (max_float64, max_float64, max_float64,
                 (SFopp max_float64, SFopp max_float64, SFopp max_float64))
                (vec3_of q) = (vec3_of q, vec3_of q)).
  { destruct Hq as (Q0 & Q1 & Q2).
    unfold bbox_step, vec3_of, vx, vy, vz. cbn [fst snd].
    rewrite !dmin_first, !dmax_first by (apply int_max_53; assumption). reflexivity. }
  rewrite E. apply bbox_fold; assumption.
Qed.

Lemma foldl_vmin_least (f : vec3i -> Z) :
  (forall a b, f (vmin a b) = Z.min (f a) (f b)) ->
  forall l q, least (f (foldl vmin q l)) (map f (q :: l)).
Proof.
  intros Hf. induction l as [|p l IH]; intros q; cbn [foldl map].
  - split; [left|]. repeat constructor. lia.
  - destruct (IH (vmin q p)) as [Hin Hall]. cbn [map] in Hin, Hall.
    apply Forall_cons in Hall as [H1 Hall]. rewrite Hf in H1, Hin.
    split.
    + apply elem_of_cons in Hin as [Hin|Hin].
      * rewrite Hin. destruct (Z.min_spec (f q) (f p)) as [[_ ->]|[_ ->]];
          [left|right; left].
      * right. right. exact Hin.
    + repeat (apply Forall_cons; split); try lia. exact Hall.
Qed.

Lemma foldl_vmax_greatest (f : vec3i -> Z) :
  (forall a b, f (vmax a b) = Z.max (f a) (f b)) ->
  forall l q, greatest (f (foldl vmax q l)) (map f (q :: l)).
Proof.
  intros Hf. induction l as [|p l IH]; intros q; cbn [foldl map].
  - split; [left|]. repeat constructor. lia.
  - destruct (IH (vmax q p)) as [Hin Hall]. cbn [map] in Hin, Hall.
    apply Forall_cons in Hall as [H1 Hall]. rewrite Hf in H1, Hin.
    split.
    + apply elem_of_cons in Hin as [Hin|Hin].
      * rewrite Hin. destruct (Z.max_spec (f q) (f p)) as [[_ ->]|[_ ->]];
          [right; left|left].
      * right. right. exact Hin.
    + repeat (apply Forall_cons; split); try lia. exact Hall.
Qed.

Lemma least_unique a b l : least a l -> least b l -> a = b.
Proof.
  intros [Ha Fa] [Hb Fb]. rewrite Forall_forall in Fa, Fb.
  pose proof (Fa b Hb). pose proof (Fb a Ha). lia.
Qed.

Lemma greatest_unique a b l : greatest a l -> greatest b l -> a = b.
Proof.
  intros [Ha Fa] [Hb Fb]. rewrite Forall_forall in Fa, Fb.
  pose proof (Fa b Hb). pose proof (Fb a Ha). lia.
Qed.

Lemma vec3i_eta q : q = Vec3i (c0 q) (c1 q) (c2 q).
Proof. now destruct q. Qed.

Lemma get_bbox_bounding lo hi pts :
  Forall lattice pts -> bounding_box lo hi pts ->
  get_bbox (map vec3_of pts) = (vec3_of lo, vec3_of hi).
Proof.
  intros Hl (L0 & G0 & L1 & G1 & L2 & G2).
  destruct pts as [|q l].
  { destruct L0 as [H _]. apply elem_of_nil in H. contradiction. }
  rewrite (get_bbox_int q l Hl).
  assert (El : foldl vmin q l = lo).
  { rewrite (vec3i_eta (foldl vmin q l)), (vec3i_eta lo). f_equal.
    - exact (least_unique _ _ _ (foldl_vmin_least c0 (fun _ _ => eq_refl) l q) L0).
    - exact (least_unique _ _ _ (foldl_vmin_least c1 (fun _ _ => eq_refl) l q) L1).
    - exact (least_unique _ _ _ (foldl_vmin_least c2 (fun _ _ => eq_refl) l q) L2). }
  assert (Eh : foldl vmax q l = hi).
  { rewrite (vec3i_eta (foldl vmax q l)), (vec3i_eta hi). f_equal.
    - exact (greatest_unique _ _ _ (foldl_vmax_greatest c0 (fun _ _ => eq_refl) l q) G0).
    - exact (greatest_unique _ _ _ (foldl_vmax_greatest c1 (fun _ _ => eq_refl) l q) G1).
    - exact (greatest_unique _ _ _ (foldl_vmax_greatest c2 (fun _ _ => eq_refl) l q) G2). }
  now rewrite El, Eh.
Qed.

(** ** The rescale of lattice points *)

Lemma ddiv_mono0 a b s :
  0 <= a <= b -> b < 2 ^ 53 -> 0 < s < 2 ^ 53 ->
  dlt (ddiv (double_of_int b) (double_of_int s))
      (ddiv (double_of_int a) (double_of_int s)) = false.
Proof.
  intros Ha Hb Hs.
  destruct (Z.eq_dec a 0) as [->|Ha0]; [|apply ddiv_mono; lia].
  rewrite (ddiv_zero_l s Hs).
  destruct (Z.eq_dec b 0) as [->|Hb0]; [now rewrite (ddiv_zero_l s Hs)|].
  destruct (ddiv_form b s ltac:(lia) Hs) as (m & e & ->). reflexivity.
Qed.

Lemma ddiv_in_unit n s :
  0 <= n <= s -> 0 < s < 2 ^ 53 ->
  in_unit (ddiv (double_of_int n) (double_of_int s)).
Proof.
  intros Hn Hs. unfold in_unit.
  destruct (Z.eq_dec n 0) as [->|Hn0].
  - rewrite (ddiv_zero_l s Hs). split; [reflexivity|]. split; reflexivity.
  - pose proof (ddiv_le_one n s ltac:(lia) ltac:(lia)) as H1.
    destruct (ddiv_form n s ltac:(lia) Hs) as (m & e & E). rewrite E in *.
    split; [reflexivity|]. split; [reflexivity|exact H1].
Qed.

Lemma box_facts pts lo hi :
  Forall lattice pts -> bounding_box lo hi pts ->
  lattice lo /\ lattice hi /\
  (forall q, q ∈ pts ->
     c0 lo <= c0 q <= c0 hi /\ c1 lo <= c1 q <= c1 hi /\ c2 lo <= c2 q <= c2 hi) /\
  (c0 lo <= c0 hi /\ c1 lo <= c1 hi /\ c2 lo <= c2 hi).
Proof.
  intros Hl Hb.
  destruct Hb as ((I0 & L0) & (J0 & G0) & (I1 & L1) & (J1 & G1) & (I2 & L2) & (J2 & G2)).
  rewrite Forall_forall in Hl.
  assert (Hq : forall q, q ∈ pts ->
     c0 lo <= c0 q <= c0 hi /\ c1 lo <= c1 q <= c1 hi /\ c2 lo <= c2 q <= c2 hi).
  { intros q Hq. rewrite Forall_forall in L0, G0, L1, G1, L2, G2.
    pose proof (L0 _ (list_elem_of_fmap_2 c0 _ _ Hq)).
    pose proof (G0 _ (list_elem_of_fmap_2 c0 _ _ Hq)).
    pose proof (L1 _ (list_elem_of_fmap_2 c1 _ _ Hq)).
    pose proof (G1 _ (list_elem_of_fmap_2 c1 _ _ Hq)).
    pose proof (L2 _ (list_elem_of_fmap_2 c2 _ _ Hq)).
    pose proof (G2 _ (list_elem_of_fmap_2 c2 _ _ Hq)). lia. }
  apply list_elem_of_fmap in I0 as (a0 & E0 & A0), J0 as (b0 & F0 & B0).
  apply list_elem_of_fmap in I1 as (a1 & E1 & A1), J1 as (b1 & F1 & B1).
  apply list_elem_of_fmap in I2 as (a2 & E2 & A2), J2 as (b2 & F2 & B2).
  pose proof (Hl _ A0) as (? & ? & ?). pose proof (Hl _ A1) as (? & ? & ?).
  pose proof (Hl _ A2) as (? & ? & ?). pose proof (Hl _ B0) as (? & ? & ?).
  pose proof (Hl _ B1) as (? & ? & ?). pose proof (Hl _ B2) as (? & ? & ?).
  pose proof (Hq _ A0). pose proof (Hq _ A1). pose proof (Hq _ A2).
  pose proof (Hq _ B0). pose proof (Hq _ B1). pose proof (Hq _ B2).
  unfold lattice. repeat split; try lia; apply Hq; assumption.
Qed.

Lemma rescale_image pts lo hi :
  Forall lattice pts -> bounding_box lo hi pts ->
  rescale (map vec3_of pts)
  = map (image lo (Z.max (c0 hi - c0 lo) (Z.max (c1 hi - c1 lo) (c2 hi - c2 lo)))) pts.
Proof.
  intros Hl Hb.
  destruct (box_facts pts lo hi Hl Hb)
    as ((A0 & A1 & A2) & (B0 & B1 & B2) & Hq & (O0 & O1 & O2)).
  unfold rescale. rewrite (get_bbox_bounding lo hi pts Hl Hb).
  change (vec3_of lo)
    with (double_of_int (c0 lo), double_of_int (c1 lo), double_of_int (c2 lo)).
  change (vec3_of hi)
    with (double_of_int (c0 hi), double_of_int (c1 hi), double_of_int (c2 hi)).
  unfold vx, vy, vz. cbn [fst snd].
  rewrite !double_of_int_sub by (unfold int_max in *; lia).
  rewrite !dmax_int by (unfold int_max in *; lia).
  rewrite map_map. apply map_ext_in. intros q Hin.
  apply list_elem_of_In in Hin. destruct (Hq q Hin) as (Q0 & Q1 & Q2).
  unfold image, vec3_of. cbn [fst snd].
  rewrite !double_of_int_sub by (unfold int_max in *; lia). reflexivity.
Qed.

Lemma image_in_unit pts lo hi s :
  Forall lattice pts -> bounding_box lo hi pts ->
  s = Z.max (c0 hi - c0 lo) (Z.max (c1 hi - c1 lo) (c2 hi - c2 lo)) -> 0 < s ->
  Forall (fun p => in_unit (vx p) /\ in_unit (vy p) /\ in_unit (vz p))
         (map (image lo s) pts).
Proof.
  intros Hl Hb Es Hs.
  destruct (box_facts pts lo hi Hl Hb)
    as ((A0 & A1 & A2) & (B0 & B1 & B2) & Hq & _).
  apply Forall_fmap, Forall_forall. intros q Hin. destruct (Hq q Hin) as (Q0 & Q1 & Q2).
  unfold image, vx, vy, vz. cbn [fst snd].
  repeat split; apply ddiv_in_unit; unfold int_max in *; lia.
Qed.

Lemma image_ranges pts lo hi s (f : vec3i -> Z) (g : vec3 -> double) :
  (forall q, g (image lo s q) = ddiv (double_of_int (f q - f lo)) (double_of_int s)) ->
  least (f lo) (map f pts) -> greatest (f hi) (map f pts) ->
  f hi - f lo <= s -> 0 < s < 2 ^ 53 ->
  ranges_over g (map (image lo s) pts) (double_of_int 0)
              (ddiv (double_of_int (f hi - f lo)) (double_of_int s)).
Proof.
  intros Hg [Il Fl] [Ih Fh] Hle Hs.
  rewrite Forall_forall in Fl, Fh.
  pose proof (Fl _ Ih) as Hlh.
  apply list_elem_of_fmap in Il as (a & Ea & Ha), Ih as (b & Eb & Hb').
  split; [|split].
  - exists (image lo s a). split; [apply list_elem_of_fmap_2; exact Ha|].
    rewrite Hg, <- Ea, Z.sub_diag. apply ddiv_zero_l. lia.
  - exists (image lo s b). split; [apply list_elem_of_fmap_2; exact Hb'|].
    rewrite Hg, <- Eb. reflexivity.
  - apply Forall_fmap, Forall_forall. intros q Hin. cbn. rewrite Hg.
    pose proof (Fl _ (list_elem_of_fmap_2 f _ _ Hin)).
    pose proof (Fh _ (list_elem_of_fmap_2 f _ _ Hin)).
    destruct (ddiv_in_unit (f q - f lo) s ltac:(lia) ltac:(lia)) as (N & Z0 & _).
    split; [exact N|]. split; [exact Z0|].
    apply ddiv_mono0; lia.
Qed.

(** ** Quotients up to one rounding *)

Lemma ddiv_near_quotient a s :
  0 <= a < 2 ^ 53 -> 0 < s < 2 ^ 53 ->
  near_quotient (ddiv (double_of_int a) (double_of_int s)) a s.
Proof.
  intros Ha Hs. destruct (Z.eq_dec a 0) as [->|Ha0].
  { rewrite (ddiv_zero_l s Hs). exists 0, 1. cbn. repeat split; lia. }
  destruct (ddiv_int a s ltac:(lia) Hs) as (k & M & Hk & Hb & HM & Hr & ->).
  unfold pnorm. destruct (Z.eqb_spec M (2 ^ 53)) as [->|HM'].
  - destruct (Z.eq_dec k 0) as [->|Hk0].
    + exists (2 ^ 53), 1. split; [reflexivity|]. split; [lia|]. lia.
    + exists (2 ^ 52), (2 ^ (k - 1)). split.
      { cbn [fraction_of]. rewrite Z2Pos.id by lia.
        rewrite (Z.max_r (- k + 1) 0) by lia.
        replace (Z.max (- (- k + 1)) 0) with (k - 1) by lia.
        now rewrite Z.mul_1_r. }
      assert (E : 2 ^ k = 2 * 2 ^ (k - 1)).
      { rewrite <- Z.pow_succ_r by lia. f_equal. lia. }
      pose proof (Z.pow_pos_nonneg 2 (k - 1) ltac:(lia) ltac:(lia)).
      split; [lia|]. rewrite E in *. lia.
  - exists M, (2 ^ k). split.
    { cbn [fraction_of]. rewrite Z2Pos.id by lia.
      rewrite (Z.max_r (- k) 0) by lia.
      replace (Z.max (- - k) 0) with k by lia.
      now rewrite Z.mul_1_r. }
    pose proof (Z.pow_pos_nonneg 2 k ltac:(lia) ltac:(lia)).
    split; [lia|]. lia.
Qed.

Lemma near_quotient_ratio c c' a a' s :
  0 < s -> 0 <= a -> 0 <= a' ->
  near_quotient c a s -> near_quotient c' a' s -> ratio_kept c c' a a'.
Proof.
  intros Hs Ha Ha' (n & d & E & Hd & H) (n' & d' & E' & Hd' & H').
  exists n, d, n', d'. split; [exact E|]. split; [exact E'|].
  set (P := 2 ^ 53) in *.
  set (r := n * s - a * d) in *. set (r' := n' * s - a' * d') in *.
  set (X := n * d' * a' - n' * d * a).
  assert (HP : P = 4 * 2 ^ 51) by reflexivity.
  assert (EX : s * X = r * (d' * a') - r' * (d * a)) by (unfold X, r, r'; ring).
  assert (B1 : P * (Z.abs r * (d' * a')) <= (a * d) * (d' * a')).
  { rewrite Z.mul_assoc. apply Z.mul_le_mono_nonneg_r; [nia|exact H]. }
  assert (B2 : P * (Z.abs r' * (d * a)) <= (a' * d') * (d * a)).
  { rewrite Z.mul_assoc. apply Z.mul_le_mono_nonneg_r; [nia|exact H']. }
  assert (B3 : Z.abs (s * X) <= Z.abs r * (d' * a') + Z.abs r' * (d * a)).
  { rewrite EX. 
    assert (0 <= d' * a') by nia. assert (0 <= d * a) by nia.
    rewrite <- (Z.abs_eq (d' * a')) at 2 by assumption.
    rewrite <- (Z.abs_eq (d * a)) at 2 by assumption.
    rewrite <- !Z.abs_mul. lia. }
  assert (B4 : P * (s * Z.abs X) <= 2 * ((a * d) * (a' * d'))).
  { rewrite Z.abs_mul, (Z.abs_eq s) in B3 by lia. nia. }
  assert (B5 : (P - 1) * (a' * d') <= P * (n' * s)) by (unfold r' in H'; lia).
  assert (B6 : 0 <= a * d) by nia.
  assert (B7 : (P - 1) * (P * (s * Z.abs X)) <= (2 * (a * d)) * (P * (n' * s))).
  { transitivity ((2 * (a * d)) * ((P - 1) * (a' * d'))).
    - replace (2 * (a * d) * ((P - 1) * (a' * d')))
        with ((P - 1) * (2 * ((a * d) * (a' * d')))) by ring.
      apply Z.mul_le_mono_nonneg_l; [unfold P; lia|exact B4].
    - apply Z.mul_le_mono_nonneg_l; [lia|exact B5]. }
  assert (B8 : (P * s) * ((P - 1) * Z.abs X) <= (P * s) * (2 * (a * d) * n')).
  { replace (P * s * ((P - 1) * Z.abs X)) with ((P - 1) * (P * (s * Z.abs X))) by ring.
    replace (P * s * (2 * (a * d) * n')) with (2 * (a * d) * (P * (n' * s))) by ring.
    exact B7. }
  apply Z.mul_le_mono_pos_l in B8; [|unfold P; lia].
  fold X. replace (a * (n' * d)) with (a * d * n') by ring.
  assert (0 <= Z.abs X) by lia.
  unfold P in B8. 
  set (A := Z.abs X) in *. set (C := a * d * n') in *.
  assert (2 ^ 53 - 1 = 2 * 2 ^ 51 + (2 * 2 ^ 51 - 1)) by reflexivity.
  nia.
Qed.

(** ** The rescale of [triangle_mesh_dump] *)

Lemma rescale_unit_box_of pts lo hi :
  Forall lattice pts -> bounding_box lo hi pts ->
  0 < Z.max (c0 hi - c0 lo) (Z.max (c1 hi - c1 lo) (c2 hi - c2 lo)) ->
  unit_box pts lo hi (rescale (map vec3_of pts)).
Proof.
  intros Hl Hb Hs. unfold unit_box.
  set (s := Z.max (c0 hi - c0 lo) (Z.max (c1 hi - c1 lo) (c2 hi - c2 lo))) in *.
  destruct (box_facts pts lo hi Hl Hb)
    as ((A0 & A1 & A2) & (B0 & B1 & B2) & Hq & (O0 & O1 & O2)).
  assert (S0 : s < 2 ^ 53) by (unfold int_max in *; lia).
  rewrite (rescale_image pts lo hi Hl Hb). fold s.
  split; [|split].
  - apply Forall2_fmap_r, Forall_Forall2_diag, Forall_forall. intros q Hin.
    destruct (Hq q Hin) as (Q0 & Q1 & Q2). cbn.
    repeat split; apply ddiv_near_quotient; lia.
  - exact (image_in_unit pts lo hi s Hl Hb eq_refl Hs).
  - destruct Hb as (L0 & G0 & L1 & G1 & L2 & G2).
    exists (ddiv (double_of_int (c0 hi - c0 lo)) (double_of_int s)),
           (ddiv (double_of_int (c1 hi - c1 lo)) (double_of_int s)),
           (ddiv (double_of_int (c2 hi - c2 lo)) (double_of_int s)).
    split; [|split; [|split; [|split; [|split; [|split]]]]].
    + apply (image_ranges pts lo hi s c0 vx); auto; lia.
    + apply (image_ranges pts lo hi s c1 vy); auto; lia.
    + apply (image_ranges pts lo hi s c2 vz); auto; lia.
    + assert (E : c0 hi - c0 lo = s \/ c1 hi - c1 lo = s \/ c2 hi - c2 lo = s)
        by (unfold s; lia).
      destruct E as [E| [E| E]]; rewrite E; [left|right; left|right; right];
        apply ddiv_self; lia.
    + apply (near_quotient_ratio _ _ _ _ s); try lia; apply ddiv_near_quotient; lia.
    + apply (near_quotient_ratio _ _ _ _ s); try lia; apply ddiv_near_quotient; lia.
    + apply (near_quotient_ratio _ _ _ _ s); try lia; apply ddiv_near_quotient; lia.
Qed.

Lemma bounding_box_exists q l :
  bounding_box (foldl vmin q l) (foldl vmax q l) (q :: l).
Proof.
  repeat split;
    first [ apply (foldl_vmin_least c0 (fun _ _ => eq_refl) l q)
          | apply (foldl_vmin_least c1 (fun _ _ => eq_refl) l q)
          | apply (foldl_vmin_least c2 (fun _ _ => eq_refl) l q)
          | apply (foldl_vmax_greatest c0 (fun _ _ => eq_refl) l q)
          | apply (foldl_vmax_greatest c1 (fun _ _ => eq_refl) l q)
          | apply (foldl_vmax_greatest c2 (fun _ _ => eq_refl) l q) ].
Qed.

Lemma bounding_box_thick lo hi pts p1 p2 :
  bounding_box lo hi pts -> p1 ∈ pts -> p2 ∈ pts -> p1 <> p2 ->
  0 < Z.max (c0 hi - c0 lo) (Z.max (c1 hi - c1 lo) (c2 hi - c2 lo)).
Proof.
  intros ((_ & L0) & (_ & G0) & (_ & L1) & (_ & G1) & (_ & L2) & (_ & G2)) H1 H2 Hne.
  rewrite Forall_forall in L0, G0, L1, G1, L2, G2.
  pose proof (L0 _ (list_elem_of_fmap_2 c0 _ _ H1)).
  pose proof (G0 _ (list_elem_of_fmap_2 c0 _ _ H1)).
  pose proof (L1 _ (list_elem_of_fmap_2 c1 _ _ H1)).
  pose proof (G1 _ (list_elem_of_fmap_2 c1 _ _ H1)).
  pose proof (L2 _ (list_elem_of_fmap_2 c2 _ _ H1)).
  pose proof (G2 _ (list_elem_of_fmap_2 c2 _ _ H1)).
  pose proof (L0 _ (list_elem_of_fmap_2 c0 _ _ H2)).
  pose proof (G0 _ (list_elem_of_fmap_2 c0 _ _ H2)).
  pose proof (L1 _ (list_elem_of_fmap_2 c1 _ _ H2)).
  pose proof (G1 _ (list_elem_of_fmap_2 c1 _ _ H2)).
  pose proof (L2 _ (list_elem_of_fmap_2 c2 _ _ H2)).
  pose proof (G2 _ (list_elem_of_fmap_2 c2 _ _ H2)).
  destruct (Z_lt_le_dec 0 (Z.max (c0 hi - c0 lo) (Z.max (c1 hi - c1 lo) (c2 hi - c2 lo))))
    as [Hs|Hs]; [exact Hs|].
  exfalso. apply Hne. rewrite (vec3i_eta p1), (vec3i_eta p2). f_equal; lia.
Qed.

Lemma axis_bounds nx ny nz :
  0 <= nx -> 0 <= ny -> 0 <= nz ->
  (nx + 1) * (ny + 1) * (nz + 1) <= int_max ->
  nx <= int_max /\ ny <= int_max /\ nz <= int_max.
Proof.
  intros Hnx Hny Hnz H.
  assert (A : nx + 1 <= (nx + 1) * (ny + 1)) by nia.
  assert (B : ny + 1 <= (nx + 1) * (ny + 1)) by nia.
  assert (C : (nx + 1) * (ny + 1) <= (nx + 1) * (ny + 1) * (nz + 1)) by nia.
  assert (D : nz + 1 <= (nx + 1) * (ny + 1) * (nz + 1)) by nia.
  lia.
Qed.

Section MeshPoints.

Variable voxels : VoxelGrid.
Let nx := c0 (m_grid_size voxels).
Let ny := c1 (m_grid_size voxels).
Let nz := c2 (m_grid_size voxels).
Let node_size := Vec3i (nx + 1) (ny + 1) (nz + 1).
Let raw :=
  flat_map (fun idx => voxel_facets voxels (cell_of (m_grid_size voxels) idx))
           (steps 0 1 (Z.to_nat (nx * ny * nz))).
Hypothesis Hnx : 0 <= nx.
Hypothesis Hny : 0 <= ny.
Hypothesis Hnz : 0 <= nz.
Hypothesis Hnodes : (nx + 1) * (ny + 1) * (nz + 1) <= int_max.
Hypothesis Hlen : Z.of_nat (length (m_data voxels)) = nx * ny * nz.
Hypothesis Hocc : exists v, v ∈ m_data voxels /\ v <> 0.

Lemma points_lattice : Forall lattice (map (cell_of node_size) (first_seen raw)).
Proof using Hnx Hny Hnz Hnodes Hlen.
  apply Forall_fmap, Forall_forall. intros c Hc. cbn.
  pose proof (first_seen_in_range voxels) as Hr. feed Hr. specialize (Hr c Hc).
  pose proof (cell_of_node voxels) as Hn. feed Hn.
  destruct (Hn c Hr) as (A & B & C & _).
  fold nx ny nz node_size in A, B, C.
  destruct (axis_bounds nx ny nz Hnx Hny Hnz Hnodes) as (? & ? & ?).
  unfold lattice. lia.
Qed.

Lemma two_points :
  exists p1 p2, p1 ∈ map (cell_of node_size) (first_seen raw) /\
                p2 ∈ map (cell_of node_size) (first_seen raw) /\ p1 <> p2.
Proof using Hnx Hny Hnz Hnodes Hlen Hocc.
  destruct (first_occupied _ Hocc) as (i & v & Hi & Hv & Hmin).
  pose proof (raw_nonempty voxels) as Hne. feed Hne. specialize (Hne i v Hi Hv Hmin).
  pose proof (raw_proper voxels) as Hp. feed Hp.
  pose proof (first_seen_in_range voxels) as Hr. feed Hr.
  pose proof (cell_of_node voxels) as Hn. feed Hn.
  fold nx ny nz raw node_size in Hne, Hp, Hr, Hn.
  assert (Hab : exists a b, a ∈ raw /\ b ∈ raw /\ a <> b).
  { destruct raw as [|a [|b [|c l]]]; try contradiction.
    destruct Hp as (Hab & _). exists a, b.
    split; [left|]. split; [right; left|exact Hab]. }
  destruct Hab as (a & b & Ia & Ib & Hab).
  apply first_seen_elem in Ia, Ib.
  exists (cell_of node_size a), (cell_of node_size b).
  split; [apply list_elem_of_fmap_2; exact Ia|].
  split; [apply list_elem_of_fmap_2; exact Ib|].
  intros Heq.
  destruct (Hn a (Hr a Ia)) as (_ & _ & _ & La).
  destruct (Hn b (Hr b Ib)) as (_ & _ & _ & Lb).
  rewrite Heq in La. congruence.
Qed.

End MeshPoints.

(** Two points whose box has the extents 3, 1 and 2: the second goes to
    1, 1/3 and 2/3, the last two rounded to [double]. *)
Example rescale_sample :
  rescale (map vec3_of [Vec3i 0 0 0; Vec3i 3 1 2])
  = [(dzero, dzero, dzero);
     (double_of_int 1, S754_finite false 6004799503160661 (-54),
      S754_finite false 6004799503160661 (-53))].
Proof. vm_compute. reflexivity. Qed.

(** C9: on a grid whose node count fits an [int] and which has an
    occupied voxel, [triangle_mesh_dump] ends with a mesh whose vertices
    are the lattice points of [triangle_mesh], moved by the opposite of
    the minimum corner of their bounding box and divided by the largest
    of the three extents of that box, which is positive, each coordinate
    up to one rounding. Every coordinate is between 0 and 1; on each of
    the three axes the least coordinate is exactly 0; on one axis at
    least the greatest coordinate is exactly 1; and the new extents are
    to each other as the old ones, within a relative error of 2^-51. *)
Theorem rescale_unit_box voxels :
  let nx := c0 (m_grid_size voxels) in
  let ny := c1 (m_grid_size voxels) in
  let nz := c2 (m_grid_size voxels) in
  0 <= nx -> 0 <= ny -> 0 <= nz ->
  (nx + 1) * (ny + 1) * (nz + 1) <= int_max ->
  Z.of_nat (length (m_data voxels)) = nx * ny * nz ->
  (exists v, v ∈ m_data voxels /\ v <> 0) ->
  exists pts tris out lo hi,
    triangle_mesh voxels = Ok (pts, tris) /\
    triangle_mesh_dump voxels = Ok (out, tris) /\
    bounding_box lo hi pts /\
    0 < Z.max (c0 hi - c0 lo) (Z.max (c1 hi - c1 lo) (c2 hi - c2 lo)) /\
    unit_box pts lo hi out.
Proof.
  intros nx ny nz Hnx Hny Hnz Hnodes Hlen Hocc.
  pose proof (triangle_mesh_run voxels) as H. feed H.
  destruct H as (tris & E & _).
  pose proof (points_lattice voxels) as Hl. feed Hl.
  pose proof (two_points voxels) as Ht. feed Ht.
  destruct Ht as (p1 & p2 & H1 & H2 & Hne).
  match type of E with
  | _ = Ok (?p, _) => remember p as pts eqn:Ep in *
  end.
  clear Ep.
  destruct pts as [|q l]; [apply elem_of_nil in H1; contradiction|].
  pose proof (bounding_box_exists q l) as Hb.
  pose proof (bounding_box_thick _ _ _ p1 p2 Hb H1 H2 Hne) as Hs.
  exists (q :: l), tris, (rescale (map vec3_of (q :: l))),
         (foldl vmin q l), (foldl vmax q l).
  split; [exact E|]. split; [unfold triangle_mesh_dump; now rewrite E|].
  split; [exact Hb|]. split; [exact Hs|].
  apply rescale_unit_box_of; assumption.
Qed.

(** The 3 x 1 x 1 grid with its three voxels occupied: the extents of the
    box are 3, 1 and 1, the new coordinates 0, 1/3, 2/3 and 1, where 1/3
    and 2/3 are rounded. *)
Lemma rescale_unit_box_witness :
  exists pts tris out lo hi,
    triangle_mesh grid_3_1_1_solid = Ok (pts, tris) /\
    triangle_mesh_dump grid_3_1_1_solid = Ok (out, tris) /\
    bounding_box lo hi pts /\
    0 < Z.max (c0 hi - c0 lo) (Z.max (c1 hi - c1 lo) (c2 hi - c2 lo)) /\
    unit_box pts lo hi out.
Proof.
  apply (rescale_unit_box grid_3_1_1_solid); cbn; unfold int_max; try lia.
  exists 1. split; [left|lia].
Defined.
